(** * ME-DandD lobby server: a shallow embedding of [server.js]

    The development follows the server source: the dice evaluator
    [rollAdvanced], the lobby registry [ensureLobby], and the socket handlers
    ([join_lobby], [chat], [roll], the map and token handlers, the slash
    commands of [handleCommand], and the consent flow
    [campaign_choice_request] / [campaign_choice_ack] / [campaign_choice_force]).

    The handlers are those of the server version with the start lock and
    the consent flow; the earlier version [src/server.js] has the same
    [rollAdvanced], [uniqueName], [join_lobby], [map_init] and encounter
    commands, no lock tests, and the handler [campaign_choice_pick], which is
    embedded as well.

    Conventions of the embedding.
    - A JavaScript string is a [string] of 8-bit characters; [trim], [\s],
      [\d], [\w] and [toLowerCase] are the ASCII fragments of their
      JavaScript namesakes.
    - A JavaScript integer number is a [Z] (doubles are idealised: no
      rounding above 2^53, no NaN except where a parse fails, which is an
      [option]).
    - [Math.random()] is an oracle [nat -> Q]: the i-th draw of a call.
    - [Date.now()], [nowISO()], random identifiers and the scrypt functions
      [hashPass] / [verifyPass] are fields of an environment record.
    - A [Map] or [Set] whose iteration order is observable is an
      insertion-ordered list; the lobby registry is a [gmap].
    - A handler takes the per-connection closure variables ([username],
      [lobby], the socket id) and the registry, and returns the new closure
      variables, the new registry and the list of messages it emitted. *)

From Stdlib Require Import ZArith QArith Qround Ascii String List Lia Bool.
From Stdlib Require Import Sorting.Sorted Sorting.Permutation.
From stdpp Require Import base list strings gmap pretty.

Local Open Scope Z_scope.

(** ** JavaScript helpers *)

Module Js.

(** An exception-or-value result: [throw new Error(msg)] is [Throw msg]. *)
Inductive Thrown (A : Type) : Type :=
| Ok (a : A)
| Throw (msg : string).
Arguments Ok {A} a.
Arguments Throw {A} msg.

(** A payload field that the code feeds to [parseInt] or tests for
    truthiness: missing, a number or a string. *)
Inductive Val : Type :=
| VUndefined
| VNum (z : Z)
| VStr (s : string).

Definition is_digit (a : ascii) : bool :=
  match Ascii.is_nat a with Some _ => true | None => false end.

Definition digit_val (a : ascii) : Z :=
  match Ascii.is_nat a with Some n => Z.of_nat n | None => 0 end.

(** [\w] *)
Definition is_word (a : ascii) : bool :=
  let n := nat_of_ascii a in
  is_digit a || ((65 <=? n)%nat && (n <=? 90)%nat)
             || ((97 <=? n)%nat && (n <=? 122)%nat) || (n =? 95)%nat.

Definition lower (a : ascii) : ascii :=
  let n := nat_of_ascii a in
  if ((65 <=? n)%nat && (n <=? 90)%nat)%bool then ascii_of_nat (n + 32) else a.

Fixpoint toLowerCase (s : string) : string :=
  match s with
  | EmptyString => EmptyString
  | String a s' => String (lower a) (toLowerCase s')
  end.

Fixpoint trimStart (s : string) : string :=
  match s with
  | EmptyString => EmptyString
  | String a s' => if Ascii.is_space a then trimStart s' else s
  end.

Definition trimEnd (s : string) : string :=
  String.rev (trimStart (String.rev s)).

Definition trim (s : string) : string := trimEnd (trimStart s).

(** [s.slice(0, max)] *)
Definition slice0 (max : nat) (s : string) : string := substring 0 max s.

(** [s.slice(1)] *)
Definition slice1 (s : string) : string :=
  match s with EmptyString => EmptyString | String _ s' => s' end.

(** [s.replace(/\s+/g, '')] *)
Fixpoint stripSpaces (s : string) : string :=
  match s with
  | EmptyString => EmptyString
  | String a s' => if Ascii.is_space a then stripSpaces s' else String a (stripSpaces s')
  end.

Definition startsWith (p s : string) : bool := String.prefix p s.

(** [const safe = (s, max=120) => String(s ?? '').trim().slice(0, max)] *)
Definition safe (s : string) (max : nat) : string := slice0 max (trim s).

(** A string is truthy when it is not empty. *)
Definition truthy (s : string) : bool :=
  match s with EmptyString => false | _ => true end.

(** [a || b] on strings *)
Definition or_str (a b : string) : string := if truthy a then a else b.

(** [a || b] where [a] may be [undefined] *)
Definition or_default (a : option string) (b : string) : string :=
  match a with Some s => or_str s b | None => b end.

(** [const clamp = (n, a, b) => Math.max(a, Math.min(b, n))] *)
Definition clamp (n a b : Z) : Z := Z.max a (Z.min b n).

(** The longest prefix of digits, and the rest. *)
Fixpoint span_digits (s : string) : string * string :=
  match s with
  | EmptyString => (EmptyString, EmptyString)
  | String a s' =>
      if is_digit a
      then let '(d, r) := span_digits s' in (String a d, r)
      else (EmptyString, s)
  end.

Fixpoint digits_value (acc : Z) (s : string) : Z :=
  match s with
  | EmptyString => acc
  | String a s' => digits_value (10 * acc + digit_val a) s'
  end.

(** [parseInt(s, 10)]: leading white space, an optional sign, then the
    longest run of digits; [None] is NaN. *)
Definition parseInt (s : string) : option Z :=
  let t := trimStart s in
  let '(neg, u) :=
    match t with
    | String "-" u => (true, u)
    | String "+" u => (false, u)
    | _ => (false, t)
    end in
  let '(d, _) := span_digits u in
  match d with
  | EmptyString => None
  | _ => Some (if neg then - digits_value 0 d else digits_value 0 d)
  end.

(** [parseInt(v || dflt, 10) || dflt] for a payload field [v] and a
    non-zero numeric default: a missing, empty, zero or unparsable field
    yields the default. *)
Definition parseInt_or (v : Val) (dflt : Z) : Z :=
  let parsed :=
    match v with
    | VUndefined => Some dflt
    | VNum z => if z =? 0 then Some dflt else Some z
    | VStr s => if truthy s then parseInt s else Some dflt
    end in
  match parsed with
  | Some z => if z =? 0 then dflt else z
  | None => dflt
  end.

(** [parseInt(v, 10) || 0] *)
Definition parseInt_or0 (v : Val) : Z :=
  match v with
  | VUndefined => 0
  | VNum z => z
  | VStr s => match parseInt s with Some z => z | None => 0 end
  end.

(** [Array.prototype.sort] is stable; [le a b] is the test
    [comparator(a, b) <= 0]: a may stay before b. *)
Fixpoint insert_by {A : Type} (le : A -> A -> bool) (x : A) (l : list A) : list A :=
  match l with
  | [] => [x]
  | y :: l' => if le x y then x :: l else y :: insert_by le x l'
  end.

Definition sort_by {A : Type} (le : A -> A -> bool) (l : list A) : list A :=
  fold_right (insert_by le) [] l.

(** The longest prefix whose characters satisfy [p], and the rest. *)
Fixpoint span (p : ascii -> bool) (s : string) : string * string :=
  match s with
  | EmptyString => (EmptyString, EmptyString)
  | String a s' =>
      if p a then let '(d, r) := span p s' in (String a d, r)
      else (EmptyString, s)
  end.

Definition non_space (a : ascii) : bool := negb (Ascii.is_space a).

(** The last character of a string, as a string. *)
Fixpoint last_char (s : string) : string :=
  match s with
  | EmptyString => EmptyString
  | String a EmptyString => s
  | String _ s' => last_char s'
  end.

(** [s.split(' ')] as its first element and, when there is a space, the
    other elements joined by spaces again. *)
Fixpoint split_space (s : string) : string * option string :=
  match s with
  | EmptyString => (EmptyString, None)
  | String a s' =>
      if Ascii.eqb a " " then (EmptyString, Some s')
      else let '(h, t) := split_space s' in (String a h, t)
  end.

(** A match of a greedy white-space run followed by a non-empty remainder
    that extends to the end of the string (the remainder is the group).
    When only white space is left, the run gives back its last character.
    [need] is true when the run must be non-empty. *)
Definition ws_then_rest (need : bool) (s : string) : option string :=
  let '(ws, r) := span Ascii.is_space s in
  match r with
  | String _ _ => if (need && negb (truthy ws))%bool then None else Some r
  | EmptyString =>
      if (if need then 2 <=? String.length ws else 1 <=? String.length ws)%nat
      then Some (last_char ws) else None
  end.

(** Template-literal rendering of a non-negative integer. *)
Definition show (n : nat) : string := pretty n.

End Js.

Export Js.

(** ** Dice evaluator *)

Module Dice.

(** The groups of a successful match of the regular expression DICE_ADV:
    group 1 is an optional run of digits (the count), then the letter d,
    group 2 a run of digits (the sides), the optional group 3 is k, h or l
    and the digits of group 4, the optional group 5 is a sign and digits;
    the expression is anchored at both ends and case-insensitive. *)
Record Match := mkMatch {
  m1 : string;
  m2 : string;
  m3 : option string;
  m4 : option string;
  m5 : option string
}.

(** The optional keep group: the groups 3 and 4 and the rest. *)
Definition match_keep (s : string) : option string * option string * string :=
  match s with
  | String k (String hl r) =>
      if (Ascii.eqb (lower k) "k" && (Ascii.eqb (lower hl) "h" || Ascii.eqb (lower hl) "l"))%bool
      then
        let '(d, r') := span_digits r in
        match d with
        | EmptyString => (None, None, s)
        | _ => (Some (String k (String hl d)), Some d, r')
        end
      else (None, None, s)
  | _ => (None, None, s)
  end.

(** The optional modifier group followed by the end of the string. *)
Definition match_mod (s : string) : option (option string) :=
  match s with
  | EmptyString => Some None
  | String sg r =>
      if (Ascii.eqb sg "+" || Ascii.eqb sg "-")%bool
      then
        let '(d, r') := span_digits r in
        match d, r' with
        | String _ _, EmptyString => Some (Some (String sg d))
        | _, _ => None
        end
      else None
  end.

(** [expr.match(DICE_ADV)] *)
Definition DICE_ADV (expr : string) : option Match :=
  let '(c, r1) := span_digits expr in
  match r1 with
  | String d r2 =>
      if Ascii.eqb (lower d) "d" then
        let '(sd, r3) := span_digits r2 in
        match sd with
        | EmptyString => None
        | _ =>
            let '(g3, g4, r4) := match_keep r3 in
            match match_mod r4 with
            | Some g5 => Some (mkMatch c sd g3 g4 g5)
            | None => None
            end
        end
      else None
  | EmptyString => None
  end.

Record Roll := mkRoll {
  expression : string;
  rolls : list Z;
  used : list Z;
  modifier : Z;
  total : Z
}.

Definition msg_invalid : string := "Invalid dice. Try d20, 3d6+2, 4d6kh3, adv/dis.".
Definition msg_too_big : string := "Too big (<=100 dice, <=1000 sides).".
Definition msg_keep : string := "Keep out of range.".

(** [1 + Math.floor(Math.random()*sides)] for the draw [r]. *)
Definition die (sides : Z) (r : Q) : Z := 1 + Qfloor (r * inject_Z sides).

(** [Array.from({length:count}, () => die)] with the draws [rnd 0], [rnd 1], ... *)
Definition roll_dice (rnd : nat -> Q) (count sides : Z) : list Z :=
  map (fun i => die sides (rnd i)) (seq 0 (Z.to_nat count)).

(** [(a,b) => keepMode==='h' ? b-a : a-b], as "a may precede b". *)
Definition keep_le (keepMode : string) (a b : Z) : bool :=
  if String.eqb keepMode "h" then b - a <=? 0 else a - b <=? 0.

(** [arr.reduce((a,b)=>a+b, 0)] *)
Definition sum (l : list Z) : Z := fold_left Z.add l 0.

(** The expression after white space removal and lower-casing. *)
Definition normalize (exprRaw : string) : string :=
  toLowerCase (stripSpaces (safe exprRaw 40)).

(** The constants that [rollAdvanced] reads off a match: [count], [sides],
    [keepMode], [keepN] and [mod]; [null] and [undefined] are [None]. *)
Record Fields := mkFields {
  count : Z;
  sides : Z;
  keepMode : option string;
  keepN : option Z;
  mod_ : Z
}.

Definition fields (m : Match) : Fields :=
  mkFields (Z.max 1 (default 0 (parseInt (or_str (m1 m) "1"))))
           (default 0 (parseInt (m2 m)))
           ((fun g => substring 1 1 g) <$> m3 m)
           (m4 m ≫= parseInt)
           (match m5 m with Some g => default 0 (parseInt g) | None => 0 end).

(** Truthiness of [keepN]: neither [null] nor 0. *)
Definition keepN_truthy (f : Fields) : bool :=
  match keepN f with Some n => negb (n =? 0) | None => false end.

(** The body of [rollAdvanced] after the two alias tests. *)
Definition rollAdvanced_main (rnd : nat -> Q) (exprRaw : string) : Thrown Roll :=
  let expr := normalize exprRaw in
  match DICE_ADV expr with
  | None => Throw msg_invalid
  | Some m =>
      let f := fields m in
      if ((count f >? 100) || (sides f >? 1000))%bool then Throw msg_too_big
      else
        let n := default 0 (keepN f) in
        if (keepN_truthy f && ((n <? 1) || (n >? count f)))%bool then Throw msg_keep
        else
          let rs := roll_dice rnd (count f) (sides f) in
          let us :=
            match keepMode f with
            | Some km =>
                if (truthy km && keepN_truthy f)%bool
                then firstn (Z.to_nat n) (sort_by (keep_le km) rs)
                else rs
            | None => rs
            end in
          Ok (mkRoll exprRaw rs us (mod_ f) (sum us + mod_ f))
  end.

(** The expression that is evaluated: the aliases stand for a literal. *)
Definition resolve_alias (exprRaw : string) : string :=
  let expr := normalize exprRaw in
  if (String.eqb expr "adv" || String.eqb expr "d20adv")%bool then "2d20kh1"
  else if (String.eqb expr "dis" || String.eqb expr "d20dis")%bool then "2d20kl1"
  else exprRaw.

(** [rollAdvanced]: an alias calls the function again on its literal, which
    is not an alias, so the second call runs the body. *)
Definition rollAdvanced (rnd : nat -> Q) (exprRaw : string) : Thrown Roll :=
  rollAdvanced_main rnd (resolve_alias exprRaw).

End Dice.

(** ** Lobby state *)

Module Model.

(** Insertion-ordered [Map] with string keys ([L.users]). *)
Section OMap.
Context {V : Type}.

Fixpoint oget (k : string) (m : list (string * V)) : option V :=
  match m with
  | [] => None
  | (k', v) :: m' => if String.eqb k k' then Some v else oget k m'
  end.

(** [m.set(k, v)]: an existing key keeps its position. *)
Fixpoint oset (k : string) (v : V) (m : list (string * V)) : list (string * V) :=
  match m with
  | [] => [(k, v)]
  | (k', v') :: m' =>
      if String.eqb k k' then (k, v) :: m' else (k', v') :: oset k v m'
  end.

(** [m.delete(k)] *)
Definition odelete (k : string) (m : list (string * V)) : list (string * V) :=
  List.filter (fun kv => negb (String.eqb k (fst kv))) m.

(** [[...m.values()]] *)
Definition ovalues (m : list (string * V)) : list V := map snd m.
End OMap.

(** Membership test on a list of strings ([some(u => u === nm)], [Set.has]). *)
Definition has (x : string) (l : list string) : bool :=
  existsb (String.eqb x) l.

(** [Set.add] on an insertion-ordered set. *)
Definition set_add (x : string) (l : list string) : list string :=
  if has x l then l else l ++ [x].

(** [Set.delete] *)
Definition set_delete (x : string) (l : list string) : list string :=
  List.filter (fun y => negb (String.eqb x y)) l.

Record Token := mkToken {
  tok_id : string;
  tok_name : string;
  tok_x : Z;
  tok_y : Z;
  tok_color : string;
  tok_owner : string
}.

(** [L.map]: [tiles] is an array of [h] rows of [w] cells, 0 open and 1 wall. *)
Record MapState := mkMap {
  map_w : Z;
  map_h : Z;
  tiles : list (list Z);
  tokens : list (string * Token)
}.

Record Choice := mkChoice {
  choice_id : string;
  choice_text : string;
  choice_to : string
}.

Record Scene := mkScene {
  scene_id : string;
  scene_title : string;
  scene_content : string;
  choices : list Choice
}.

Record Handout := mkHandout {
  handout_id : string;
  handout_title : string;
  handout_content : string
}.

Record Quest := mkQuest {
  quest_id : string;
  quest_title : string;
  quest_done : bool
}.

Record Note := mkNote {
  note_by : string;
  note_text : string;
  note_ts : string
}.

(** [currentSceneId] is a string or [null]. *)
Record Campaign := mkCampaign {
  camp_title : string;
  camp_summary : string;
  scenes : list Scene;
  currentSceneId : option string;
  handouts : list Handout;
  quests : list Quest;
  notes : list Note
}.

(** [settings.consent.pending] *)
Record Pending := mkPending {
  pend_choiceId : string;
  pend_text : string;
  pend_to : string;
  approvals : list string;
  requestedAt : Z
}.

Record Settings := mkSettings {
  lockedUntilStart : bool;
  campaignStarted : bool;
  requireCharacter : bool;
  pending : option Pending
}.

Record Combatant := mkCombatant {
  cb_name : string;
  cb_init : Z
}.

Record Encounter := mkEncounter {
  active : bool;
  order : list Combatant;
  turnIndex : Z
}.

Record ChatMsg := mkChat {
  chat_user : string;
  chat_text : string;
  chat_ts : string
}.

Record RollMsg := mkRollMsg {
  roll_user : string;
  roll_res : Dice.Roll;
  roll_ts : string;
  roll_lobby : string
}.

(** A sanitized character sheet (the numeric fields after clamping). *)
Record Sheet := mkSheet {
  sheet_name : string;
  sheet_archetype : string;
  sheet_race : string;
  sheet_speed : Z;
  sheet_profs : string;
  sheet_traits : string;
  sheet_class : string;
  sheet_level : Z;
  sheet_ac : Z;
  sheet_hp : Z;
  sheet_maxHp : Z;
  sheet_notes : string;
  sheet_abilities : list Z;
  sheet_updatedAt : string
}.

(** One lobby, as created by [ensureLobby]. [gm] and [passwordHash] are a
    string or [null]; [users] maps a socket id to the member's name. *)
Record Lobby := mkLobby {
  createdAt : Z;
  gm : option string;
  passwordHash : option string;
  bans : list string;
  users : list (string * string);
  macros : list (string * list (string * string));
  messages : list ChatMsg;
  rolls : list RollMsg;
  characters : list (string * Sheet);
  encounter : Encounter;
  lmap : MapState;
  campaign : Campaign;
  settings : Settings
}.

Definition set_gm (v : option string) (L : Lobby) : Lobby :=
  mkLobby (createdAt L) v (passwordHash L) (bans L) (users L) (macros L) (messages L)
          (rolls L) (characters L) (encounter L) (lmap L) (campaign L) (settings L).
Definition set_passwordHash (v : option string) (L : Lobby) : Lobby :=
  mkLobby (createdAt L) (gm L) v (bans L) (users L) (macros L) (messages L)
          (rolls L) (characters L) (encounter L) (lmap L) (campaign L) (settings L).
Definition set_bans (v : list string) (L : Lobby) : Lobby :=
  mkLobby (createdAt L) (gm L) (passwordHash L) v (users L) (macros L) (messages L)
          (rolls L) (characters L) (encounter L) (lmap L) (campaign L) (settings L).
Definition set_users (v : list (string * string)) (L : Lobby) : Lobby :=
  mkLobby (createdAt L) (gm L) (passwordHash L) (bans L) v (macros L) (messages L)
          (rolls L) (characters L) (encounter L) (lmap L) (campaign L) (settings L).
Definition set_macros (v : list (string * list (string * string))) (L : Lobby) : Lobby :=
  mkLobby (createdAt L) (gm L) (passwordHash L) (bans L) (users L) v (messages L)
          (rolls L) (characters L) (encounter L) (lmap L) (campaign L) (settings L).
Definition set_messages (v : list ChatMsg) (L : Lobby) : Lobby :=
  mkLobby (createdAt L) (gm L) (passwordHash L) (bans L) (users L) (macros L) v
          (rolls L) (characters L) (encounter L) (lmap L) (campaign L) (settings L).
Definition set_rolls (v : list RollMsg) (L : Lobby) : Lobby :=
  mkLobby (createdAt L) (gm L) (passwordHash L) (bans L) (users L) (macros L) (messages L)
          v (characters L) (encounter L) (lmap L) (campaign L) (settings L).
Definition set_characters (v : list (string * Sheet)) (L : Lobby) : Lobby :=
  mkLobby (createdAt L) (gm L) (passwordHash L) (bans L) (users L) (macros L) (messages L)
          (rolls L) v (encounter L) (lmap L) (campaign L) (settings L).
Definition set_encounter (v : Encounter) (L : Lobby) : Lobby :=
  mkLobby (createdAt L) (gm L) (passwordHash L) (bans L) (users L) (macros L) (messages L)
          (rolls L) (characters L) v (lmap L) (campaign L) (settings L).
Definition set_lmap (v : MapState) (L : Lobby) : Lobby :=
  mkLobby (createdAt L) (gm L) (passwordHash L) (bans L) (users L) (macros L) (messages L)
          (rolls L) (characters L) (encounter L) v (campaign L) (settings L).
Definition set_campaign (v : Campaign) (L : Lobby) : Lobby :=
  mkLobby (createdAt L) (gm L) (passwordHash L) (bans L) (users L) (macros L) (messages L)
          (rolls L) (characters L) (encounter L) (lmap L) v (settings L).
Definition set_settings (v : Settings) (L : Lobby) : Lobby :=
  mkLobby (createdAt L) (gm L) (passwordHash L) (bans L) (users L) (macros L) (messages L)
          (rolls L) (characters L) (encounter L) (lmap L) (campaign L) v.

Definition set_currentSceneId (v : option string) (c : Campaign) : Campaign :=
  mkCampaign (camp_title c) (camp_summary c) (scenes c) v (handouts c) (quests c) (notes c).
Definition set_scenes (v : list Scene) (c : Campaign) : Campaign :=
  mkCampaign (camp_title c) (camp_summary c) v (currentSceneId c) (handouts c) (quests c) (notes c).
Definition set_pending (v : option Pending) (s : Settings) : Settings :=
  mkSettings (lockedUntilStart s) (campaignStarted s) (requireCharacter s) v.
Definition set_campaignStarted (v : bool) (s : Settings) : Settings :=
  mkSettings (lockedUntilStart s) v (requireCharacter s) (pending s).
Definition set_approvals (v : list string) (p : Pending) : Pending :=
  mkPending (pend_choiceId p) (pend_text p) (pend_to p) v (requestedAt p).

(** The per-connection closure variables of [io.on('connection', ...)]:
    [socket.id], [username] (initially 'Anon') and [lobby] (initially null). *)
Record Conn := mkConn {
  sid : string;
  username : string;
  lobby : option string
}.

(** What a handler observes of the outside world during one call. *)
Record Env := mkEnv {
  nowISO : string;
  dateNow : Z;
  rnd : nat -> Q;
  randId : string -> string;
  tokenId : string;
  hashPass : string -> string;
  verifyPass : string -> string -> bool;
  campaignRegistry : string -> option Campaign
}.

Inductive Dest : Type :=
| ToSocket (id : string)
| ToRoom (room : string).

(** The snapshot sent by [emitState]. *)
Record StateView := mkStateView {
  sv_users : list string;
  sv_gm : option string;
  sv_characters : list (string * Sheet);
  sv_encounter : Encounter;
  sv_campaign : Campaign;
  sv_settings : bool * bool * bool;
  sv_characterNeeded : list (string * bool)
}.

(** Outbound messages: the event name and its payload. *)
Inductive Msg : Type :=
| error_message (text : string)
| system (text : string)
| identified (name : string)
| joined (lobbyName : string) (hist_messages : list ChatMsg) (hist_rolls : list RollMsg)
         (gmName : option string) (s : Settings)
| chat_msg (m : ChatMsg)
| roll_msg (m : RollMsg)
| characters_msg (cs : list (string * Sheet))
| state (v : StateView)
| map_state (m : MapState)
| map_ping (x y : Z) (by_ : string) (ts : string)
| campaign_state (c : Campaign)
| campaign_started (sceneId : option string)
| campaign_choice_requested (sceneId choiceId text to requestedBy : string) (players : list string)
| character_required (reason : string)
| consent_force.

Definition Emit : Type := Dest * Msg.

End Model.

Export Model.

(** ** The registry and the connection handlers *)

Module Server.

(** [Array.from({length:h}, () => Array(w).fill(0))] *)
Definition open_grid (w h : Z) : list (list Z) :=
  repeat (repeat 0 (Z.to_nat w)) (Z.to_nat h).

Definition defaultMap : MapState := mkMap 20 20 (open_grid 20 20) [].

Definition defaultCampaign : Campaign :=
  mkCampaign "Embers of Argeth"
    "Starter mini-campaign to verify scenes & consent flow."
    [ mkScene "s_intro" "Arrival in Graywick"
        "Foggy mining town; escort job & missing caravans."
        [ mkChoice "c_intro_tavern" "Head to the Burnt Anvil tavern" "s_tavern";
          mkChoice "c_intro_board" "Study the notice board" "s_board" ];
      mkScene "s_tavern" "The Burnt Anvil"
        "Foreman offers 10 gp each to guard a wagon at dawn."
        [ mkChoice "c_tavern_accept" "Accept the job (escort)" "s_road";
          mkChoice "c_tavern_market" "Wander the night market" "s_market" ];
      mkScene "s_board" "Notice Board"
        "Late caravans; red-eyed goblins near the Old Road."
        [ mkChoice "c_board_investigate" "Investigate the Old Road" "s_road";
          mkChoice "c_board_ignore" "Ask around the market" "s_market" ];
      mkScene "s_market" "Night Market"
        "Lanterns sway; rumors of a glowing lighthouse."
        [ mkChoice "c_market_lighthouse" "Scout the lighthouse" "s_lighthouse";
          mkChoice "c_market_sleep" "Rest then escort" "s_road" ];
      mkScene "s_road" "Ambush on the Old Road"
        "Goblins attack; tracks lead into woods."
        [ mkChoice "c_road_track" "Follow the tracks" "s_cave";
          mkChoice "c_road_help" "Help wounded, return" "s_graywick" ];
      mkScene "s_cave" "Gloomroot Cave"
        "Glowing mushrooms, captives, a humming idol."
        [ mkChoice "c_cave_rescue" "Rescue captives" "s_reward";
          mkChoice "c_cave_idol" "Smash the idol" "s_reward" ];
      mkScene "s_lighthouse" "Ruined Lighthouse"
        "Sealed hatch; old vault of Argeth."
        [ mkChoice "c_lh_descend" "Descend into the vault" "s_reward" ];
      mkScene "s_graywick" "Back to Graywick"
        "Thanks & hints to finish the job."
        [ mkChoice "c_graywick_road" "Return to the Old Road" "s_road" ];
      mkScene "s_reward" "Aftermath" "Coin; rumors of the Ember Crown." [] ]
    (Some "s_intro")
    [ mkHandout "h_notice" "Notice Board" "Escort to mill at dawn. Pay: 10 gp each." ]
    [ mkQuest "q_escort" "Escort the supply wagon" false;
      mkQuest "q_goblins" "Find the missing caravans" false ]
    [].

Definition defaultSettings : Settings := mkSettings true false true None.

Definition newLobby (env : Env) : Lobby :=
  mkLobby (dateNow env) None None [] [] [] [] [] []
          (mkEncounter false [] 0) defaultMap defaultCampaign defaultSettings.

(** [ensureLobby(name)]: the registry after the call and the lobby found. *)
Definition ensureLobby (env : Env) (name : string) (mem : gmap string Lobby)
  : gmap string Lobby * Lobby :=
  match mem !! name with
  | Some L => (mem, L)
  | None => (<[name := newLobby env]> mem, newLobby env)
  end.

(** Truthiness of a string-or-null field. *)
Definition truthy_opt (o : option string) : bool :=
  match o with Some s => truthy s | None => false end.

Definition user_names (L : Lobby) : list string := ovalues (users L).

(** [[...m.entries()].find(([,u]) => u.name === target)] *)
Fixpoint find_user (target : string) (m : list (string * string)) : option (string * string) :=
  match m with
  | [] => None
  | (k, nm) :: m' => if String.eqb nm target then Some (k, nm) else find_user target m'
  end.

Definition has_key {V : Type} (k : string) (m : list (string * V)) : bool :=
  match oget k m with Some _ => true | None => false end.

Definition state_view (L : Lobby) : StateView :=
  let us := user_names L in
  mkStateView us (gm L) (characters L) (encounter L) (campaign L)
    (lockedUntilStart (settings L), campaignStarted (settings L), requireCharacter (settings L))
    (map (fun u => (u, negb (has_key u (characters L)))) us).

(** [emitState()] and [emitMap()] for a connection whose [lobby] is [ln]. *)
Definition emitState (ln : string) (L : Lobby) : list Emit :=
  [(ToRoom ln, state (state_view L))].

Definition emitMap (ln : string) (L : Lobby) : list Emit :=
  [(ToRoom ln, map_state (lmap L))].

Definition joinOk (L : Lobby) (name : string) : bool :=
  negb (has (toLowerCase name) (bans L)).

(** The [while] loop of [uniqueName], run for at most [fuel] tests. *)
Fixpoint uniqueName_loop (names : list string) (base : string) (fuel i : nat)
  : option string :=
  match fuel with
  | O => None
  | S fuel' =>
      if has (base +:+ show i) names
      then uniqueName_loop names base fuel' (S i)
      else Some (base +:+ show i)
  end.

(** [uniqueName(L, base)]. The loop stops within [length names + 1] tests
    (lemma [uniqueName_loop_total]), so the default is never used. *)
Definition uniqueName (L : Lobby) (base : string) : string :=
  let names := user_names L in
  let nm := or_str base "Anon" in
  if negb (has nm names) then nm
  else default EmptyString (uniqueName_loop names base (S (length names)) 2).

Definition isLockedForPlayers (L : Lobby) : bool :=
  lockedUntilStart (settings L) && negb (campaignStarted (settings L)).

(** [L.gm === username] *)
Definition isGM (c : Conn) (L : Lobby) : bool :=
  match gm L with Some g => String.eqb g (username c) | None => false end.

(** The common frame of a handler: [if (!lobby) return; const L =
    ensureLobby(lobby); ...] with the lobby written back. *)
Definition with_lobby (env : Env) (c : Conn) (mem : gmap string Lobby)
  (k : string -> Lobby -> Lobby * list Emit) : Conn * gmap string Lobby * list Emit :=
  match lobby c with
  | None => (c, mem, [])
  | Some ln =>
      let '(mem1, L) := ensureLobby env ln mem in
      let '(L', out) := k ln L in
      (c, <[ln := L']> mem1, out)
  end.

Definition msg_gm_only : string := "GM only.".
Definition msg_locked : string := "Campaign not started by GM yet.".

Definition lastn {A : Type} (n : nat) (l : list A) : list A :=
  skipn (length l - n) l.

(** [socket.on('identify', ...)] *)
Definition identify (c : Conn) (name : option string) : Conn * list Emit :=
  let u := safe (or_default name "Anon") 24 in
  (mkConn (sid c) u (lobby c), [(ToSocket (sid c), identified u)]).

(** The password branch of [join_lobby]: [None] when the join is refused,
    else the lobby with the password and the GM that the branch sets. *)
Definition join_gate (env : Env) (c : Conn) (L : Lobby) (password : option string)
  : option Lobby :=
  let pw := or_default password EmptyString in
  if truthy_opt (passwordHash L) then
    if (negb (truthy pw) || negb (verifyPass env pw (default EmptyString (passwordHash L))))%bool
    then None else Some L
  else if truthy pw then
    let L1 := set_passwordHash (Some (hashPass env pw)) L in
    Some (if negb (truthy_opt (gm L1)) then set_gm (Some (username c)) L1 else L1)
  else if negb (truthy_opt (gm L)) then Some (set_gm (Some (username c)) L)
  else Some L.

(** [safe(lobbyName || 'tavern', 40) || 'tavern'] *)
Definition join_target (lobbyName : option string) : string :=
  or_str (safe (or_default lobbyName "tavern") 40) "tavern".

(** [socket.on('join_lobby', ...)] *)
Definition join_lobby (env : Env) (c : Conn) (mem : gmap string Lobby)
  (lobbyName password : option string) : Conn * gmap string Lobby * list Emit :=
  let ln := join_target lobbyName in
  let '(mem1, L) := ensureLobby env ln mem in
  if negb (joinOk L (username c))
  then (c, mem1, [(ToSocket (sid c), error_message "You are banned from this lobby.")])
  else
    match join_gate env c L password with
    | None => (c, mem1, [(ToSocket (sid c), error_message "Lobby is locked (wrong password).")])
    | Some L2 =>
        let nm := uniqueName L2 (username c) in
        let L3 := set_users (oset (sid c) nm (users L2)) L2 in
        let c' := mkConn (sid c) nm (Some ln) in
        (c', <[ln := L3]> mem1,
         [(ToSocket (sid c), joined ln (lastn 40 (messages L3)) (lastn 40 (rolls L3)) (gm L3) (settings L3));
          (ToRoom ln, system (nm +:+ " joined " +:+ ln))]
         ++ (if (requireCharacter (settings L3) && negb (has_key nm (characters L3)))%bool
             then [(ToSocket (sid c), character_required "GM requires a character before playing.")]
             else [])
         ++ emitState ln L3 ++ emitMap ln L3)
    end.

(** [socket.on('disconnect', ...)] *)
Definition disconnect (env : Env) (c : Conn) (mem : gmap string Lobby)
  : Conn * gmap string Lobby * list Emit :=
  with_lobby env c mem (fun ln L =>
    let L' := set_users (odelete (sid c) (users L)) L in
    (L', (ToRoom ln, system (username c +:+ " left")) :: emitState ln L')).

(** *** Dice rolls *)

(** [socket.on('roll', ...)]; [expression] is the payload string, if any. *)
Definition roll (env : Env) (c : Conn) (mem : gmap string Lobby)
  (expression : option string) : Conn * gmap string Lobby * list Emit :=
  with_lobby env c mem (fun ln L =>
    if (isLockedForPlayers L && negb (isGM c L))%bool
    then (L, [(ToSocket (sid c), error_message msg_locked)])
    else
      match Dice.rollAdvanced (rnd env) (or_default expression "d20") with
      | Ok res =>
          let payload := mkRollMsg (username c) res (nowISO env) ln in
          (set_rolls (rolls L ++ [payload]) L, [(ToRoom ln, roll_msg payload)])
      | Throw msg =>
          (L, [(ToSocket (sid c), error_message (or_str msg "Bad dice expression."))])
      end).

(** *** Map and tokens *)

(** [socket.on('map_init', ...)] *)
Definition map_init (env : Env) (c : Conn) (mem : gmap string Lobby)
  (w h : Val) : Conn * gmap string Lobby * list Emit :=
  with_lobby env c mem (fun ln L =>
    if negb (isGM c L)
    then (L, [(ToSocket (sid c), error_message msg_gm_only)])
    else
      let w' := clamp (parseInt_or w 20) 5 60 in
      let h' := clamp (parseInt_or h 20) 5 60 in
      let L' := set_lmap (mkMap w' h' (open_grid w' h') []) L in
      (L', (ToRoom ln, system ("Map set to " +:+ pretty w' +:+ "×" +:+ pretty h'))
             :: emitMap ln L')).

(** [row[x] = v]: an index past the end extends the array; the holes read
    as open cells everywhere in the code. *)
Definition array_set (x : nat) (v : Z) (row : list Z) : list Z :=
  if (x <? length row)%nat then <[x := v]> row
  else row ++ repeat 0 (x - length row) ++ [v].

(** [socket.on('map_set', ...)]; [val] is the truthiness of the payload field. *)
Definition map_set (env : Env) (c : Conn) (mem : gmap string Lobby)
  (x y : Val) (val : bool) : Conn * gmap string Lobby * list Emit :=
  with_lobby env c mem (fun ln L =>
    if negb (isGM c L)
    then (L, [(ToSocket (sid c), error_message msg_gm_only)])
    else
      let m := lmap L in
      let x' := clamp (parseInt_or0 x) 0 (map_w m - 1) in
      let y' := clamp (parseInt_or0 y) 0 (map_h m - 1) in
      match tiles m !! Z.to_nat y' with
      | None => (L, [])
      | Some row =>
          let row' := array_set (Z.to_nat x') (if val then 1 else 0) row in
          let L' := set_lmap (mkMap (map_w m) (map_h m)
                                (<[Z.to_nat y' := row']> (tiles m)) (tokens m)) L in
          (L', emitMap ln L')
      end).

(** [(tiles[y]?.[x] ?? 0)] *)
Definition tile_at (ts : list (list Z)) (x y : Z) : Z :=
  match ts !! Z.to_nat y with
  | Some row => default 0 (row !! Z.to_nat x)
  | None => 0
  end.

(** [Object.values(tokens).some(t => t.x===xx && t.y===yy)] *)
Definition occupied (toks : list (string * Token)) (x y : Z) : bool :=
  existsb (fun t => (tok_x t =? x) && (tok_y t =? y))%bool (ovalues toks).

(** The cells in the order of the two nested [for] loops. *)
Definition cells (w h : Z) : list (Z * Z) :=
  flat_map (fun yy => map (fun xx => (Z.of_nat xx, Z.of_nat yy)) (seq 0 (Z.to_nat w)))
           (seq 0 (Z.to_nat h)).

(** The first open and free cell, or (0,0). *)
Definition first_free (m : MapState) : Z * Z :=
  default (0, 0)
    (find (fun '(xx, yy) => (tile_at (tiles m) xx yy =? 0) && negb (occupied (tokens m) xx yy))%bool
          (cells (map_w m) (map_h m))).

(** [socket.on('token_add', ...)]; a missing [id] is replaced by the
    generated identifier [tokenId env]. *)
Definition token_add (env : Env) (c : Conn) (mem : gmap string Lobby)
  (id name color : option string) : Conn * gmap string Lobby * list Emit :=
  with_lobby env c mem (fun ln L =>
    if (isLockedForPlayers L && negb (isGM c L))%bool
    then (L, [(ToSocket (sid c), error_message msg_locked)])
    else
      let m := lmap L in
      let tid := safe (or_default id (tokenId env)) 40 in
      let nm := safe (or_default name (username c)) 24 in
      let '(x, y) := first_free m in
      let tok := mkToken tid nm x y (safe (or_default color "#222") 16) (username c) in
      let L' := set_lmap (mkMap (map_w m) (map_h m) (tiles m) (oset tid tok (tokens m))) L in
      (L', emitMap ln L')).

(** [socket.on('token_move', ...)] *)
Definition token_move (env : Env) (c : Conn) (mem : gmap string Lobby)
  (id : string) (x y : Val) : Conn * gmap string Lobby * list Emit :=
  with_lobby env c mem (fun ln L =>
    if (isLockedForPlayers L && negb (isGM c L))%bool
    then (L, [(ToSocket (sid c), error_message msg_locked)])
    else
      let m := lmap L in
      match oget id (tokens m) with
      | None => (L, [])
      | Some tok =>
          if (negb (isGM c L) && negb (String.eqb (tok_owner tok) (username c)))%bool
          then (L, [(ToSocket (sid c), error_message "Only owner or GM can move this token.")])
          else
            let x' := clamp (parseInt_or0 x) 0 (map_w m - 1) in
            let y' := clamp (parseInt_or0 y) 0 (map_h m - 1) in
            if tile_at (tiles m) x' y' =? 1 then (L, [])
            else
              let tok' := mkToken (tok_id tok) (tok_name tok) x' y' (tok_color tok) (tok_owner tok) in
              let L' := set_lmap (mkMap (map_w m) (map_h m) (tiles m) (oset id tok' (tokens m))) L in
              (L', emitMap ln L')
      end).

(** [socket.on('token_remove', ...)] *)
Definition token_remove (env : Env) (c : Conn) (mem : gmap string Lobby)
  (id : string) : Conn * gmap string Lobby * list Emit :=
  with_lobby env c mem (fun ln L =>
    if (isLockedForPlayers L && negb (isGM c L))%bool
    then (L, [(ToSocket (sid c), error_message msg_locked)])
    else
      let m := lmap L in
      match oget id (tokens m) with
      | None => (L, [])
      | Some tok =>
          if (negb (isGM c L) && negb (String.eqb (tok_owner tok) (username c)))%bool
          then (L, [])
          else
            let L' := set_lmap (mkMap (map_w m) (map_h m) (tiles m) (odelete id (tokens m))) L in
            (L', emitMap ln L')
      end).

(** [socket.on('map_clear', ...)] *)
Definition map_clear (env : Env) (c : Conn) (mem : gmap string Lobby)
  : Conn * gmap string Lobby * list Emit :=
  with_lobby env c mem (fun ln L =>
    if negb (isGM c L)
    then (L, [(ToSocket (sid c), error_message msg_gm_only)])
    else
      let m := lmap L in
      let L' := set_lmap (mkMap (map_w m) (map_h m) (open_grid (map_w m) (map_h m)) (tokens m)) L in
      (L', emitMap ln L')).

(** [socket.on('ping', ...)] *)
Definition ping (env : Env) (c : Conn) (mem : gmap string Lobby)
  (x y : Val) : Conn * gmap string Lobby * list Emit :=
  with_lobby env c mem (fun ln L =>
    if (isLockedForPlayers L && negb (isGM c L))%bool
    then (L, [(ToSocket (sid c), error_message msg_locked)])
    else
      let m := lmap L in
      let x' := clamp (parseInt_or0 x) 0 (map_w m - 1) in
      let y' := clamp (parseInt_or0 y) 0 (map_h m - 1) in
      (L, [(ToRoom ln, map_ping x' y' (username c) (nowISO env))])).

(** *** Campaign *)

(** [scenes.find(s => s.id === id)] *)
Definition find_scene (id : string) (c : Campaign) : option Scene :=
  find (fun s => String.eqb (scene_id s) id) (scenes c).

(** [scenes.find(s => s.id === L.campaign.currentSceneId)]; a [null]
    pointer equals no scene id. *)
Definition current_scene (c : Campaign) : option Scene :=
  match currentSceneId c with
  | Some id => find_scene id c
  | None => None
  end.

Definition find_choice (id : string) (s : Scene) : option Choice :=
  find (fun ch => String.eqb (choice_id ch) id) (choices s).

(** The notifications of [campaign_start]: one [character_required] per
    member without a sheet. *)
Definition character_notices (L : Lobby) : list Emit :=
  flat_map (fun '(sk, nm) =>
              if negb (has_key nm (characters L))
              then [(ToSocket sk, character_required "campaign_started")]
              else [])
           (users L).

(** [socket.on('campaign_load', ...)] *)
Definition campaign_load (env : Env) (c : Conn) (mem : gmap string Lobby)
  (key : string) : Conn * gmap string Lobby * list Emit :=
  with_lobby env c mem (fun ln L =>
    if negb (isGM c L)
    then (L, [(ToSocket (sid c), error_message msg_gm_only)])
    else
      match campaignRegistry env key with
      | None => (L, [(ToSocket (sid c), error_message "Campaign not found.")])
      | Some picked =>
          let L1 := set_campaign picked L in
          let L2 := set_settings (set_pending None (set_campaignStarted false (settings L1))) L1 in
          (L2, [(ToRoom ln, system ("GM loaded campaign: " +:+ camp_title picked));
                (ToRoom ln, campaign_state picked)] ++ emitState ln L2)
      end).

(** [socket.on('campaign_get', ...)] *)
Definition campaign_get (env : Env) (c : Conn) (mem : gmap string Lobby)
  : Conn * gmap string Lobby * list Emit :=
  with_lobby env c mem (fun ln L => (L, [(ToSocket (sid c), campaign_state (campaign L))])).

(** The shared body of [campaign_start] and of the [/start] command. *)
Definition start_campaign (c : Conn) (ln : string) (L : Lobby) (already : string)
  : Lobby * list Emit :=
  if negb (isGM c L)
  then (L, [(ToSocket (sid c), error_message msg_gm_only)])
  else if campaignStarted (settings L)
  then (L, [(ToSocket (sid c), error_message already)])
  else
    let L' := set_settings (set_campaignStarted true (settings L)) L in
    (L', [(ToRoom ln, system "GM started the campaign!");
          (ToRoom ln, campaign_started (currentSceneId (campaign L')))]
         ++ character_notices L' ++ emitState ln L').

(** [socket.on('campaign_start', ...)] *)
Definition campaign_start (env : Env) (c : Conn) (mem : gmap string Lobby)
  : Conn * gmap string Lobby * list Emit :=
  with_lobby env c mem (fun ln L => start_campaign c ln L "Campaign already started.").

(** [socket.on('campaign_update_meta', ...)]; [summary != null] holds for
    every string. *)
Definition campaign_update_meta (env : Env) (c : Conn) (mem : gmap string Lobby)
  (title summary : option string) : Conn * gmap string Lobby * list Emit :=
  with_lobby env c mem (fun ln L =>
    if negb (isGM c L)
    then (L, [(ToSocket (sid c), error_message msg_gm_only)])
    else
      let cp := campaign L in
      let t := if truthy (or_default title EmptyString)
               then safe (or_default title EmptyString) 120 else camp_title cp in
      let sm := match summary with Some x => safe x 2000 | None => camp_summary cp end in
      let cp' := mkCampaign t sm (scenes cp) (currentSceneId cp) (handouts cp) (quests cp) (notes cp) in
      (set_campaign cp' L, [(ToRoom ln, campaign_state cp')])).

(** [scenes.push(scene); if (!currentSceneId) currentSceneId = scene.id] *)
Definition push_scene (sc : Scene) (cp : Campaign) : Campaign :=
  let cp1 := set_scenes (scenes cp ++ [sc]) cp in
  if negb (truthy_opt (currentSceneId cp1))
  then set_currentSceneId (Some (scene_id sc)) cp1 else cp1.

(** [socket.on('campaign_scene_add', ...)] *)
Definition campaign_scene_add (env : Env) (c : Conn) (mem : gmap string Lobby)
  (title content : option string) : Conn * gmap string Lobby * list Emit :=
  with_lobby env c mem (fun ln L =>
    if negb (isGM c L)
    then (L, [(ToSocket (sid c), error_message msg_gm_only)])
    else
      let sc := mkScene (randId env "scn") (safe (or_default title "New Scene") 120)
                        (safe (or_default content EmptyString) 4000) [] in
      let cp' := push_scene sc (campaign L) in
      (set_campaign cp' L, [(ToRoom ln, campaign_state cp')])).

(** [socket.on('campaign_scene_set', ...)] *)
Definition campaign_scene_set (env : Env) (c : Conn) (mem : gmap string Lobby)
  (sceneId : string) : Conn * gmap string Lobby * list Emit :=
  with_lobby env c mem (fun ln L =>
    if negb (isGM c L)
    then (L, [(ToSocket (sid c), error_message msg_gm_only)])
    else
      match find_scene sceneId (campaign L) with
      | Some _ =>
          let cp' := set_currentSceneId (Some sceneId) (campaign L) in
          (set_campaign cp' L, [(ToRoom ln, system ("Scene changed to: " +:+ sceneId));
                                (ToRoom ln, campaign_state cp')])
      | None => (L, [])
      end).

(** [scene.choices.push(ch)] on the first scene with the given id. *)
Fixpoint push_choice (sceneId : string) (ch : Choice) (l : list Scene) : list Scene :=
  match l with
  | [] => []
  | s :: l' =>
      if String.eqb (scene_id s) sceneId
      then mkScene (scene_id s) (scene_title s) (scene_content s) (choices s ++ [ch]) :: l'
      else s :: push_choice sceneId ch l'
  end.

(** [socket.on('campaign_choice_add', ...)] *)
Definition campaign_choice_add (env : Env) (c : Conn) (mem : gmap string Lobby)
  (sceneId : string) (text to : option string) : Conn * gmap string Lobby * list Emit :=
  with_lobby env c mem (fun ln L =>
    if negb (isGM c L)
    then (L, [(ToSocket (sid c), error_message msg_gm_only)])
    else
      match find_scene sceneId (campaign L) with
      | None => (L, [])
      | Some _ =>
          let ch := mkChoice (randId env "ch") (safe (or_default text "Choice") 200)
                             (safe (or_default to EmptyString) 120) in
          let cp' := set_scenes (push_choice sceneId ch (scenes (campaign L))) (campaign L) in
          (set_campaign cp' L, [(ToRoom ln, campaign_state cp')])
      end).

(** [socket.on('campaign_handout_add', ...)] *)
Definition campaign_handout_add (env : Env) (c : Conn) (mem : gmap string Lobby)
  (title content : option string) : Conn * gmap string Lobby * list Emit :=
  with_lobby env c mem (fun ln L =>
    if negb (isGM c L)
    then (L, [(ToSocket (sid c), error_message msg_gm_only)])
    else
      let cp := campaign L in
      let hd := mkHandout (randId env "hd") (safe (or_default title "Handout") 120)
                          (safe (or_default content EmptyString) 4000) in
      let cp' := mkCampaign (camp_title cp) (camp_summary cp) (scenes cp) (currentSceneId cp)
                            (handouts cp ++ [hd]) (quests cp) (notes cp) in
      (set_campaign cp' L, [(ToRoom ln, campaign_state cp')])).

(** [socket.on('campaign_quest_add', ...)] *)
Definition campaign_quest_add (env : Env) (c : Conn) (mem : gmap string Lobby)
  (title : option string) : Conn * gmap string Lobby * list Emit :=
  with_lobby env c mem (fun ln L =>
    if negb (isGM c L)
    then (L, [(ToSocket (sid c), error_message msg_gm_only)])
    else
      let cp := campaign L in
      let q := mkQuest (randId env "q") (safe (or_default title "Quest") 200) false in
      let cp' := mkCampaign (camp_title cp) (camp_summary cp) (scenes cp) (currentSceneId cp)
                            (handouts cp) (quests cp ++ [q]) (notes cp) in
      (set_campaign cp' L, [(ToRoom ln, campaign_state cp')])).

(** [q.done = !q.done] on the first quest with the given id. *)
Fixpoint toggle_quest (id : string) (l : list Quest) : option (list Quest) :=
  match l with
  | [] => None
  | q :: l' =>
      if String.eqb (quest_id q) id
      then Some (mkQuest (quest_id q) (quest_title q) (negb (quest_done q)) :: l')
      else cons q <$> toggle_quest id l'
  end.

(** [socket.on('campaign_quest_toggle', ...)] *)
Definition campaign_quest_toggle (env : Env) (c : Conn) (mem : gmap string Lobby)
  (id : string) : Conn * gmap string Lobby * list Emit :=
  with_lobby env c mem (fun ln L =>
    if negb (isGM c L)
    then (L, [(ToSocket (sid c), error_message msg_gm_only)])
    else
      let cp := campaign L in
      match toggle_quest id (quests cp) with
      | None => (L, [])
      | Some qs =>
          let cp' := mkCampaign (camp_title cp) (camp_summary cp) (scenes cp) (currentSceneId cp)
                                (handouts cp) qs (notes cp) in
          (set_campaign cp' L, [(ToRoom ln, campaign_state cp')])
      end).

(** [socket.on('campaign_note_add', ...)] *)
Definition campaign_note_add (env : Env) (c : Conn) (mem : gmap string Lobby)
  (text : string) : Conn * gmap string Lobby * list Emit :=
  with_lobby env c mem (fun ln L =>
    let t := safe text 1000 in
    if negb (truthy t) then (L, [])
    else
      let cp := campaign L in
      let cp' := mkCampaign (camp_title cp) (camp_summary cp) (scenes cp) (currentSceneId cp)
                            (handouts cp) (quests cp)
                            (notes cp ++ [mkNote (username c) t (nowISO env)]) in
      (set_campaign cp' L, [(ToRoom ln, campaign_state cp')])).

(** [socket.on('campaign_choice_pick', ...)]: the handler of the server
    version without the consent flow ([src/server.js]); any member may follow
    a choice of the current scene. *)
Definition campaign_choice_pick (env : Env) (c : Conn) (mem : gmap string Lobby)
  (choiceId : string) : Conn * gmap string Lobby * list Emit :=
  with_lobby env c mem (fun ln L =>
    match current_scene (campaign L) with
    | None => (L, [])
    | Some scene =>
        match find_choice choiceId scene with
        | Some choice =>
            if truthy (choice_to choice) then
              match find_scene (choice_to choice) (campaign L) with
              | Some target =>
                  let cp' := set_currentSceneId (Some (scene_id target)) (campaign L) in
                  (set_campaign cp' L,
                   [(ToRoom ln, system (username c +:+ " chose: " +:+ choice_text choice));
                    (ToRoom ln, campaign_state cp')])
              | None => (L, [])
              end
            else (L, [])
        | None => (L, [])
        end
    end).

(** *** Consent flow *)

(** The names of the connected members other than the GM. *)
Definition nonGM (L : Lobby) : list string :=
  List.filter (fun n => negb (match gm L with Some g => String.eqb n g | None => false end))
         (user_names L).

(** [socket.on('campaign_choice_request', ...)] *)
Definition campaign_choice_request (env : Env) (c : Conn) (mem : gmap string Lobby)
  (choiceId : string) : Conn * gmap string Lobby * list Emit :=
  with_lobby env c mem (fun ln L =>
    if negb (isGM c L)
    then (L, [(ToSocket (sid c), error_message msg_gm_only)])
    else if negb (campaignStarted (settings L))
    then (L, [(ToSocket (sid c), error_message "Start campaign first.")])
    else
      match current_scene (campaign L) with
      | None => (L, [])
      | Some scene =>
          match find_choice choiceId scene with
          | None => (L, [(ToSocket (sid c), error_message "Choice not found.")])
          | Some choice =>
              let p := mkPending (choice_id choice) (choice_text choice) (choice_to choice)
                                 [] (dateNow env) in
              let L' := set_settings (set_pending (Some p) (settings L)) L in
              (L', (ToRoom ln, campaign_choice_requested (scene_id scene) (choice_id choice)
                                 (choice_text choice) (choice_to choice) (username c) (nonGM L'))
                     :: emitState ln L')
          end
      end).

(** The commit shared by [campaign_choice_ack] and [campaign_choice_force]:
    move the pointer when the target scene exists, clear the request. *)
Definition commit_choice (ln : string) (L : Lobby) (p : Pending) (note : string)
  : Lobby * list Emit :=
  let '(L1, out) :=
    match find_scene (pend_to p) (campaign L) with
    | Some target =>
        let cp' := set_currentSceneId (Some (scene_id target)) (campaign L) in
        (set_campaign cp' L, [(ToRoom ln, system (note +:+ pend_text p));
                              (ToRoom ln, campaign_state cp')])
    | None => (L, [])
    end in
  let L2 := set_settings (set_pending None (settings L1)) L1 in
  (L2, out ++ emitState ln L2).

(** [socket.on('campaign_choice_ack', ...)] *)
Definition campaign_choice_ack (env : Env) (c : Conn) (mem : gmap string Lobby)
  : Conn * gmap string Lobby * list Emit :=
  with_lobby env c mem (fun ln L =>
    match pending (settings L) with
    | None => (L, [])
    | Some p =>
        let p' := set_approvals (set_add (username c) (approvals p)) p in
        let L1 := set_settings (set_pending (Some p') (settings L)) L in
        let allApproved := forallb (fun n => has n (approvals p')) (nonGM L1) in
        if allApproved then commit_choice ln L1 p' "Choice accepted: "
        else (L1, [])
    end).

(** [socket.on('campaign_choice_force', ...)] *)
Definition campaign_choice_force (env : Env) (c : Conn) (mem : gmap string Lobby)
  : Conn * gmap string Lobby * list Emit :=
  with_lobby env c mem (fun ln L =>
    if negb (isGM c L)
    then (L, [(ToSocket (sid c), error_message msg_gm_only)])
    else
      match pending (settings L) with
      | None => (L, [])
      | Some p => commit_choice ln L p "GM forced proceed: "
      end).

(** *** Slash commands *)

(** The whisper syntax: an optional at-sign, a run of non-space characters
    (the target), white space, and a non-empty message. *)
Definition match_whisper (s : string) : option (string * string) :=
  let body :=
    match s with
    | String "@" (String a r) => if Ascii.is_space a then s else String a r
    | _ => s
    end in
  let '(target, r1) := span non_space body in
  match target with
  | EmptyString => None
  | _ => (fun m => (target, m)) <$> ws_then_rest true r1
  end.

(** The macro syntax: a run of word characters, optional white space, an
    equals sign, optional white space and a non-empty expression. *)
Definition match_macro_add (s : string) : option (string * string) :=
  let '(name, r1) := span is_word s in
  match name with
  | EmptyString => None
  | _ =>
      let '(_, r2) := span Ascii.is_space r1 in
      match r2 with
      | String "=" r3 => (fun e => (name, e)) <$> ws_then_rest false r3
      | _ => None
      end
  end.

(** The initiative syntax: a name without spaces, white space, and an
    integer with an optional minus sign, up to the end of the string. *)
Definition match_setinit (s : string) : option (string * Z) :=
  let '(name, r1) := span non_space s in
  let '(ws, r2) := span Ascii.is_space r1 in
  let '(neg, r3) := match r2 with String "-" r => (true, r) | _ => (false, r2) end in
  let '(d, r4) := span_digits r3 in
  if (truthy name && truthy ws && truthy d && negb (truthy r4))%bool
  then Some (name, if neg then - digits_value 0 d else digits_value 0 d)
  else None.

(** The syntax of the camp command: the word title or summary, white
    space, and a non-empty text. *)
Definition match_camp (s : string) : option (string * string) :=
  if String.prefix "title" s
  then (fun t => ("title", t)) <$> ws_then_rest true (substring 5 (String.length s - 5) s)
  else if String.prefix "summary" s
  then (fun t => ("summary", t)) <$> ws_then_rest true (substring 7 (String.length s - 7) s)
  else None.

(** The text before the first vertical bar and the text after it. *)
Fixpoint split_bar (s : string) : option (string * string) :=
  match s with
  | EmptyString => None
  | String a s' =>
      if Ascii.eqb a "|" then Some (EmptyString, s')
      else (fun '(t, c) => (String a t, c)) <$> split_bar s'
  end.

(** The syntax of scene add: the word add, white space, a non-empty title
    without a bar, a bar, and a non-empty content. *)
Definition match_scene_add (s : string) : option (string * string) :=
  if String.prefix "add" s then
    let '(ws, r) := span Ascii.is_space (substring 3 (String.length s - 3) s) in
    match ws, split_bar r with
    | String _ _, Some (t, String a c) =>
        match t with
        | String _ _ => Some (t, String a c)
        | EmptyString =>
            if (2 <=? String.length ws)%nat then Some (last_char ws, String a c) else None
        end
    | _, _ => None
    end
  else None.

(** The syntax of scene set: the word set, white space, and an id without
    spaces up to the end of the string. *)
Definition match_scene_set (s : string) : option string :=
  if String.prefix "set" s then
    let '(ws, r) := span Ascii.is_space (substring 3 (String.length s - 3) s) in
    let '(id, r') := span non_space r in
    if (truthy ws && truthy id && negb (truthy r'))%bool then Some id else None
  else None.

Definition backslash : string := String (ascii_of_nat 92) EmptyString.

Definition hex_digit (n : nat) : ascii :=
  ascii_of_nat (if (n <? 10)%nat then 48 + n else 87 + n).

(** [JSON.stringify] of a string, without the surrounding quotes. *)
Fixpoint json_escape (s : string) : string :=
  match s with
  | EmptyString => EmptyString
  | String a s' =>
      let n := nat_of_ascii a in
      (if (n =? 34)%nat then backslash +:+ String a EmptyString
       else if (n =? 92)%nat then backslash +:+ backslash
       else if (n =? 8)%nat then backslash +:+ "b"
       else if (n =? 9)%nat then backslash +:+ "t"
       else if (n =? 10)%nat then backslash +:+ "n"
       else if (n =? 12)%nat then backslash +:+ "f"
       else if (n =? 13)%nat then backslash +:+ "r"
       else if (n <? 32)%nat
            then backslash +:+ "u00" +:+ String (hex_digit (n / 16)) (String (hex_digit (n mod 16)) EmptyString)
       else String a EmptyString) +:+ json_escape s'
  end.

Definition quote : string := String (ascii_of_nat 34) EmptyString.

Fixpoint json_fields (m : list (string * string)) : string :=
  match m with
  | [] => EmptyString
  | [(k, v)] => quote +:+ json_escape k +:+ quote +:+ ":" +:+ quote +:+ json_escape v +:+ quote
  | (k, v) :: m' =>
      quote +:+ json_escape k +:+ quote +:+ ":" +:+ quote +:+ json_escape v +:+ quote
      +:+ "," +:+ json_fields m'
  end.

(** [JSON.stringify(Object.fromEntries(map.entries()))], for macro names
    that are not array indices (JavaScript lists those first). *)
Definition json_object (m : list (string * string)) : string :=
  "{" +:+ json_fields m +:+ "}".

(** [order[i].init = init] at the first entry called [name], if any. *)
Fixpoint update_init (name : string) (init : Z) (l : list Combatant)
  : option (list Combatant) :=
  match l with
  | [] => None
  | o :: l' =>
      if String.eqb (cb_name o) name then Some (mkCombatant (cb_name o) init :: l')
      else cons o <$> update_init name init l'
  end.

(** [(a,b) => b.init - a.init], as "a may stay before b". *)
Definition init_le (a b : Combatant) : bool := cb_init b - cb_init a <=? 0.

(** The body of [/setinit] once the arguments are parsed. *)
Definition setInitiative (name : string) (init : Z) (e : Encounter) : Encounter :=
  let o1 := match update_init name init (order e) with
            | Some o => o
            | None => order e ++ [mkCombatant name init]
            end in
  mkEncounter (active e) (sort_by init_le o1) (turnIndex e).

(** The body of [/next] past its guards. *)
Definition advanceTurn (e : Encounter) : Encounter :=
  mkEncounter (active e) (order e)
              (Z.rem (turnIndex e + 1) (Z.of_nat (length (order e)))).

(** [handleCommand(L, line)] for the connection [c] in lobby [ln]. *)
Definition handleCommand (env : Env) (c : Conn) (ln : string) (L : Lobby) (line : string)
  : Lobby * list Emit :=
  let '(cmd0, rest) := split_space (slice1 line) in
  let argStr := trim (default EmptyString rest) in
  let cmd := toLowerCase cmd0 in
  let gmf := isGM c L in
  let me := ToSocket (sid c) in
  let send (t : string) : Emit := (ToRoom ln, system t) in
  let gm_only : Lobby * list Emit := (L, [(me, error_message msg_gm_only)]) in
  if String.eqb cmd "help" then
    (L, [(me, system
      ("Commands: /help, /me <action>, /w @name <msg>, /roll <expr>, " +:+
       "/macro add name=expr | del name | list, " +:+
       "/setpass <pass> (GM on first set), /kick <name> (GM), /ban <name> (GM), /unban <name> (GM), " +:+
       "/startencounter (GM), /setinit <name> <n> (GM), /next (GM), /endencounter (GM), " +:+
       "Campaign: /camp title <t> (GM), /camp summary <text> (GM), " +:+
       "/scene add <title>|<content> (GM), /scene set <sceneId> (GM), " +:+
       "/start (GM start campaign), /consent force (GM)"))])
  else if String.eqb cmd "start" then start_campaign c ln L "Already started."
  else if String.eqb cmd "me" then
    let text := or_str argStr "does something dramatic" in
    (L, [(ToRoom ln, chat_msg (mkChat (username c) ("*" +:+ text +:+ "*") (nowISO env)))])
  else if String.eqb cmd "w" then
    match match_whisper argStr with
    | None => (L, [(me, error_message "Usage: /w @name message")])
    | Some (target, message) =>
        match find_user target (users L) with
        | None => (L, [(me, error_message "User not found")])
        | Some (targetId, _) =>
            (L, [(ToSocket targetId,
                  chat_msg (mkChat ("(whisper) " +:+ username c) message (nowISO env)));
                 (me, chat_msg (mkChat ("(to @" +:+ target +:+ ")") message (nowISO env)))])
        end
    end
  else if String.eqb cmd "roll" then
    if (isLockedForPlayers L && negb gmf)%bool
    then (L, [(me, error_message msg_locked)])
    else
      match Dice.rollAdvanced (rnd env) (or_str argStr "d20") with
      | Ok res =>
          let payload := mkRollMsg (username c) res (nowISO env) ln in
          (set_rolls (rolls L ++ [payload]) L, [(ToRoom ln, roll_msg payload)])
      | Throw msg => (L, [(me, error_message (or_str msg "Bad dice"))])
      end
  else if String.eqb cmd "macro" then
    let '(sub, rest2) := split_space argStr in
    let restJoin := trim (default EmptyString rest2) in
    let mp := default [] (oget (username c) (macros L)) in
    if String.eqb sub "add" then
      match match_macro_add restJoin with
      | None => (L, [(me, error_message "Use: /macro add name=expr")])
      | Some (k, e) =>
          (set_macros (oset (username c) (oset k e mp) (macros L)) L,
           [(me, system ("Macro added: " +:+ k +:+ " = " +:+ e))])
      end
    else if String.eqb sub "del" then
      let first := (fun r => fst (split_space r)) <$> rest2 in
      let mp' := match first with Some k => odelete k mp | None => mp end in
      (set_macros (oset (username c) mp' (macros L)) L,
       [(me, system ("Macro deleted: " +:+ default "undefined" first))])
    else if String.eqb sub "list" then
      (L, [(me, system ("Your macros: " +:+ json_object mp))])
    else (L, [(me, error_message "Subcommands: add, del, list")])
  else if String.eqb cmd "setpass" then
    if (truthy_opt (passwordHash L) && negb gmf)%bool
    then (L, [(me, error_message "Only GM can change password.")])
    else if negb (truthy argStr)
    then (L, [(me, error_message "Usage: /setpass <password>")])
    else
      let L1 := set_passwordHash (Some (hashPass env argStr)) L in
      let L2 := if negb (truthy_opt (gm L1)) then set_gm (Some (username c)) L1 else L1 in
      (L2, send "Lobby password set/updated." :: emitState ln L2)
  else if String.eqb cmd "kick" then
    if negb gmf then gm_only
    else
      let target := safe argStr 24 in
      match find_user target (users L) with
      | None => (L, [(me, error_message "User not found")])
      | Some (targetId, _) =>
          let L' := set_users (odelete targetId (users L)) L in
          (L', [(ToSocket targetId, error_message "You were kicked by the GM.");
                send (target +:+ " was kicked by the GM.")] ++ emitState ln L')
      end
  else if String.eqb cmd "ban" then
    if negb gmf then gm_only
    else
      let L' := set_bans (set_add (toLowerCase (safe argStr 24)) (bans L)) L in
      (L', send (argStr +:+ " is banned.") :: emitState ln L')
  else if String.eqb cmd "unban" then
    if negb gmf then gm_only
    else
      let L' := set_bans (set_delete (toLowerCase (safe argStr 24)) (bans L)) L in
      (L', send (argStr +:+ " is unbanned.") :: emitState ln L')
  else if String.eqb cmd "startencounter" then
    if negb gmf then gm_only
    else
      let L' := set_encounter (mkEncounter true [] 0) L in
      (L', send "Encounter started. Use /setinit <name> <n>." :: emitState ln L')
  else if String.eqb cmd "setinit" then
    if negb gmf then gm_only
    else
      match match_setinit argStr with
      | None => (L, [(me, error_message "Usage: /setinit <name> <number>")])
      | Some (name, init) =>
          let L' := set_encounter (setInitiative name init (encounter L)) L in
          (L', send ("Initiative set: " +:+ name +:+ " → " +:+ pretty init) :: emitState ln L')
      end
  else if String.eqb cmd "next" then
    if negb gmf then gm_only
    else if (negb (active (encounter L)) || (length (order (encounter L)) =? 0)%nat)%bool
    then (L, [(me, error_message "No active encounter.")])
    else
      let e' := advanceTurn (encounter L) in
      let L' := set_encounter e' L in
      (L', send ("Turn: " +:+ default EmptyString
                               (cb_name <$> (order e' !! Z.to_nat (turnIndex e'))))
             :: emitState ln L')
  else if String.eqb cmd "endencounter" then
    if negb gmf then gm_only
    else
      let L' := set_encounter (mkEncounter false [] 0) L in
      (L', send "Encounter ended." :: emitState ln L')
  else if String.eqb cmd "camp" then
    match match_camp argStr with
    | None => (L, [(me, error_message "Usage: /camp title <text> | /camp summary <text>")])
    | Some (field, text) =>
        if negb gmf then gm_only
        else
          let cp := campaign L in
          let cp' :=
            if String.eqb field "title"
            then mkCampaign (safe text 120) (camp_summary cp) (scenes cp) (currentSceneId cp)
                            (handouts cp) (quests cp) (notes cp)
            else mkCampaign (camp_title cp) (safe text 2000) (scenes cp) (currentSceneId cp)
                            (handouts cp) (quests cp) (notes cp) in
          let L' := set_campaign cp' L in
          (L', send ("Campaign " +:+ field +:+ " updated.") :: emitState ln L')
    end
  else if String.eqb cmd "scene" then
    if negb gmf then gm_only
    else
      match match_scene_add argStr, match_scene_set argStr with
      | Some (t, ct), _ =>
          let sc := mkScene (randId env "scn") (safe t 120) (safe ct 4000) [] in
          let L' := set_campaign (push_scene sc (campaign L)) L in
          (L', send ("Scene added: " +:+ scene_title sc +:+ " (" +:+ scene_id sc +:+ ")")
                 :: emitState ln L')
      | None, Some id =>
          match find_scene id (campaign L) with
          | Some _ =>
              let L' := set_campaign (set_currentSceneId (Some id) (campaign L)) L in
              (L', send ("Scene set: " +:+ id) :: emitState ln L')
          | None => (L, [(me, error_message "Scene not found.")])
          end
      | None, None =>
          (L, [(me, error_message "Use: /scene add <title>|<content> OR /scene set <sceneId>")])
      end
  else if String.eqb cmd "consent" then
    if negb gmf then gm_only
    else if String.eqb (trim argStr) "force" then (L, [(me, consent_force)])
    else (L, [(me, error_message "Use: /consent force")])
  else (L, [(me, error_message "Unknown command. Try /help")]).

(** [socket.on('chat', ...)] *)
Definition chat (env : Env) (c : Conn) (mem : gmap string Lobby) (text : string)
  : Conn * gmap string Lobby * list Emit :=
  with_lobby env c mem (fun ln L =>
    let msg := safe text 500 in
    if negb (truthy msg) then (L, [])
    else if startsWith "/" msg then handleCommand env c ln L msg
    else if (isLockedForPlayers L && negb (isGM c L))%bool
    then (L, [(ToSocket (sid c), error_message msg_locked)])
    else
      let payload := mkChat (username c) msg (nowISO env) in
      (set_messages (messages L ++ [payload]) L, [(ToRoom ln, chat_msg payload)])).

(** *** Character sheets *)

(** The payload of [character_upsert]. *)
Record SheetIn := mkSheetIn {
  in_name : option string;
  in_archetype : string;
  in_race : string;
  in_speed : Val;
  in_profs : string;
  in_traits : string;
  in_class : string;
  in_level : Val;
  in_ac : Val;
  in_hp : Val;
  in_maxHp : Val;
  in_notes : string;
  in_abilities : list Val
}.

(** [socket.on('character_upsert', ...)]; the six abilities are listed in
    the order STR, DEX, CON, INT, WIS, CHA. *)
Definition character_upsert (env : Env) (c : Conn) (mem : gmap string Lobby)
  (sheet : SheetIn) : Conn * gmap string Lobby * list Emit :=
  with_lobby env c mem (fun ln L =>
    let target := safe (or_default (in_name sheet) (username c)) 24 in
    if (negb (isGM c L) && negb (String.eqb target (username c)))%bool
    then (L, [(ToSocket (sid c), error_message "You can only edit your own sheet.")])
    else
      let ab (i : nat) := clamp (parseInt_or (default VUndefined (in_abilities sheet !! i)) 8) 1 30 in
      let sanitized :=
        mkSheet target (safe (in_archetype sheet) 20) (safe (in_race sheet) 20)
          (clamp (parseInt_or (in_speed sheet) 30) 0 120)
          (safe (in_profs sheet) 200) (safe (in_traits sheet) 800) (safe (in_class sheet) 24)
          (clamp (parseInt_or (in_level sheet) 1) 1 20)
          (clamp (parseInt_or (in_ac sheet) 10) 1 30)
          (clamp (parseInt_or (in_hp sheet) 10) 0 1000)
          (clamp (parseInt_or (in_maxHp sheet) 10) 1 1000)
          (safe (in_notes sheet) 2000)
          (map ab (seq 0 6)) (nowISO env) in
      let L' := set_characters (oset target sanitized (characters L)) L in
      (L', [(ToRoom ln, system (username c +:+ " updated " +:+ target +:+ "'s sheet"));
            (ToRoom ln, characters_msg (characters L'))] ++ emitState ln L')).

(** [socket.on('character_delete', ...)] *)
Definition character_delete (env : Env) (c : Conn) (mem : gmap string Lobby)
  (name : option string) : Conn * gmap string Lobby * list Emit :=
  with_lobby env c mem (fun ln L =>
    let target := safe (or_default name (username c)) 24 in
    if (negb (isGM c L) && negb (String.eqb target (username c)))%bool
    then (L, [(ToSocket (sid c), error_message "You can only remove your own sheet.")])
    else
      let L' := set_characters (odelete target (characters L)) L in
      (L', [(ToRoom ln, system (username c +:+ " removed " +:+ target +:+ "'s sheet"));
            (ToRoom ln, characters_msg (characters L'))] ++ emitState ln L')).

(** [socket.on('map_request', ...)] *)
Definition map_request (env : Env) (c : Conn) (mem : gmap string Lobby)
  : Conn * gmap string Lobby * list Emit :=
  with_lobby env c mem (fun ln L => (L, emitMap ln L)).

(** *** Events *)

(** An inbound message with its payload. *)
Inductive Event : Type :=
| EvIdentify (name : option string)
| EvJoin (lobbyName password : option string)
| EvChat (text : string)
| EvRoll (expression : option string)
| EvCharacterUpsert (sheet : SheetIn)
| EvCharacterDelete (name : option string)
| EvMapRequest
| EvMapInit (w h : Val)
| EvMapSet (x y : Val) (val : bool)
| EvTokenAdd (id name color : option string)
| EvTokenMove (id : string) (x y : Val)
| EvTokenRemove (id : string)
| EvMapClear
| EvPing (x y : Val)
| EvCampaignLoad (key : string)
| EvCampaignGet
| EvCampaignStart
| EvCampaignUpdateMeta (title summary : option string)
| EvSceneAdd (title content : option string)
| EvSceneSet (sceneId : string)
| EvChoiceAdd (sceneId : string) (text to : option string)
| EvHandoutAdd (title content : option string)
| EvQuestAdd (title : option string)
| EvQuestToggle (id : string)
| EvNoteAdd (text : string)
| EvChoicePick (choiceId : string)
| EvChoiceRequest (choiceId : string)
| EvChoiceAck
| EvChoiceForce
| EvDisconnect.

(** The dispatch of one inbound message to its handler. *)
Definition handle (env : Env) (c : Conn) (mem : gmap string Lobby) (ev : Event)
  : Conn * gmap string Lobby * list Emit :=
  match ev with
  | EvIdentify name => let '(c', out) := identify c name in (c', mem, out)
  | EvJoin lobbyName password => join_lobby env c mem lobbyName password
  | EvChat text => chat env c mem text
  | EvRoll expression => roll env c mem expression
  | EvCharacterUpsert sheet => character_upsert env c mem sheet
  | EvCharacterDelete name => character_delete env c mem name
  | EvMapRequest => map_request env c mem
  | EvMapInit w h => map_init env c mem w h
  | EvMapSet x y val => map_set env c mem x y val
  | EvTokenAdd id name color => token_add env c mem id name color
  | EvTokenMove id x y => token_move env c mem id x y
  | EvTokenRemove id => token_remove env c mem id
  | EvMapClear => map_clear env c mem
  | EvPing x y => ping env c mem x y
  | EvCampaignLoad key => campaign_load env c mem key
  | EvCampaignGet => campaign_get env c mem
  | EvCampaignStart => campaign_start env c mem
  | EvCampaignUpdateMeta title summary => campaign_update_meta env c mem title summary
  | EvSceneAdd title content => campaign_scene_add env c mem title content
  | EvSceneSet sceneId => campaign_scene_set env c mem sceneId
  | EvChoiceAdd sceneId text to => campaign_choice_add env c mem sceneId text to
  | EvHandoutAdd title content => campaign_handout_add env c mem title content
  | EvQuestAdd title => campaign_quest_add env c mem title
  | EvQuestToggle id => campaign_quest_toggle env c mem id
  | EvNoteAdd text => campaign_note_add env c mem text
  | EvChoicePick choiceId => campaign_choice_pick env c mem choiceId
  | EvChoiceRequest choiceId => campaign_choice_request env c mem choiceId
  | EvChoiceAck => campaign_choice_ack env c mem
  | EvChoiceForce => campaign_choice_force env c mem
  | EvDisconnect => disconnect env c mem
  end.

End Server.



Export Server.

(** ** Observations used by the statements *)

Module Obs.

(** The scene pointer after a commit of the request [p]. *)
Definition committed_pointer (L : Lobby) (p : Pending) : option string :=
  match find_scene (pend_to p) (campaign L) with
  | Some _ => Some (pend_to p)
  | None => currentSceneId (campaign L)
  end.



(** The lobby with the approval set of its pending request replaced. *)
Definition with_approvals (A : list string) (L : Lobby) : Lobby :=
  match pending (settings L) with
  | Some p => set_settings (set_pending (Some (set_approvals A p)) (settings L)) L
  | None => L
  end.



(** A sequence of inbound messages, each with the environment of its call
    and the connection that sends it; the connection's closure variables
    are threaded through by socket id. *)
Fixpoint run (conns : list Conn) (evs : list (Env * string * Event))
    (mem : gmap string Lobby) : list Conn * gmap string Lobby * list Emit :=
  match evs with
  | [] => (conns, mem, [])
  | (env, id, ev) :: evs' =>
      match find (fun c => String.eqb (sid c) id) conns with
      | None => run conns evs' mem
      | Some c =>
          let '(c', mem1, out1) := handle env c mem ev in
          let conns' := map (fun d => if String.eqb (sid d) id then c' else d) conns in
          let '(conns2, mem2, out2) := run conns' evs' mem1 in
          (conns2, mem2, out1 ++ out2)
      end
  end.

(** The registries that some sequence of handler calls can produce. *)
Inductive reachable : gmap string Lobby -> Prop :=
| reach_init : reachable ∅
| reach_step (env : Env) (c : Conn) (mem : gmap string Lobby) (ev : Event) :
    reachable mem -> reachable (snd (fst (handle env c mem ev))).

(** A fixed environment and three fresh connections for the examples. *)
Definition env0 : Env :=
  mkEnv "2025-01-01T00:00:00.000Z" 0 (fun _ => (1 # 2)%Q) (fun p => p +:+ "_abc1234")
        "t_0_abcde" (fun p => "salt:" +:+ p) (fun p st => String.eqb ("salt:" +:+ p) st)
        (fun _ => None).

Definition conn0 (id : string) : Conn := mkConn id "Anon" None.

(** The example scenario: Gia opens the lobby "tavern" and is its GM, Rin
    and Wes join as players; the campaign is locked until Gia starts it. *)
Definition gia : Conn := mkConn "G" "Gia" (Some "tavern").
Definition rin : Conn := mkConn "R" "Rin" (Some "tavern").
Definition wes : Conn := mkConn "W" "Wes" (Some "tavern").

Definition joins : list (Env * string * Event) :=
  [ (env0, "G", EvIdentify (Some "Gia")); (env0, "G", EvJoin (Some "tavern") None);
    (env0, "R", EvIdentify (Some "Rin")); (env0, "R", EvJoin (Some "tavern") None);
    (env0, "W", EvIdentify (Some "Wes")); (env0, "W", EvJoin (Some "tavern") None) ].

Definition mem_locked : gmap string Lobby :=
  snd (fst (run [conn0 "G"; conn0 "R"; conn0 "W"] joins ∅)).

Definition mem_started : gmap string Lobby :=
  snd (fst (run [conn0 "G"; conn0 "R"; conn0 "W"] (joins ++ [(env0, "G", EvChat "/start")]) ∅)).

Definition lobby_locked : Lobby :=
  Eval vm_compute in default (newLobby env0) (mem_locked !! "tavern").

Definition lobby_started : Lobby :=
  Eval vm_compute in default (newLobby env0) (mem_started !! "tavern").

(** The scenario with a request pending, and the same after both players
    have disconnected. *)
Definition mem_pending : gmap string Lobby :=
  snd (fst (campaign_choice_request env0 gia mem_started "c_intro_tavern")).

Definition lobby_pending : Lobby :=
  Eval vm_compute in default (newLobby env0) (mem_pending !! "tavern").










(** How one handler call by the connection [c] may change the GM, the
    members and the encounter of a lobby. *)
Definition gm_step (c : Conn) (L0 L' : Lobby) : Prop :=
  gm L' = gm L0 \/ (truthy_opt (gm L0) = false /\ gm L' = Some (username c)).

Definition users_step (c : Conn) (L0 L' : Lobby) : Prop :=
  users L' = users L0
  \/ (exists k, users L' = odelete k (users L0))
  \/ (exists L2, users L2 = users L0
        /\ users L' = oset (sid c) (uniqueName L2 (username c)) (users L0)).

Definition enc_step (L0 L' : Lobby) : Prop :=
  encounter L' = encounter L0
  \/ (exists b, encounter L' = mkEncounter b [] 0)
  \/ (exists name init, encounter L' = setInitiative name init (encounter L0))
  \/ (active (encounter L0) = true /\ order (encounter L0) <> []
      /\ encounter L' = advanceTurn (encounter L0)).

Definition frame (c : Conn) (L0 L' : Lobby) : Prop :=
  gm_step c L0 L' /\ users_step c L0 L' /\ enc_step L0 L'.

(** The invariant of the encounter tracker: the order is sorted by
    descending initiative, no name occurs twice, and the turn index is 0 or
    an index into the order. *)
Definition enc_inv (e : Encounter) : Prop :=
  Sorted (fun a b => cb_init a >= cb_init b) (order e)
  /\ NoDup (map cb_name (order e))
  /\ 0 <= turnIndex e < Z.max 1 (Z.of_nat (length (order e))).

(** The scenario with an encounter: the GM starts it, sets three
    initiatives, one of them twice, and advances the turn. *)
Definition fight : list (Env * string * Event) :=
  joins ++ [ (env0, "G", EvChat "/startencounter");
             (env0, "G", EvChat "/setinit Rin 12");
             (env0, "G", EvChat "/setinit Wes 15");
             (env0, "G", EvChat "/setinit Gia 9");
             (env0, "G", EvChat "/setinit Rin 18");
             (env0, "G", EvChat "/next") ].

Definition mem_fight : gmap string Lobby :=
  snd (fst (run [conn0 "G"; conn0 "R"; conn0 "W"] fight ∅)).

Definition lobby_fight : Lobby :=
  Eval vm_compute in default (newLobby env0) (mem_fight !! "tavern").

(** The scenario of an empty display name: a connection identifies with a
    blank name and opens the lobby, then Bob joins. *)
Definition blank_join : list (Env * string * Event) :=
  [ (env0, "A", EvIdentify (Some " ")); (env0, "A", EvJoin (Some "tavern") None) ].

Definition bob_join : list (Env * string * Event) :=
  [ (env0, "B", EvIdentify (Some "Bob")); (env0, "B", EvJoin (Some "tavern") None) ].

Definition mem_blank : gmap string Lobby :=
  snd (fst (run [conn0 "A"; conn0 "B"] blank_join ∅)).

Definition mem_blank_bob : gmap string Lobby :=
  snd (fst (run [conn0 "A"; conn0 "B"] (blank_join ++ bob_join) ∅)).

(** A string without upper-case letters. *)
Fixpoint all_lower (s : string) : Prop :=
  match s with
  | EmptyString => True
  | String a s' => lower a = a /\ all_lower s'
  end.

End Obs.

Export Obs.

(** ** Effects of a handler call *)

Module Effects.

(** The caller passes the start lock: the lobby is not locked, or the
    caller is the GM. *)
Definition may_play (c : Conn) (L : Lobby) : Prop :=
  (isLockedForPlayers L && negb (isGM c L))%bool = false.

(** The caller is the GM or acts on the entry called as they are. *)
Definition gm_or_self (c : Conn) (L : Lobby) (target : string) : Prop :=
  (negb (isGM c L) && negb (String.eqb target (username c)))%bool = false.

(** The bounds that [character_upsert] enforces on a stored sheet. *)
Definition sheet_ok (sh : Sheet) : Prop :=
  0 <= sheet_speed sh <= 120 /\ 1 <= sheet_level sh <= 20 /\ 1 <= sheet_ac sh <= 30
  /\ 0 <= sheet_hp sh <= 1000 /\ 1 <= sheet_maxHp sh <= 1000
  /\ length (sheet_abilities sh) = 6%nat
  /\ Forall (fun a => 1 <= a <= 30) (sheet_abilities sh)
  /\ (String.length (sheet_name sh) <= 24)%nat
  /\ (String.length (sheet_archetype sh) <= 20)%nat
  /\ (String.length (sheet_race sh) <= 20)%nat
  /\ (String.length (sheet_profs sh) <= 200)%nat
  /\ (String.length (sheet_traits sh) <= 800)%nat
  /\ (String.length (sheet_class sh) <= 24)%nat
  /\ (String.length (sheet_notes sh) <= 2000)%nat.

(** The edits of the campaign document made by the GM-only handlers. *)
Inductive camp_edit (cp : Campaign) : Campaign -> Prop :=
| ce_meta (t sm : string) :
    camp_edit cp (mkCampaign t sm (scenes cp) (currentSceneId cp)
                             (handouts cp) (quests cp) (notes cp))
| ce_scene (sc : Scene) :
    choices sc = [] -> camp_edit cp (push_scene sc cp)
| ce_pointer (id : string) (sc : Scene) :
    find_scene id cp = Some sc -> camp_edit cp (set_currentSceneId (Some id) cp)
| ce_choice (sceneId : string) (ch : Choice) :
    camp_edit cp (set_scenes (push_choice sceneId ch (scenes cp)) cp)
| ce_handout (hd : Handout) :
    camp_edit cp (mkCampaign (camp_title cp) (camp_summary cp) (scenes cp) (currentSceneId cp)
                             (handouts cp ++ [hd]) (quests cp) (notes cp))
| ce_quest (q : Quest) :
    quest_done q = false ->
    camp_edit cp (mkCampaign (camp_title cp) (camp_summary cp) (scenes cp) (currentSceneId cp)
                             (handouts cp) (quests cp ++ [q]) (notes cp))
| ce_toggle (id : string) (qs : list Quest) :
    toggle_quest id (quests cp) = Some qs ->
    camp_edit cp (mkCampaign (camp_title cp) (camp_summary cp) (scenes cp) (currentSceneId cp)
                             (handouts cp) qs (notes cp)).

(** The changes of the map made by the map and token handlers. *)
Inductive map_edit (c : Conn) (L : Lobby) (m : MapState) : MapState -> Prop :=
| me_init (w h : Z) :
    isGM c L = true -> 5 <= w <= 60 -> 5 <= h <= 60 ->
    map_edit c L m (mkMap w h (open_grid w h) [])
| me_set (px py v : Z) (row : list Z) :
    isGM c L = true -> v = 0 \/ v = 1 ->
    tiles m !! Z.to_nat (clamp py 0 (map_h m - 1)) = Some row ->
    map_edit c L m
      (mkMap (map_w m) (map_h m)
         (<[Z.to_nat (clamp py 0 (map_h m - 1)) :=
              array_set (Z.to_nat (clamp px 0 (map_w m - 1))) v row]> (tiles m))
         (tokens m))
| me_clear :
    isGM c L = true ->
    map_edit c L m (mkMap (map_w m) (map_h m) (open_grid (map_w m) (map_h m)) (tokens m))
| me_token_add (tid nm col : string) :
    may_play c L -> (String.length tid <= 40)%nat ->
    map_edit c L m
      (mkMap (map_w m) (map_h m) (tiles m)
         (oset tid (mkToken tid nm (fst (first_free m)) (snd (first_free m)) col (username c))
               (tokens m)))
| me_token_move (id : string) (tok : Token) (px py : Z) :
    may_play c L -> oget id (tokens m) = Some tok ->
    (negb (isGM c L) && negb (String.eqb (tok_owner tok) (username c)))%bool = false ->
    (tile_at (tiles m) (clamp px 0 (map_w m - 1)) (clamp py 0 (map_h m - 1)) =? 1) = false ->
    map_edit c L m
      (mkMap (map_w m) (map_h m) (tiles m)
         (oset id (mkToken (tok_id tok) (tok_name tok)
                           (clamp px 0 (map_w m - 1)) (clamp py 0 (map_h m - 1))
                           (tok_color tok) (tok_owner tok))
               (tokens m)))
| me_token_remove (id : string) (tok : Token) :
    may_play c L -> oget id (tokens m) = Some tok ->
    (negb (isGM c L) && negb (String.eqb (tok_owner tok) (username c)))%bool = false ->
    map_edit c L m (mkMap (map_w m) (map_h m) (tiles m) (odelete id (tokens m))).

(** What one handler call in the environment [env] does to the caller's
    lobby. *)
Inductive change (env : Env) (c : Conn) (L : Lobby) : Lobby -> Prop :=
| ch_none : change env c L L
| ch_join (password : option string) (L2 : Lobby) :
    joinOk L (username c) = true ->
    join_gate env c L password = Some L2 ->
    change env c L (set_users (oset (sid c) (uniqueName L2 (username c)) (users L2)) L2)
| ch_leave : change env c L (set_users (odelete (sid c) (users L)) L)
| ch_chat (m : ChatMsg) :
    may_play c L -> chat_user m = username c -> truthy (chat_text m) = true ->
    (String.length (chat_text m) <= 500)%nat ->
    change env c L (set_messages (messages L ++ [m]) L)
| ch_roll (r : RollMsg) :
    may_play c L -> roll_user r = username c ->
    change env c L (set_rolls (rolls L ++ [r]) L)
| ch_sheet (sh : Sheet) :
    gm_or_self c L (sheet_name sh) -> sheet_ok sh ->
    change env c L (set_characters (oset (sheet_name sh) sh (characters L)) L)
| ch_sheet_delete (target : string) :
    gm_or_self c L target ->
    change env c L (set_characters (odelete target (characters L)) L)
| ch_map (m' : MapState) :
    map_edit c L (lmap L) m' -> change env c L (set_lmap m' L)
| ch_campaign (cp' : Campaign) :
    isGM c L = true -> camp_edit (campaign L) cp' -> change env c L (set_campaign cp' L)
| ch_note (n : Note) :
    note_by n = username c -> truthy (note_text n) = true ->
    change env c L
      (set_campaign (mkCampaign (camp_title (campaign L)) (camp_summary (campaign L))
                                (scenes (campaign L)) (currentSceneId (campaign L))
                                (handouts (campaign L)) (quests (campaign L))
                                (notes (campaign L) ++ [n])) L)
| ch_pick (choiceId : string) (scene : Scene) (choice : Choice) (target : Scene) :
    current_scene (campaign L) = Some scene ->
    find_choice choiceId scene = Some choice ->
    find_scene (choice_to choice) (campaign L) = Some target ->
    change env c L (set_campaign (set_currentSceneId (Some (scene_id target)) (campaign L)) L)
| ch_load (key : string) (picked : Campaign) :
    isGM c L = true -> campaignRegistry env key = Some picked ->
    change env c L (set_settings (set_pending None (set_campaignStarted false (settings L)))
                             (set_campaign picked L))
| ch_start :
    isGM c L = true -> campaignStarted (settings L) = false ->
    change env c L (set_settings (set_campaignStarted true (settings L)) L)
| ch_request (choiceId : string) (scene : Scene) (choice : Choice) (ts : Z) :
    isGM c L = true -> campaignStarted (settings L) = true ->
    current_scene (campaign L) = Some scene ->
    find_choice choiceId scene = Some choice ->
    change env c L (set_settings
                  (set_pending (Some (mkPending (choice_id choice) (choice_text choice)
                                                (choice_to choice) [] ts)) (settings L)) L)
| ch_ack (p : Pending) :
    pending (settings L) = Some p ->
    change env c L (set_settings
                  (set_pending (Some (set_approvals (set_add (username c) (approvals p)) p))
                               (settings L)) L)
| ch_ack_commit (ln : string) (p : Pending) (note : string) :
    pending (settings L) = Some p ->
    let p' := set_approvals (set_add (username c) (approvals p)) p in
    let L1 := set_settings (set_pending (Some p') (settings L)) L in
    forallb (fun n => has n (approvals p')) (nonGM L1) = true ->
    change env c L (fst (commit_choice ln L1 p' note))
| ch_force (ln : string) (p : Pending) (note : string) :
    isGM c L = true -> pending (settings L) = Some p ->
    change env c L (fst (commit_choice ln L p note))
| ch_macros (mp : list (string * string)) :
    change env c L (set_macros (oset (username c) mp (macros L)) L)
| ch_setpass (h : string) :
    (truthy_opt (passwordHash L) && negb (isGM c L))%bool = false ->
    truthy_opt (gm L) = true ->
    change env c L (set_passwordHash (Some h) L)
| ch_setpass_gm (h : string) :
    (truthy_opt (passwordHash L) && negb (isGM c L))%bool = false ->
    truthy_opt (gm L) = false ->
    change env c L (set_gm (Some (username c)) (set_passwordHash (Some h) L))
| ch_kick (target targetId nm : string) :
    isGM c L = true -> find_user target (users L) = Some (targetId, nm) ->
    change env c L (set_users (odelete targetId (users L)) L)
| ch_ban (x : string) :
    isGM c L = true -> change env c L (set_bans (set_add x (bans L)) L)
| ch_unban (x : string) :
    isGM c L = true -> change env c L (set_bans (set_delete x (bans L)) L)
| ch_encounter (e : Encounter) :
    isGM c L = true -> change env c L (set_encounter e L).

End Effects.

Export Effects.

(** ** Outbound messages *)

Module Outputs.

Definition to_socket (d : Dest) : Prop := exists s, d = ToSocket s.

(** What an outbound message of a call must look like when the caller's
    lobby is [ln] and its state after the call is [L]: errors and the other
    personal messages go to one socket, snapshots go to the room of the
    lobby and carry the state after the call. *)
Definition emit_ok (ln : string) (L : Lobby) (e : Emit) : Prop :=
  match snd e with
  | error_message _ | identified _ | character_required _ | consent_force =>
      to_socket (fst e)
  | joined l ms rs g st =>
      to_socket (fst e) /\ l = ln /\ ms = lastn 40 (messages L) /\ rs = lastn 40 (rolls L)
      /\ g = gm L /\ st = settings L
  | state v => fst e = ToRoom ln /\ v = state_view L
  | map_state m => fst e = ToRoom ln /\ m = lmap L
  | characters_msg cs => fst e = ToRoom ln /\ cs = characters L
  | campaign_state cp => cp = campaign L
  | campaign_started id => fst e = ToRoom ln /\ id = currentSceneId (campaign L)
  | campaign_choice_requested _ _ _ _ _ players => fst e = ToRoom ln /\ players = nonGM L
  | roll_msg r => fst e = ToRoom ln /\ last (rolls L) = Some r
  | map_ping _ _ _ _ => fst e = ToRoom ln
  | system _ | chat_msg _ => True
  end.

End Outputs.

Export Outputs.

(** ** Shapes kept by the handlers *)

Module Shape.

(** The shape of a lobby map: dimensions within the bounds of [map_init],
    a grid of [h] rows of [w] cells that are 0 or 1, and every token stored
    under its own id on a cell of the grid. *)
Definition map_ok (m : MapState) : Prop :=
  5 <= map_w m <= 60 /\ 5 <= map_h m <= 60
  /\ length (tiles m) = Z.to_nat (map_h m)
  /\ Forall (fun row => length row = Z.to_nat (map_w m)
                        /\ Forall (fun v => v = 0 \/ v = 1) row) (tiles m)
  /\ Forall (fun kt => tok_id (snd kt) = fst kt
                       /\ 0 <= tok_x (snd kt) < map_w m
                       /\ 0 <= tok_y (snd kt) < map_h m) (tokens m)
  /\ NoDup (map fst (tokens m)).

(** Every stored sheet is stored under its own name and within the bounds. *)
Definition sheets_ok (L : Lobby) : Prop :=
  Forall (fun kv => sheet_name (snd kv) = fst kv /\ sheet_ok (snd kv)) (characters L)
  /\ NoDup (map fst (characters L)).

(** The current scene, when set, is a scene of the campaign. *)
Definition ptr_ok (cp : Campaign) : Prop :=
  forall id, currentSceneId cp = Some id -> is_Some (find_scene id cp).

End Shape.

Export Shape.

(** ** The lobby a message addresses *)

Module Addr.

(** The lobby that an inbound message addresses: the target of a join, the
    lobby of the connection for every other message, none for [identify]. *)
Definition addressed (c : Conn) (ev : Event) : option string :=
  match ev with
  | EvIdentify _ => None
  | EvJoin lobbyName _ => Some (join_target lobbyName)
  | _ => lobby c
  end.

End Addr.

Export Addr.

(** ** Operations reserved to the GM *)

Module Auth.

(** The socket events that the code reserves to the GM. *)
Definition gm_only_event (ev : Event) : bool :=
  match ev with
  | EvMapInit _ _ | EvMapSet _ _ _ | EvMapClear | EvCampaignLoad _ | EvCampaignStart
  | EvCampaignUpdateMeta _ _ | EvSceneAdd _ _ | EvSceneSet _ | EvChoiceAdd _ _ _
  | EvHandoutAdd _ _ | EvQuestAdd _ | EvQuestToggle _ | EvChoiceRequest _
  | EvChoiceForce => true
  | _ => false
  end.

(** The command word of a chat line. *)
Definition command_word (text : string) : string :=
  toLowerCase (fst (split_space (slice1 (safe text 500)))).

(** The argument string of a chat line. *)
Definition command_arg (text : string) : string :=
  trim (default EmptyString (snd (split_space (slice1 (safe text 500))))).

(** The slash commands that test for the GM before anything else. *)
Definition gm_only_command (text : string) : bool :=
  startsWith "/" (safe text 500)
  && has (command_word text)
         ["start"; "kick"; "ban"; "unban"; "startencounter"; "setinit"; "next";
          "endencounter"; "scene"; "consent"].

End Auth.

Export Auth.

(** ** White space *)

Module Text.



End Text.

Export Text.

(** * Properties *)

(** ** The handler frame *)

Section Frame.
Context (env : Env).

(** A handler called by a connection that is in an existing lobby runs its
    body on that lobby and writes the result back. *)
Lemma with_lobby_in (c : Conn) (mem : gmap string Lobby) (ln : string) (L : Lobby)
    (k : string -> Lobby -> Lobby * list Emit) :
  lobby c = Some ln -> mem !! ln = Some L ->
  with_lobby env c mem k = (c, <[ln := fst (k ln L)]> mem, snd (k ln L)).
Proof.
  intros Hl Hm. unfold with_lobby, ensureLobby. rewrite Hl, Hm.
  destruct (k ln L); reflexivity.
Qed.

(** A body that returns the lobby it was given leaves the registry as it was. *)
Lemma with_lobby_same (c : Conn) (mem : gmap string Lobby) (ln : string) (L : Lobby)
    (k : string -> Lobby -> Lobby * list Emit) :
  lobby c = Some ln -> mem !! ln = Some L -> fst (k ln L) = L ->
  with_lobby env c mem k = (c, mem, snd (k ln L)).
Proof.
  intros Hl Hm Hk. rewrite (with_lobby_in c mem ln L k Hl Hm), Hk.
  by rewrite insert_id.
Qed.

(** A body that returns the lobby it was given and the messages [out]. *)
Lemma with_lobby_const (c : Conn) (mem : gmap string Lobby) (ln : string) (L : Lobby)
    (k : string -> Lobby -> Lobby * list Emit) (out : list Emit) :
  lobby c = Some ln -> mem !! ln = Some L -> k ln L = (L, out) ->
  with_lobby env c mem k = (c, mem, out).
Proof.
  intros Hl Hm Hk. rewrite (with_lobby_same c mem ln L k Hl Hm); by rewrite Hk.
Qed.

(** A connection that never joined a lobby is ignored. *)
Lemma with_lobby_out (c : Conn) (mem : gmap string Lobby)
    (k : string -> Lobby -> Lobby * list Emit) :
  lobby c = None -> with_lobby env c mem k = (c, mem, []).
Proof. intros Hl. unfold with_lobby. by rewrite Hl. Qed.

End Frame.

(** ** Consent flow *)

Section Consent.
Context (env : Env).

Lemma find_scene_id (id : string) (cp : Campaign) (s : Scene) :
  find_scene id cp = Some s -> scene_id s = id.
Proof.
  unfold find_scene. intros H. apply find_some in H as [_ H].
  by apply String.eqb_eq in H.
Qed.

Lemma commit_choice_pending (ln : string) (L : Lobby) (p : Pending) (note : string) :
  pending (settings (fst (commit_choice ln L p note))) = None.
Proof. unfold commit_choice. by destruct (find_scene _ _). Qed.

Lemma commit_choice_pointer (ln : string) (L : Lobby) (p : Pending) (note : string) :
  currentSceneId (campaign (fst (commit_choice ln L p note))) = committed_pointer L p.
Proof.
  unfold commit_choice, committed_pointer.
  destruct (find_scene _ _) eqn:E; simpl; [|done].
  by rewrite (find_scene_id _ _ _ E).
Qed.

(** A commit touches nothing but the scene pointer and the pending request. *)
Lemma commit_choice_frame (ln : string) (L : Lobby) (p : Pending) (note : string) :
  let L' := fst (commit_choice ln L p note) in
  gm L' = gm L /\ users L' = users L /\ scenes (campaign L') = scenes (campaign L)
  /\ lmap L' = lmap L /\ encounter L' = encounter L /\ passwordHash L' = passwordHash L.
Proof. unfold commit_choice. by destruct (find_scene _ _). Qed.


Lemma has_In (x : string) (l : list string) : has x l = true <-> In x l.
Proof.
  unfold has. rewrite existsb_exists. split.
  - intros (y & Hy & E). apply String.eqb_eq in E. by subst.
  - intros H. exists x. split; [done|]. apply String.eqb_refl.
Qed.

Lemma set_add_In (x y : string) (l : list string) :
  In y (set_add x l) <-> y = x \/ In y l.
Proof.
  unfold set_add. destruct (has x l) eqn:E.
  - apply has_In in E. split; [auto|]. intros [->|]; auto.
  - rewrite in_app_iff. simpl. split; [intros [|[|[]]]; auto | intros [|]; auto].
Qed.









Lemma with_approvals_frame (A : list string) (L : Lobby) :
  gm (with_approvals A L) = gm L /\ users (with_approvals A L) = users L
  /\ campaign (with_approvals A L) = campaign L.
Proof. unfold with_approvals. by destruct (pending (settings L)). Qed.

Lemma with_approvals_pending (A : list string) (L : Lobby) (p : Pending) :
  pending (settings L) = Some p ->
  pending (settings (with_approvals A L)) = Some (set_approvals A p).
Proof. unfold with_approvals. by intros ->. Qed.



End Consent.



(** C2. [campaign_choice_force] by the GM with a request pending clears the
    request and moves the scene pointer to the target when such a scene
    exists, whatever the approval set holds (the outcome is the same for
    every approval set); a caller who is not the GM gets the error
    [GM only.] and the registry is unchanged. *)
Theorem force_commits_or_rejects (env : Env) (c : Conn) (mem : gmap string Lobby)
    (ln : string) (L : Lobby) :
  lobby c = Some ln -> mem !! ln = Some L ->
  (isGM c L = true -> forall p, pending (settings L) = Some p ->
     (exists L', snd (fst (campaign_choice_force env c mem)) = <[ln := L']> mem
        /\ pending (settings L') = None
        /\ currentSceneId (campaign L') = committed_pointer L p
        /\ gm L' = gm L /\ users L' = users L /\ scenes (campaign L') = scenes (campaign L))
     /\ (forall A, campaign_choice_force env c (<[ln := with_approvals A L]> mem)
                   = campaign_choice_force env c mem))
  /\ (isGM c L = false ->
      campaign_choice_force env c mem = (c, mem, [(ToSocket (sid c), error_message msg_gm_only)])).
Proof.
  intros Hl Hm. split.
  - intros Hg p Hp. split.
    + unfold campaign_choice_force. rewrite (with_lobby_in env c mem ln L _ Hl Hm).
      simpl. rewrite Hg, Hp. simpl.
      exists (fst (commit_choice ln L p "GM forced proceed: ")).
      destruct (commit_choice_frame ln L p "GM forced proceed: ") as (? & ? & ? & _).
      repeat split; try done.
      * apply commit_choice_pending.
      * apply commit_choice_pointer.
    + intros A. unfold campaign_choice_force.
      rewrite (with_lobby_in env c mem ln L _ Hl Hm).
      rewrite (with_lobby_in env c _ ln (with_approvals A L) _ Hl (lookup_insert_eq _ _ _)).
      rewrite insert_insert_eq.
      assert (Hg' : isGM c (with_approvals A L) = true).
      { unfold isGM. destruct (with_approvals_frame A L) as (-> & _). exact Hg. }
      rewrite Hg, Hg', Hp, (with_approvals_pending A L p Hp). simpl.
      unfold commit_choice, with_approvals. rewrite Hp. simpl.
      by destruct (find_scene (pend_to p) (campaign L)).
  - intros Hg. unfold campaign_choice_force.
    rewrite (with_lobby_same env c mem ln L _ Hl Hm); by rewrite Hg.
Qed.


Example scenario_conns :
  fst (fst (run [conn0 "G"; conn0 "R"; conn0 "W"] joins ∅)) = [gia; rin; wes].
Proof. vm_compute. reflexivity. Qed.

Example scenario_locked : mem_locked !! "tavern" = Some lobby_locked.
Proof. vm_compute. reflexivity. Qed.

Example scenario_started : mem_started !! "tavern" = Some lobby_started.
Proof. vm_compute. reflexivity. Qed.

Example scenario_users :
  gm lobby_locked = Some "Gia" /\ user_names lobby_locked = ["Gia"; "Rin"; "Wes"]
  /\ isLockedForPlayers lobby_locked = true /\ isLockedForPlayers lobby_started = false.
Proof. vm_compute. repeat split; reflexivity. Qed.


Lemma force_commits_or_rejects_witness :
  (exists L', snd (fst (campaign_choice_force env0 gia mem_pending)) = <["tavern" := L']> mem_pending
     /\ pending (settings L') = None
     /\ currentSceneId (campaign L') = Some "s_tavern")
  /\ campaign_choice_force env0 rin mem_pending
     = (rin, mem_pending, [(ToSocket "R", error_message "GM only.")]).
Proof.
  split.
  - destruct (force_commits_or_rejects env0 gia mem_pending "tavern" lobby_pending)
      as [Hgm _]; [reflexivity | vm_compute; reflexivity |].
    destruct (Hgm eq_refl
                (mkPending "c_intro_tavern" "Head to the Burnt Anvil tavern" "s_tavern" [] 0)
                eq_refl) as [(L' & E & Hp & Hc & _) _].
    exists L'. split; [exact E|]. split; [exact Hp|]. exact Hc.
  - destruct (force_commits_or_rejects env0 rin mem_pending "tavern" lobby_pending)
      as [_ Hno]; [reflexivity | vm_compute; reflexivity |].
    exact (Hno eq_refl).
Defined.


(** ** The start lock *)

Section Lock.
Context (env : Env).






End Lock.




(** ** Map initialisation *)

Lemma clamp_range (n a b : Z) : a <= b -> a <= clamp n a b <= b.
Proof. unfold clamp. lia. Qed.






(** ** Dice evaluator *)

Section DiceFacts.


(** A die with no side always shows 1. *)
Lemma die_zero (r : Q) : Dice.die 0 r = 1.
Proof.
  unfold Dice.die. assert (E : (r * inject_Z 0 == inject_Z 0)%Q) by ring.
  by rewrite E, Qfloor_Z.
Qed.

Lemma roll_dice_length (rnd : nat -> Q) (count sides : Z) :
  length (Dice.roll_dice rnd count sides) = Z.to_nat count.
Proof. unfold Dice.roll_dice. by rewrite length_map, length_seq. Qed.


(** The insertion sort is a permutation of its input. *)
Lemma insert_by_perm {A : Type} (le : A -> A -> bool) (x : A) (l : list A) :
  Permutation (insert_by le x l) (x :: l).
Proof.
  induction l as [|y l IH]; simpl; [done|].
  destruct (le x y); [done|]. rewrite IH. apply perm_swap.
Qed.

Lemma sort_by_perm {A : Type} (le : A -> A -> bool) (l : list A) :
  Permutation (sort_by le l) l.
Proof.
  induction l as [|x l IH]; simpl; [done|].
  rewrite insert_by_perm. by constructor.
Qed.

(** With a total comparison the insertion sort returns a sorted list. *)
Lemma insert_by_sorted {A : Type} (le : A -> A -> bool) (x : A) (l : list A) :
  (forall a b, le a b = false -> le b a = true) ->
  Sorted (fun a b => le a b = true) l ->
  Sorted (fun a b => le a b = true) (insert_by le x l).
Proof.
  intros Htot Hl. induction Hl as [|y l Hl IH Hy]; simpl.
  - repeat constructor.
  - destruct (le x y) eqn:E.
    + constructor; [by constructor|]. by constructor.
    + constructor; [exact IH|].
      destruct l as [|z l]; simpl.
      * constructor. by apply Htot.
      * destruct (le x z); constructor; [by apply Htot|].
        by inversion Hy.
Qed.

Lemma sort_by_sorted {A : Type} (le : A -> A -> bool) (l : list A) :
  (forall a b, le a b = false -> le b a = true) ->
  Sorted (fun a b => le a b = true) (sort_by le l).
Proof.
  intros Htot. induction l as [|x l IH]; simpl; [constructor|].
  by apply insert_by_sorted.
Qed.

Lemma Sorted_impl {A : Type} (R S : A -> A -> Prop) (l : list A) :
  (forall a b, R a b -> S a b) -> Sorted R l -> Sorted S l.
Proof.
  intros HRS Hl. induction Hl as [|x l Hl IH Hx]; constructor; [done|].
  destruct Hx; constructor; auto.
Qed.

(** Keep-highest sorts in descending order, keep-lowest in ascending order. *)
Lemma sort_keep_h (l : list Z) : Sorted Z.ge (sort_by (Dice.keep_le "h") l).
Proof.
  eapply Sorted_impl; [|apply sort_by_sorted].
  - intros a b. unfold Dice.keep_le. simpl. lia.
  - intros a b. unfold Dice.keep_le. simpl. lia.
Qed.

Lemma sort_keep_l (l : list Z) : Sorted Z.le (sort_by (Dice.keep_le "l") l).
Proof.
  eapply Sorted_impl; [|apply sort_by_sorted].
  - intros a b. unfold Dice.keep_le. simpl. lia.
  - intros a b. unfold Dice.keep_le. simpl. lia.
Qed.

End DiceFacts.

Section DiceParse.

Lemma lower_idem (a : ascii) : lower (lower a) = lower a.
Proof. destruct a as [[] [] [] [] [] [] [] []]; reflexivity. Qed.

Lemma toLowerCase_all_lower (s : string) : all_lower (toLowerCase s).
Proof. induction s as [|a s IH]; simpl; [done|]. split; [apply lower_idem | done]. Qed.

Lemma span_digits_rest_lower (s d r : string) :
  span_digits s = (d, r) -> all_lower s -> all_lower r.
Proof.
  revert d r. induction s as [|a s IH]; simpl; intros d r E Hs.
  - by inversion E.
  - destruct (is_digit a).
    + destruct (span_digits s) as [d' r'] eqn:E'. inversion E; subst.
      destruct Hs as [_ Hs]. by apply (IH d' r).
    + by inversion E; subst.
Qed.

(** On a lower-cased expression the keep mode is the letter h or l. *)
Lemma keepMode_letter (expr : string) (m : Dice.Match) (km : string) :
  all_lower expr -> Dice.DICE_ADV expr = Some m ->
  Dice.keepMode (Dice.fields m) = Some km -> km = "h" \/ km = "l".
Proof.
  intros Hlow Hm Hkm. unfold Dice.DICE_ADV in Hm.
  destruct (span_digits expr) as [c r1] eqn:E1.
  pose proof (span_digits_rest_lower _ _ _ E1 Hlow) as Hr1.
  destruct r1 as [|d r2]; [discriminate|].
  destruct (Ascii.eqb (lower d) "d"); [|discriminate].
  destruct (span_digits r2) as [sd r3] eqn:E2.
  destruct Hr1 as [_ Hr2].
  pose proof (span_digits_rest_lower _ _ _ E2 Hr2) as Hr3.
  destruct sd as [|s0 sd]; [discriminate|].
  destruct (Dice.match_keep r3) as [[g3 g4] r4] eqn:E3.
  destruct (Dice.match_mod r4) as [g5|]; [|discriminate].
  inversion Hm; subst m. simpl in Hkm.
  unfold Dice.match_keep in E3.
  destruct r3 as [|k [|hl r]]; try (inversion E3; subst; discriminate).
  destruct Hr3 as [_ [Hhl _]].
  destruct (Ascii.eqb (lower k) "k" && (Ascii.eqb (lower hl) "h" || Ascii.eqb (lower hl) "l"))%bool eqn:Ec;
    [|inversion E3; subst; discriminate].
  destruct (span_digits r) as [dd r'] eqn:E4.
  destruct dd as [|d0 dd]; inversion E3; subst; [discriminate|].
  simpl in Hkm. inversion Hkm; subst km.
  apply andb_true_iff in Ec as [_ Ec]. apply orb_true_iff in Ec.
  rewrite Hhl in Ec. destruct Ec as [Ec|Ec]; apply Ascii.eqb_eq in Ec; subst; auto.
Qed.

End DiceParse.

(** C4: the expression ["2d6kh0"] has a keep-modifier whose N = 0 lies
    outside [1, count], and [rollAdvanced] accepts it and keeps every die;
    the other rejections of the claim hold: ["200d6"] and a die of more
    than 1000 sides fail with the bounds message, ["d20kh2"] with the
    keep-range message, a malformed expression with a third message, and the
    three messages differ. *)
Theorem rollAdvanced_keep_zero_accepted (rnd : nat -> Q) :
  Dice.rollAdvanced rnd "2d6kh0"
  = Ok (Dice.mkRoll "2d6kh0" (Dice.roll_dice rnd 2 6) (Dice.roll_dice rnd 2 6) 0
          (Dice.sum (Dice.roll_dice rnd 2 6) + 0))
  /\ Dice.rollAdvanced rnd "200d6" = Throw Dice.msg_too_big
  /\ Dice.rollAdvanced rnd "2d1001" = Throw Dice.msg_too_big
  /\ Dice.rollAdvanced rnd "d20kh2" = Throw Dice.msg_keep
  /\ Dice.rollAdvanced rnd "2d6kh" = Throw Dice.msg_invalid
  /\ Dice.msg_invalid <> Dice.msg_too_big /\ Dice.msg_invalid <> Dice.msg_keep
  /\ Dice.msg_too_big <> Dice.msg_keep.
Proof. repeat split; try reflexivity; discriminate. Qed.




(** ** Unique display names *)

Section UniqueName.








End UniqueName.

(** ** What a handler call may change *)

Section Frames.
Context (env : Env).

Lemma frame_refl (c : Conn) (L : Lobby) : frame c L L.
Proof. split; [by left | split; by left]. Qed.

(** The lobbies after a handler call: each one was in the registry before,
    or is a new lobby, and went through the body at most once. *)
Lemma with_lobby_frame (c : Conn) (mem : gmap string Lobby)
    (k : string -> Lobby -> Lobby * list Emit) :
  (forall ln L, frame c L (fst (k ln L))) ->
  forall ln L', snd (fst (with_lobby env c mem k)) !! ln = Some L' ->
  exists L0, (mem !! ln = Some L0 \/ (mem !! ln = None /\ L0 = newLobby env))
             /\ frame c L0 L'.
Proof.
  intros Hk ln L' H. unfold with_lobby in H.
  destruct (lobby c) as [ln0|]; simpl in H.
  - unfold ensureLobby in H. destruct (mem !! ln0) as [L|] eqn:E.
    + specialize (Hk ln0 L). destruct (k ln0 L) as [L1 out]. simpl in *.
      destruct (decide (ln = ln0)) as [->|Hne].
      * rewrite lookup_insert_eq in H. inversion H; subst. exists L. auto.
      * rewrite lookup_insert_ne in H by done. exists L'. split; [auto | apply frame_refl].
    + specialize (Hk ln0 (newLobby env)). destruct (k ln0 (newLobby env)) as [L1 out]. simpl in *.
      destruct (decide (ln = ln0)) as [->|Hne].
      * rewrite lookup_insert_eq in H. inversion H; subst. exists (newLobby env). auto.
      * rewrite !lookup_insert_ne in H by done. exists L'. split; [auto | apply frame_refl].
  - exists L'. split; [auto | apply frame_refl].
Qed.

Ltac frame_same := split; [by left | split; by left].

Lemma start_campaign_frame (c : Conn) (ln : string) (L : Lobby) (already : string) :
  frame c L (fst (start_campaign c ln L already)).
Proof. unfold start_campaign. repeat case_match; frame_same. Qed.

Lemma commit_choice_is_frame (c : Conn) (ln : string) (L : Lobby) (p : Pending) (note : string) :
  frame c L (fst (commit_choice ln L p note)).
Proof. unfold commit_choice. repeat case_match; simplify_eq; frame_same. Qed.

Lemma handleCommand_frame (c : Conn) (ln : string) (L : Lobby) (line : string) :
  frame c L (fst (handleCommand env c ln L line)).
Proof.
  unfold handleCommand.
  repeat case_match; simplify_eq; try apply start_campaign_frame; try frame_same.
  - split; [|split; by left]. right. split; [|done].
    match goal with H : negb (truthy_opt _) = true |- _ => by apply negb_true_iff in H end.
  - split; [by left|]. split; [|by left]. right. left. by eexists.
  - split; [by left|]. split; [by left|]. right. left. by eexists.
  - split; [by left|]. split; [by left|]. right. right. left. by do 2 eexists.
  - split; [by left|]. split; [by left|]. right. right. right.
    match goal with H : (negb (active _) || _)%bool = false |- _ =>
      apply orb_false_iff in H as [Ha Hb] end.
    apply negb_false_iff in Ha. apply Nat.eqb_neq in Hb.
    split; [done|]. split; [|done]. intros E. by rewrite E in Hb.
  - split; [by left|]. split; [by left|]. right. left. by eexists.
Qed.

Lemma join_gate_frame (c : Conn) (L L2 : Lobby) (password : option string) :
  join_gate env c L password = Some L2 ->
  gm_step c L L2 /\ users L2 = users L /\ encounter L2 = encounter L.
Proof.
  unfold join_gate. intros H.
  repeat (first [progress cbv beta zeta in H | case_match]); simplify_eq; simpl;
    try (split; [by left | done]).
  - split; [|done]. right. split; [|done].
    match goal with H : negb (truthy_opt _) = true |- _ => by apply negb_true_iff in H end.
  - split; [|done]. right. split; [|done].
    match goal with H : negb (truthy_opt _) = true |- _ => by apply negb_true_iff in H end.
Qed.

Lemma join_frame (c : Conn) (mem : gmap string Lobby) (lobbyName password : option string) :
  forall ln L', snd (fst (join_lobby env c mem lobbyName password)) !! ln = Some L' ->
  exists L0, (mem !! ln = Some L0 \/ (mem !! ln = None /\ L0 = newLobby env))
             /\ frame c L0 L'.
Proof.
  intros ln L'. unfold join_lobby.
  set (ln0 := join_target lobbyName).
  assert (Hsrc : forall L, mem !! ln0 = Some L \/ (mem !! ln0 = None /\ L = newLobby env) ->
            forall mem1 : gmap string Lobby,
            mem1 !! ln0 = Some L -> (forall l, l <> ln0 -> mem1 !! l = mem !! l) ->
            (mem1 !! ln = Some L' ->
             exists L0, (mem !! ln = Some L0 \/ (mem !! ln = None /\ L0 = newLobby env))
                        /\ frame c L0 L')).
  { intros L HL mem1 H1 H2 H. destruct (decide (ln = ln0)) as [->|Hne].
    - rewrite H1 in H. inversion H; subst. exists L'. split; [done | apply frame_refl].
    - rewrite H2 in H by done. exists L'. split; [auto | apply frame_refl]. }
  assert (Hgo : forall (L : Lobby) (mem1 : gmap string Lobby), mem !! ln0 = Some L \/ (mem !! ln0 = None /\ L = newLobby env) ->
            mem1 !! ln0 = Some L -> (forall l, l <> ln0 -> mem1 !! l = mem !! l) ->
            snd (fst (if negb (joinOk L (username c))
                      then (c, mem1, [(ToSocket (sid c), error_message "You are banned from this lobby.")])
                      else match join_gate env c L password with
                           | None => (c, mem1, [(ToSocket (sid c), error_message "Lobby is locked (wrong password).")])
                           | Some L2 =>
                               let nm := uniqueName L2 (username c) in
                               let L3 := set_users (oset (sid c) nm (users L2)) L2 in
                               let c' := mkConn (sid c) nm (Some ln0) in
                               (c', <[ln0 := L3]> mem1,
                                [(ToSocket (sid c), joined ln0 (lastn 40 (messages L3)) (lastn 40 (rolls L3)) (gm L3) (settings L3));
                                 (ToRoom ln0, system (nm +:+ " joined " +:+ ln0))]
                                ++ (if (requireCharacter (settings L3) && negb (has_key nm (characters L3)))%bool
                                    then [(ToSocket (sid c), character_required "GM requires a character before playing.")]
                                    else [])
                                ++ emitState ln0 L3 ++ emitMap ln0 L3)
                           end)) !! ln = Some L' ->
            exists L0, (mem !! ln = Some L0 \/ (mem !! ln = None /\ L0 = newLobby env))
                       /\ frame c L0 L').
  { intros L mem1 HL H1 H2.
    destruct (negb (joinOk L (username c))); [by apply (Hsrc L)|].
    destruct (join_gate env c L password) as [L2|] eqn:Eg; [|by apply (Hsrc L)].
    simpl. intros H. destruct (join_gate_frame c L L2 password Eg) as (Hg & Hu & He).
    destruct (decide (ln = ln0)) as [->|Hne].
    - rewrite lookup_insert_eq in H. inversion H; subst. exists L. split; [done|].
      split; [exact Hg|]. split; [|by left]. right. right. exists L2. simpl. by rewrite Hu.
    - rewrite lookup_insert_ne in H by done. rewrite H2 in H by done.
      exists L'. split; [auto | apply frame_refl]. }
  unfold ensureLobby. destruct (mem !! ln0) as [L|] eqn:E.
  - apply Hgo; auto.
  - apply Hgo; [auto | apply lookup_insert_eq |].
    intros l Hl. by rewrite lookup_insert_ne.
Qed.

(** Every handler call changes the GM, the members and the encounter of a
    lobby in one of the ways listed by [frame]. *)
Lemma handle_frame (c : Conn) (mem : gmap string Lobby) (ev : Event) :
  forall ln L', snd (fst (handle env c mem ev)) !! ln = Some L' ->
  exists L0, (mem !! ln = Some L0 \/ (mem !! ln = None /\ L0 = newLobby env))
             /\ frame c L0 L'.
Proof.
  destruct ev; simpl;
    try (first [ unfold chat | unfold roll | unfold character_upsert | unfold character_delete
               | unfold map_request | unfold map_init | unfold map_set | unfold token_add
               | unfold token_move | unfold token_remove | unfold map_clear | unfold ping
               | unfold campaign_load | unfold campaign_get | unfold campaign_start
               | unfold campaign_update_meta | unfold campaign_scene_add
               | unfold campaign_scene_set | unfold campaign_choice_add
               | unfold campaign_handout_add | unfold campaign_quest_add
               | unfold campaign_quest_toggle | unfold campaign_note_add
               | unfold campaign_choice_pick
               | unfold campaign_choice_request | unfold campaign_choice_ack
               | unfold campaign_choice_force | unfold disconnect ];
         apply with_lobby_frame; intros ln0 L0;
         repeat (first [progress cbv beta zeta | case_match]); simplify_eq;
         try apply handleCommand_frame; try apply start_campaign_frame;
         try apply commit_choice_is_frame; try frame_same).
  - intros ln L' H. exists L'. split; [auto | apply frame_refl].
  - apply join_frame.
  - unfold commit_choice. repeat case_match; simplify_eq; frame_same.
  - split; [by left|]. split; [|by left]. right. left. by eexists.
Qed.

End Frames.

(** ** Invariants of the reachable registries *)

Section Invariants.

(** A property of lobbies that new lobbies have and that every change
    listed by [frame] preserves holds in every reachable registry. *)
Lemma reachable_inv (P : Lobby -> Prop) :
  (forall env, P (newLobby env)) ->
  (forall c L0 L', frame c L0 L' -> P L0 -> P L') ->
  forall mem, reachable mem -> forall ln L, mem !! ln = Some L -> P L.
Proof.
  intros Hnew Hstep mem Hr. induction Hr as [|env c mem ev Hr IH]; intros ln L H.
  - by rewrite lookup_empty in H.
  - destruct (handle_frame env c mem ev ln L H) as (L0 & [H0|[_ ->]] & Hf).
    + apply (Hstep c L0 L Hf). by apply (IH ln).
    + by apply (Hstep c (newLobby env) L Hf).
Qed.


(** The GM: a non-empty name, once set, stays. *)
Lemma gm_step_keeps (c : Conn) (L0 L' : Lobby) (g : string) :
  gm_step c L0 L' -> gm L0 = Some g -> g <> EmptyString -> gm L' = Some g.
Proof.
  intros [E|[Ht _]] Hg Hne; [by rewrite E|].
  rewrite Hg in Ht. simpl in Ht. by destruct g.
Qed.

(** Encounter: the entries of [update_init] keep their names and number. *)
Lemma update_init_Some (name : string) (init : Z) (l l' : list Combatant) :
  update_init name init l = Some l' ->
  map cb_name l' = map cb_name l /\ length l' = length l /\ In name (map cb_name l)
  /\ In (mkCombatant name init) l'.
Proof.
  revert l'. induction l as [|o l IH]; simpl; intros l' H; [discriminate|].
  destruct (String.eqb (cb_name o) name) eqn:E.
  - apply String.eqb_eq in E. inversion H; subst. simpl. repeat split; auto.
  - destruct (update_init name init l) as [l2|]; [|discriminate].
    inversion H; subst. destruct (IH l2 eq_refl) as (E1 & E2 & E3 & E4).
    simpl. rewrite E1, E2. repeat split; auto.
Qed.

Lemma update_init_None (name : string) (init : Z) (l : list Combatant) :
  update_init name init l = None -> ~ In name (map cb_name l).
Proof.
  induction l as [|o l IH]; simpl; intros H; [tauto|].
  destruct (String.eqb (cb_name o) name) eqn:E; [discriminate|].
  destruct (update_init name init l); [discriminate|].
  apply String.eqb_neq in E. intros [|]; [done|]. by apply IH.
Qed.

Lemma NoDup_perm_names (l l' : list Combatant) :
  Permutation l l' -> NoDup (map cb_name l') -> NoDup (map cb_name l).
Proof. intros Hp. by rewrite Hp. Qed.

Lemma setInitiative_inv (name : string) (init : Z) (e : Encounter) :
  enc_inv e -> enc_inv (setInitiative name init e).
Proof.
  intros (Hs & Hn & Ht). unfold setInitiative, enc_inv. simpl.
  set (o1 := match update_init name init (order e) with
             | Some o => o
             | None => order e ++ [mkCombatant name init]
             end).
  assert (H1 : NoDup (map cb_name o1) /\ (length (order e) <= length o1)%nat).
  { unfold o1. destruct (update_init name init (order e)) as [o|] eqn:E.
    - destruct (update_init_Some _ _ _ _ E) as (E1 & E2 & _). rewrite E1, E2. auto.
    - apply update_init_None in E. rewrite map_app, length_app. simpl. split; [|lia].
      apply NoDup_app. repeat split; [done| |apply NoDup_singleton].
      intros x Hx Hx'. apply list_elem_of_singleton in Hx'. subst.
      by apply list_elem_of_In in Hx. }
  destruct H1 as [Hn1 Hl1]. split; [|split].
  - eapply Sorted_impl; [|apply sort_by_sorted].
    + intros a b. unfold init_le. lia.
    + intros a b. unfold init_le. lia.
  - apply (NoDup_perm_names _ o1); [apply sort_by_perm | done].
  - rewrite (Permutation_length (sort_by_perm init_le o1)). lia.
Qed.

Lemma advanceTurn_inv (e : Encounter) :
  enc_inv e -> order e <> [] ->
  enc_inv (advanceTurn e)
  /\ turnIndex (advanceTurn e) = (turnIndex e + 1) mod Z.of_nat (length (order e))
  /\ 0 <= turnIndex (advanceTurn e) < Z.of_nat (length (order e)).
Proof.
  intros (Hs & Hn & Ht) Hne. unfold advanceTurn, enc_inv. simpl.
  assert (Hl : 0 < Z.of_nat (length (order e))) by (destruct (order e); [done | simpl; lia]).
  rewrite Z.rem_mod_nonneg by lia.
  pose proof (Z.mod_pos_bound (turnIndex e + 1) _ Hl). repeat split; try done; lia.
Qed.

Lemma enc_step_inv (L0 L' : Lobby) :
  enc_step L0 L' -> enc_inv (encounter L0) -> enc_inv (encounter L').
Proof.
  intros [E|[[b E]|[(n & i & E)|(Ha & Hne & E)]]] Hinv; rewrite E.
  - done.
  - repeat split; simpl; (constructor || lia).
  - by apply setInitiative_inv.
  - by apply advanceTurn_inv.
Qed.

End Invariants.

(** Every registry that a sequence of inbound messages produces from a
    reachable registry is reachable. *)
Lemma run_reachable (evs : list (Env * string * Event)) :
  forall (cs : list Conn) (mem : gmap string Lobby),
  reachable mem -> reachable (snd (fst (run cs evs mem))).
Proof.
  induction evs as [|[[env id] ev] evs IH]; intros cs mem Hr; simpl; [done|].
  destruct (find _ cs) as [c|]; [|by apply IH].
  pose proof (reach_step env c mem ev Hr) as Hr'.
  destruct (handle env c mem ev) as [[c' mem1] out1]. simpl in Hr'.
  specialize (IH (map (fun d => if String.eqb (sid d) id then c' else d) cs) mem1 Hr').
  by destruct (run _ evs mem1) as [[cs2 mem2] out2].
Qed.

Example fight_order :
  mem_fight !! "tavern" = Some lobby_fight
  /\ encounter lobby_fight
     = mkEncounter true [mkCombatant "Rin" 18; mkCombatant "Wes" 15; mkCombatant "Gia" 9] 1.
Proof. vm_compute. split; reflexivity. Qed.

Example two_rins :
  let '(cs, mem, _) :=
    run [conn0 "A"; conn0 "B"]
        [ (env0, "A", EvIdentify (Some "Rin")); (env0, "A", EvJoin (Some "tavern") None);
          (env0, "B", EvIdentify (Some "Rin")); (env0, "B", EvJoin (Some "tavern") None) ] ∅ in
  map username cs = ["Rin"; "Rin2"]
  /\ user_names <$> (mem !! "tavern") = Some ["Rin"; "Rin2"].
Proof. vm_compute. split; reflexivity. Qed.





(** ** The GM field *)

(** A GM with a non-empty name survives every handler call. *)
Lemma gm_kept_when_nonempty (env : Env) (c : Conn) (mem : gmap string Lobby) (ev : Event)
    (ln : string) (L L' : Lobby) (g : string) :
  mem !! ln = Some L -> gm L = Some g -> g <> EmptyString ->
  snd (fst (handle env c mem ev)) !! ln = Some L' -> gm L' = Some g.
Proof.
  intros Hm Hg Hne H.
  destruct (handle_frame env c mem ev ln L' H) as (L0 & [H0|[H0 _]] & (Hstep & _)).
  - rewrite Hm in H0. inversion H0; subst. by apply (gm_step_keeps c L0 L' g).
  - by rewrite Hm in H0.
Qed.

(** A handler call sets the GM only where the field is null or empty, and
    then to the name of the calling connection. *)
Lemma gm_changes_only_when_unset (env : Env) (c : Conn) (mem : gmap string Lobby) (ev : Event)
    (ln : string) (L L' : Lobby) :
  mem !! ln = Some L -> snd (fst (handle env c mem ev)) !! ln = Some L' ->
  gm L' = gm L \/ (truthy_opt (gm L) = false /\ gm L' = Some (username c)).
Proof.
  intros Hm H.
  destruct (handle_frame env c mem ev ln L' H) as (L0 & [H0|[H0 _]] & (Hstep & _)).
  - rewrite Hm in H0. by inversion H0; subst.
  - by rewrite Hm in H0.
Qed.

(** C7: the GM field is reassigned after it became non-null. A connection
    that identified with a blank name opens the lobby: the GM becomes the
    empty string, which is not null. When Bob then joins, [!L.gm] holds for
    the empty string and the GM becomes Bob. *)
Theorem gm_reassigned_after_blank_name :
  reachable mem_blank /\ reachable mem_blank_bob
  /\ gm <$> (mem_blank !! "tavern") = Some (Some "")
  /\ user_names <$> (mem_blank !! "tavern") = Some ["Anon"]
  /\ gm <$> (mem_blank_bob !! "tavern") = Some (Some "Bob")
  /\ user_names <$> (mem_blank_bob !! "tavern") = Some ["Anon"; "Bob"].
Proof.
  split; [apply run_reachable, reach_init|].
  split; [apply run_reachable, reach_init|].
  repeat split; vm_compute; reflexivity.
Qed.

(** ** The encounter tracker *)

(** C9. The encounter operations keep the order sorted by descending
    initiative and free of duplicate names, and the turn index a valid index
    whenever the order is not empty: this holds after [/startencounter] and
    [/endencounter]; [/setinit] keeps it, updating the entry of a known
    name in place and appending an unknown one; [/next] keeps it and moves
    the index to its successor modulo the length of the order; hence it
    holds in every lobby of every reachable registry. *)
Theorem encounter_invariant :
  (forall b, enc_inv (mkEncounter b [] 0))
  /\ (forall e name init, enc_inv e ->
        enc_inv (setInitiative name init e)
        /\ In (mkCombatant name init) (order (setInitiative name init e))
        /\ (In name (map cb_name (order e)) ->
            length (order (setInitiative name init e)) = length (order e))
        /\ (~ In name (map cb_name (order e)) ->
            length (order (setInitiative name init e)) = S (length (order e))))
  /\ (forall e, enc_inv e -> order e <> [] ->
        enc_inv (advanceTurn e)
        /\ turnIndex (advanceTurn e) = (turnIndex e + 1) mod Z.of_nat (length (order e)))
  /\ (forall e, enc_inv e ->
        Sorted (fun a b => cb_init a >= cb_init b) (order e)
        /\ NoDup (map cb_name (order e))
        /\ (order e <> [] -> 0 <= turnIndex e < Z.of_nat (length (order e))))
  /\ (forall mem, reachable mem ->
      forall ln L, mem !! ln = Some L -> enc_inv (encounter L)).
Proof.
  split; [|split; [|split; [|split]]].
  - intros b. repeat split; simpl; (constructor || lia).
  - intros e name init Hinv. split; [by apply setInitiative_inv|].
    unfold setInitiative. simpl.
    rewrite (Permutation_length (sort_by_perm init_le _)).
    destruct (update_init name init (order e)) as [o|] eqn:E.
    + destruct (update_init_Some _ _ _ _ E) as (_ & E2 & E3 & E4).
      split; [|split; [done | done]].
      apply (Permutation_in _ (Permutation_sym (sort_by_perm init_le o))). exact E4.
    + apply update_init_None in E. split; [|split; [done|]].
      * apply (Permutation_in _ (Permutation_sym (sort_by_perm init_le _))).
        apply in_app_iff. right. by left.
      * intros _. rewrite length_app. simpl. lia.
  - intros e Hinv Hne. by destruct (advanceTurn_inv e Hinv Hne) as (? & ? & _).
  - intros e (Hs & Hn & Ht). split; [done|]. split; [done|].
    intros Hne. destruct (order e); [done|]. simpl in *. lia.
  - apply (reachable_inv (fun L => enc_inv (encounter L))).
    + intros env. repeat split; simpl; (constructor || lia).
    + intros c L0 L' (_ & _ & Hstep). by apply enc_step_inv.
Qed.

Lemma encounter_invariant_witness :
  enc_inv (encounter lobby_fight)
  /\ turnIndex (advanceTurn (encounter lobby_fight)) = 2
  /\ length (order (setInitiative "Wes" 20 (encounter lobby_fight))) = 3%nat.
Proof.
  destruct encounter_invariant as (_ & Hset & Hnext & _ & Hreach).
  assert (Hinv : enc_inv (encounter lobby_fight)).
  { apply (Hreach mem_fight (run_reachable _ _ _ reach_init) "tavern").
    vm_compute. reflexivity. }
  split; [exact Hinv|]. split.
  - destruct (Hnext (encounter lobby_fight) Hinv) as [_ E]; [discriminate|].
    rewrite E. reflexivity.
  - destruct (Hset (encounter lobby_fight) "Wes" 20 Hinv) as (_ & _ & E & _).
    rewrite E; [reflexivity|]. simpl. auto.
Defined.

(** * Further properties of the code *)

(** ** Dice: aliases, kept dice and totals *)

Section DiceMore.

Lemma sum_from (l : list Z) (acc : Z) : fold_left Z.add l acc = acc + Dice.sum l.
Proof.
  unfold Dice.sum. revert acc. induction l as [|x l IH]; intros acc; simpl; [lia|].
  rewrite (IH (acc + x)), (IH (0 + x)). lia.
Qed.

Lemma sum_cons (x : Z) (l : list Z) : Dice.sum (x :: l) = x + Dice.sum l.
Proof. unfold Dice.sum at 1. simpl. by rewrite sum_from. Qed.


(** What the body of [rollAdvanced] returns on an accepted expression. *)
Lemma rollAdvanced_Ok (rnd : nat -> Q) (exprRaw : string) (m : Dice.Match) (r : Dice.Roll) :
  Dice.DICE_ADV (Dice.normalize (Dice.resolve_alias exprRaw)) = Some m ->
  Dice.rollAdvanced rnd exprRaw = Ok r ->
  let f := Dice.fields m in
  let rs := Dice.roll_dice rnd (Dice.count f) (Dice.sides f) in
  1 <= Dice.count f <= 100 /\ Dice.sides f <= 1000
  /\ Dice.rolls r = rs /\ Dice.modifier r = Dice.mod_ f
  /\ Dice.total r = Dice.sum (Dice.used r) + Dice.mod_ f
  /\ Dice.expression r = Dice.resolve_alias exprRaw
  /\ match Dice.keepMode f, Dice.keepN f with
     | Some km, Some n =>
         if (truthy km && negb (n =? 0))%bool
         then 1 <= n <= Dice.count f
              /\ Dice.used r = firstn (Z.to_nat n) (sort_by (Dice.keep_le km) rs)
         else Dice.used r = rs
     | _, _ => Dice.used r = rs
     end.
Proof.
  intros Hm Hr f rs.
  unfold Dice.rollAdvanced, Dice.rollAdvanced_main in Hr. rewrite Hm in Hr.
  fold f in Hr.
  assert (Hc1 : 1 <= Dice.count f) by (unfold f, Dice.fields; simpl; lia).
  unfold rs. clearbody f.
  destruct ((Dice.count f >? 100) || (Dice.sides f >? 1000))%bool eqn:Eb; [discriminate|].
  apply orb_false_iff in Eb as [Eb1 Eb2].
  rewrite Z.gtb_ltb in Eb1, Eb2. apply Z.ltb_ge in Eb1, Eb2.
  destruct (Dice.keepN_truthy f && ((default 0 (Dice.keepN f) <? 1)
            || (default 0 (Dice.keepN f) >? Dice.count f)))%bool eqn:Ek; [discriminate|].
  inversion Hr; subst r; clear Hr.
  cbn [Dice.rolls Dice.used Dice.modifier Dice.total Dice.expression].
  repeat (split; [done || lia|]).
  unfold Dice.keepN_truthy in *.
  destruct (Dice.keepMode f) as [km|]; [|done].
  destruct (Dice.keepN f) as [n|]; [|by rewrite andb_false_r].
  simpl in *. destruct (truthy km); simpl; [|done].
  destruct (n =? 0) eqn:En; simpl in *; [done|].
  apply orb_false_iff in Ek as [Ek1 Ek2].
  apply Z.ltb_ge in Ek1. rewrite Z.gtb_ltb in Ek2. apply Z.ltb_ge in Ek2.
  split; [lia | done].
Qed.

Lemma Sorted_split {A : Type} (R : A -> A -> Prop) (l : list A) (n : nat) :
  Transitive R -> Sorted R l ->
  forall u d, In u (firstn n l) -> In d (skipn n l) -> R u d.
Proof.
  intros HT Hs. apply Sorted_StronglySorted in Hs; [|done].
  revert n. induction Hs as [|x l Hs IH Hx]; intros n u d Hu Hd.
  - by destruct n.
  - destruct n as [|n]; [done|]. simpl in Hu, Hd. destruct Hu as [<-|Hu].
    + rewrite List.Forall_forall in Hx. apply Hx.
      rewrite <- (firstn_skipn n l). apply in_or_app. by right.
    + by apply (IH n).
Qed.

End DiceMore.

(** X1. The aliases: an expression that reads adv or d20adv once white
    space is removed and letters are lower-cased rolls two d20 and keeps the
    higher one, dis or d20dis keeps the lower one; the result carries the
    literal expression of the alias, not the text that was sent. *)
Theorem alias_keeps_extreme (rnd : nat -> Q) (exprRaw : string) :
  let a := Dice.die 20 (rnd 0%nat) in
  let b := Dice.die 20 (rnd 1%nat) in
  (Dice.normalize exprRaw = "adv" \/ Dice.normalize exprRaw = "d20adv" ->
   exists t, Dice.rollAdvanced rnd exprRaw
             = Ok (Dice.mkRoll "2d20kh1" [a; b] [Z.max a b] 0 t) /\ t = Z.max a b)
  /\ (Dice.normalize exprRaw = "dis" \/ Dice.normalize exprRaw = "d20dis" ->
      exists t, Dice.rollAdvanced rnd exprRaw
                = Ok (Dice.mkRoll "2d20kl1" [a; b] [Z.min a b] 0 t) /\ t = Z.min a b).
Proof.
  intros a b. split; intros H.
  - assert (E : Dice.resolve_alias exprRaw = "2d20kh1").
    { unfold Dice.resolve_alias. by destruct H as [-> | ->]. }
    unfold Dice.rollAdvanced. rewrite E.
    assert (Em : Dice.rollAdvanced_main rnd "2d20kh1"
                 = Ok (Dice.mkRoll "2d20kh1" [a; b]
                         (if b - a <=? 0 then [a] else [b]) 0
                         (Dice.sum (if b - a <=? 0 then [a] else [b]) + 0))).
    { unfold Dice.rollAdvanced_main.
      change (Dice.DICE_ADV (Dice.normalize "2d20kh1"))
        with (Some (Dice.mkMatch "2" "20" (Some "kh1") (Some "1") None)).
      cbv beta iota zeta.
      change (Dice.fields (Dice.mkMatch "2" "20" (Some "kh1") (Some "1") None))
        with (Dice.mkFields 2 20 (Some "h") (Some 1) 0).
      cbn [Dice.count Dice.sides Dice.keepMode Dice.keepN Dice.mod_ Dice.keepN_truthy
           default id Z.gtb Z.ltb Z.eqb Z.compare Pos.compare Pos.compare_cont
           orb andb negb truthy Z.to_nat Pos.to_nat Pos.iter_op Init.Nat.add].
      change (Dice.roll_dice rnd 2 20) with [a; b].
      unfold sort_by, Dice.keep_le. simpl.
      by destruct (b - a <=? 0). }
    rewrite Em. destruct (b - a <=? 0) eqn:Ec.
    + apply Z.leb_le in Ec. assert (Z.max a b = a) as -> by lia.
      eexists. split; [reflexivity|]. rewrite sum_cons. unfold Dice.sum. simpl. lia.
    + apply Z.leb_gt in Ec. assert (Z.max a b = b) as -> by lia.
      eexists. split; [reflexivity|]. rewrite sum_cons. unfold Dice.sum. simpl. lia.
  - assert (E : Dice.resolve_alias exprRaw = "2d20kl1").
    { unfold Dice.resolve_alias. by destruct H as [-> | ->]. }
    unfold Dice.rollAdvanced. rewrite E.
    assert (Em : Dice.rollAdvanced_main rnd "2d20kl1"
                 = Ok (Dice.mkRoll "2d20kl1" [a; b]
                         (if a - b <=? 0 then [a] else [b]) 0
                         (Dice.sum (if a - b <=? 0 then [a] else [b]) + 0))).
    { unfold Dice.rollAdvanced_main.
      change (Dice.DICE_ADV (Dice.normalize "2d20kl1"))
        with (Some (Dice.mkMatch "2" "20" (Some "kl1") (Some "1") None)).
      cbv beta iota zeta.
      change (Dice.fields (Dice.mkMatch "2" "20" (Some "kl1") (Some "1") None))
        with (Dice.mkFields 2 20 (Some "l") (Some 1) 0).
      cbn [Dice.count Dice.sides Dice.keepMode Dice.keepN Dice.mod_ Dice.keepN_truthy
           default id Z.gtb Z.ltb Z.eqb Z.compare Pos.compare Pos.compare_cont
           orb andb negb truthy Z.to_nat Pos.to_nat Pos.iter_op Init.Nat.add].
      change (Dice.roll_dice rnd 2 20) with [a; b].
      unfold sort_by, Dice.keep_le. simpl.
      by destruct (a - b <=? 0). }
    rewrite Em. destruct (a - b <=? 0) eqn:Ec.
    + apply Z.leb_le in Ec. assert (Z.min a b = a) as -> by lia.
      eexists. split; [reflexivity|]. rewrite sum_cons. unfold Dice.sum. simpl. lia.
    + apply Z.leb_gt in Ec. assert (Z.min a b = b) as -> by lia.
      eexists. split; [reflexivity|]. rewrite sum_cons. unfold Dice.sum. simpl. lia.
Qed.

Lemma alias_keeps_extreme_witness :
  exists t, Dice.rollAdvanced (fun i => (Z.of_nat i # 2)%Q) " D20 Adv "
            = Ok (Dice.mkRoll "2d20kh1" [1; 11] [11] 0 t) /\ t = 11.
Proof.
  destruct (alias_keeps_extreme (fun i => (Z.of_nat i # 2)%Q) " D20 Adv ") as [H _].
  destruct (H (or_intror eq_refl)) as (t & E & Ht).
  exists t. split; [exact E | exact Ht].
Defined.

(** X2. A keep-modifier with N of at least 1 keeps exactly N dice and
    drops the others: kept and dropped dice together are the rolled dice,
    with kh no dropped die is higher than a kept one, with kl none is lower. *)
Theorem keep_selects_extremes (rnd : nat -> Q) (exprRaw : string) (m : Dice.Match)
    (r : Dice.Roll) (km : string) (n : Z) :
  Dice.DICE_ADV (Dice.normalize (Dice.resolve_alias exprRaw)) = Some m ->
  Dice.rollAdvanced rnd exprRaw = Ok r ->
  Dice.keepMode (Dice.fields m) = Some km -> Dice.keepN (Dice.fields m) = Some n ->
  n <> 0 ->
  exists dropped,
    Permutation (Dice.used r ++ dropped) (Dice.rolls r)
    /\ length (Dice.used r) = Z.to_nat n
    /\ length dropped = (length (Dice.rolls r) - Z.to_nat n)%nat
    /\ (km = "h" -> forall u d, In u (Dice.used r) -> In d dropped -> d <= u)
    /\ (km = "l" -> forall u d, In u (Dice.used r) -> In d dropped -> u <= d).
Proof.
  intros Hm Hr Hkm Hn Hn0.
  destruct (rollAdvanced_Ok rnd exprRaw m r Hm Hr) as (Hc & _ & Hrolls & _ & _ & _ & Hused).
  rewrite Hkm, Hn in Hused.
  assert (Hl : km = "h" \/ km = "l").
  { apply (keepMode_letter (Dice.normalize (Dice.resolve_alias exprRaw)) m);
      [apply toLowerCase_all_lower | done | done]. }
  assert (Ht : (truthy km && negb (n =? 0))%bool = true).
  { apply Z.eqb_neq in Hn0. rewrite Hn0. by destruct Hl as [-> | ->]. }
  rewrite Ht in Hused. destruct Hused as [Hrange Hused].
  set (rs := Dice.roll_dice rnd (Dice.count (Dice.fields m)) (Dice.sides (Dice.fields m))) in *.
  set (srt := sort_by (Dice.keep_le km) rs) in *.
  assert (Hlen : length srt = Z.to_nat (Dice.count (Dice.fields m))).
  { unfold srt. rewrite (Permutation_length (sort_by_perm _ rs)). apply roll_dice_length. }
  exists (skipn (Z.to_nat n) srt). rewrite Hused, Hrolls.
  split; [rewrite firstn_skipn; apply sort_by_perm|].
  split; [rewrite length_take; lia|].
  split; [rewrite length_drop, Hlen; unfold rs; rewrite roll_dice_length; lia|].
  split; intros ->.
  - intros u d Hu Hd. apply Z.ge_le.
    apply (Sorted_split Z.ge srt (Z.to_nat n)); try done.
    + intros x y z. lia.
    + apply sort_keep_h.
  - intros u d Hu Hd.
    apply (Sorted_split Z.le srt (Z.to_nat n)); try done.
    + intros x y z. lia.
    + apply sort_keep_l.
Qed.

Lemma keep_selects_extremes_witness :
  exists dropped,
    Permutation ([5; 4; 2] ++ dropped) [1; 2; 4; 5] /\ length dropped = 1%nat
    /\ forall u d, In u [5; 4; 2] -> In d dropped -> d <= u.
Proof.
  destruct (keep_selects_extremes (fun i => (Z.of_nat (i mod 4) # 4)%Q) "4d6kh3+2"
              (Dice.mkMatch "4" "6" (Some "kh3") (Some "3") (Some "+2"))
              (Dice.mkRoll "4d6kh3+2" [1; 2; 4; 5] [5; 4; 2] 2 13) "h" 3)
    as (dropped & Hp & _ & Hl & Hh & _).
  - reflexivity.
  - reflexivity.
  - reflexivity.
  - reflexivity.
  - discriminate.
  - exists dropped. split; [exact Hp|]. split; [exact Hl|]. exact (Hh eq_refl).
Defined.



(** ** What one call does to a lobby and what it sends *)

Ltac gm_hyp :=
  repeat match goal with
  | H : negb _ = false |- _ => apply negb_false_iff in H
  | H : negb _ = true |- _ => apply negb_true_iff in H
  end.

Ltac unfold_handler :=
  cbv beta delta
    [ chat roll character_upsert character_delete map_request map_init map_set token_add
      token_move token_remove map_clear ping campaign_load campaign_get campaign_start
      campaign_update_meta campaign_scene_add campaign_scene_set campaign_choice_add
      campaign_handout_add campaign_quest_add campaign_quest_toggle campaign_note_add
      campaign_choice_pick campaign_choice_request campaign_choice_ack
      campaign_choice_force disconnect ].

Ltac eval_cmd := cbn [String.eqb Ascii.eqb Bool.eqb].

Lemma emitState_ok (ln : string) (L : Lobby) : Forall (emit_ok ln L) (emitState ln L).
Proof. by repeat constructor. Qed.

Lemma emitMap_ok (ln : string) (L : Lobby) : Forall (emit_ok ln L) (emitMap ln L).
Proof. by repeat constructor. Qed.

Lemma notices_ok (ln : string) (L : Lobby) : Forall (emit_ok ln L) (character_notices L).
Proof.
  unfold character_notices. induction (users L) as [|[sk nm] us IH]; simpl; [constructor|].
  apply Forall_app. split; [|done].
  destruct (negb _); repeat constructor. by exists sk.
Qed.

Ltac emit_one :=
  first [ exact I | (eexists; reflexivity) | (split; [reflexivity | apply last_snoc])
        | (split; reflexivity) | reflexivity
        | (split; [eexists; reflexivity | repeat split; reflexivity]) ].

Ltac out_ok :=
  cbn [fst snd];
  repeat first
    [ apply List.Forall_nil
    | apply emitState_ok | apply emitMap_ok | apply notices_ok
    | apply Forall_app; split
    | apply List.Forall_cons; [emit_one|] ].

Section Changes.
Context (env : Env).

Lemma with_lobby_rel (R : Lobby -> Lobby -> Prop) (c : Conn) (mem : gmap string Lobby)
    (k : string -> Lobby -> Lobby * list Emit) :
  (forall L, R L L) ->
  (forall ln L, R L (fst (k ln L))) ->
  forall ln L', snd (fst (with_lobby env c mem k)) !! ln = Some L' ->
  exists L0, (mem !! ln = Some L0 \/ (mem !! ln = None /\ L0 = newLobby env)) /\ R L0 L'.
Proof.
  intros Hrefl Hk ln L' H. unfold with_lobby in H.
  destruct (lobby c) as [ln0|]; simpl in H.
  - unfold ensureLobby in H. destruct (mem !! ln0) as [L|] eqn:E.
    + specialize (Hk ln0 L). destruct (k ln0 L) as [L1 out]. simpl in *.
      destruct (decide (ln = ln0)) as [->|Hne].
      * rewrite lookup_insert_eq in H. inversion H; subst. exists L. auto.
      * rewrite lookup_insert_ne in H by done. exists L'. auto.
    + specialize (Hk ln0 (newLobby env)). destruct (k ln0 (newLobby env)) as [L1 out]. simpl in *.
      destruct (decide (ln = ln0)) as [->|Hne].
      * rewrite lookup_insert_eq in H. inversion H; subst. exists (newLobby env). auto.
      * rewrite !lookup_insert_ne in H by done. exists L'. auto.
  - exists L'. auto.
Qed.

Lemma slice0_length (n : nat) (s : string) : (String.length (slice0 n s) <= n)%nat.
Proof.
  unfold slice0. revert s. induction n as [|n IH]; intros [|a s]; simpl; try lia.
  specialize (IH s). lia.
Qed.

Lemma safe_length (s : string) (max : nat) : (String.length (safe s max) <= max)%nat.
Proof. apply slice0_length. Qed.

Lemma start_campaign_change (c : Conn) (ln : string) (L : Lobby) (already : string) :
  change env c L (fst (start_campaign c ln L already)).
Proof.
  unfold start_campaign. repeat case_match; simplify_eq; gm_hyp; simpl;
    first [apply ch_none | by apply ch_start].
Qed.


Lemma start_campaign_out (c : Conn) (ln : string) (L : Lobby) (already : string) :
  Forall (emit_ok ln (fst (start_campaign c ln L already))) (snd (start_campaign c ln L already)).
Proof. unfold start_campaign. repeat case_match; out_ok. Qed.

Lemma commit_choice_out (ln : string) (L : Lobby) (p : Pending) (note : string) :
  Forall (emit_ok ln (fst (commit_choice ln L p note))) (snd (commit_choice ln L p note)).
Proof. unfold commit_choice. repeat case_match; simplify_eq; out_ok. Qed.

(** The slash commands, in one pass: what the command does to the lobby
    and what it sends. *)
Lemma handleCommand_effect (c : Conn) (ln : string) (L : Lobby) (line : string) :
  change env c L (fst (handleCommand env c ln L line))
  /\ Forall (emit_ok ln (fst (handleCommand env c ln L line)))
            (snd (handleCommand env c ln L line)).
Proof.
  set (P := fun r : Lobby * list Emit =>
              change env c L (fst r) /\ Forall (emit_ok ln (fst r)) (snd r)).
  change (P (handleCommand env c ln L line)).
  unfold handleCommand.
  repeat case_match; simplify_eq; unfold P;
    (split;
     [ gm_hyp; cbn [fst];
       first [ apply ch_none | apply start_campaign_change
             | by apply ch_ban | by apply ch_unban | by apply ch_encounter
             | by eapply ch_kick
             | by apply ch_macros
             | by apply ch_setpass | by apply ch_setpass_gm
             | by apply ch_roll
             | apply ch_campaign; [done|];
               first [apply ce_meta | by apply ce_scene | by eapply ce_pointer] ]
     | first [apply start_campaign_out | out_ok] ]).
Qed.

Lemma handleCommand_change (c : Conn) (ln : string) (L : Lobby) (line : string) :
  change env c L (fst (handleCommand env c ln L line)).
Proof. apply handleCommand_effect. Qed.

Lemma handleCommand_out (c : Conn) (ln : string) (L : Lobby) (line : string) :
  Forall (emit_ok ln (fst (handleCommand env c ln L line))) (snd (handleCommand env c ln L line)).
Proof. apply handleCommand_effect. Qed.

Lemma sheet_ok_upsert (c : Conn) (sheet : SheetIn) (ts : string) :
  sheet_ok
    (mkSheet (safe (or_default (in_name sheet) (username c)) 24)
       (safe (in_archetype sheet) 20) (safe (in_race sheet) 20)
       (clamp (parseInt_or (in_speed sheet) 30) 0 120)
       (safe (in_profs sheet) 200) (safe (in_traits sheet) 800) (safe (in_class sheet) 24)
       (clamp (parseInt_or (in_level sheet) 1) 1 20)
       (clamp (parseInt_or (in_ac sheet) 10) 1 30)
       (clamp (parseInt_or (in_hp sheet) 10) 0 1000)
       (clamp (parseInt_or (in_maxHp sheet) 10) 1 1000)
       (safe (in_notes sheet) 2000)
       (map (fun i : nat =>
               clamp (parseInt_or (default VUndefined (in_abilities sheet !! i)) 8) 1 30)
            (seq 0 6))
       ts).
Proof.
  unfold sheet_ok. cbn [sheet_speed sheet_level sheet_ac sheet_hp sheet_maxHp sheet_abilities
    sheet_name sheet_archetype sheet_race sheet_profs sheet_traits sheet_class sheet_notes].
  repeat split; try (apply clamp_range; lia); try apply safe_length.
  apply Forall_map, Forall_forall. intros i _. apply clamp_range. lia.
Qed.

Lemma join_lobby_registry (c : Conn) (mem : gmap string Lobby)
    (lobbyName password : option string) :
  snd (fst (join_lobby env c mem lobbyName password)) =
    let ln := join_target lobbyName in
    let '(mem1, L) := ensureLobby env ln mem in
    if negb (joinOk L (username c)) then mem1
    else match join_gate env c L password with
         | None => mem1
         | Some L2 =>
             <[ln := set_users (oset (sid c) (uniqueName L2 (username c)) (users L2)) L2]> mem1
         end.
Proof.
  unfold join_lobby. cbv zeta. destruct (ensureLobby env _ mem) as [mem1 L].
  destruct (negb (joinOk L (username c))); [done|].
  by destruct (join_gate env c L password).
Qed.

Lemma join_change (c : Conn) (mem : gmap string Lobby) (lobbyName password : option string) :
  forall ln L', snd (fst (join_lobby env c mem lobbyName password)) !! ln = Some L' ->
  exists L0, (mem !! ln = Some L0 \/ (mem !! ln = None /\ L0 = newLobby env))
             /\ change env c L0 L'.
Proof.
  intros ln L'. rewrite join_lobby_registry. cbv zeta.
  set (ln0 := join_target lobbyName).
  assert (Hgo : forall (L : Lobby) (mem1 : gmap string Lobby),
            mem !! ln0 = Some L \/ (mem !! ln0 = None /\ L = newLobby env) ->
            mem1 !! ln0 = Some L -> (forall l, l <> ln0 -> mem1 !! l = mem !! l) ->
            (if negb (joinOk L (username c)) then mem1
             else match join_gate env c L password with
                  | None => mem1
                  | Some L2 =>
                      <[ln0 := set_users (oset (sid c) (uniqueName L2 (username c)) (users L2)) L2]> mem1
                  end) !! ln = Some L' ->
            exists L0, (mem !! ln = Some L0 \/ (mem !! ln = None /\ L0 = newLobby env))
                       /\ change env c L0 L').
  { intros L mem1 HL H1 H2.
    assert (Hsame : mem1 !! ln = Some L' ->
              exists L0, (mem !! ln = Some L0 \/ (mem !! ln = None /\ L0 = newLobby env))
                         /\ change env c L0 L').
    { intros H. destruct (decide (ln = ln0)) as [->|Hne].
      - rewrite H1 in H. inversion H; subst. exists L'. split; [done | apply ch_none].
      - rewrite H2 in H by done. exists L'. split; [auto | apply ch_none]. }
    destruct (negb (joinOk L (username c))) eqn:Eb; [done|].
    apply negb_false_iff in Eb.
    destruct (join_gate env c L password) as [L2|] eqn:Eg; [|done].
    intros H. destruct (decide (ln = ln0)) as [->|Hne].
    - rewrite lookup_insert_eq in H. inversion H; subst. exists L. split; [done|].
      by eapply ch_join.
    - rewrite lookup_insert_ne in H by done. by apply Hsame. }
  unfold ensureLobby. destruct (mem !! ln0) as [L|] eqn:E.
  - apply Hgo; auto.
  - apply Hgo; [auto | apply lookup_insert_eq |].
    intros l Hl. by rewrite lookup_insert_ne.
Qed.

Lemma handle_change (c : Conn) (mem : gmap string Lobby) (ev : Event) :
  forall ln L', snd (fst (handle env c mem ev)) !! ln = Some L' ->
  exists L0, (mem !! ln = Some L0 \/ (mem !! ln = None /\ L0 = newLobby env))
             /\ change env c L0 L'.
Proof.
  destruct ev; simpl;
    try (first [ unfold chat | unfold roll | unfold character_upsert | unfold character_delete
               | unfold map_request | unfold map_init | unfold map_set | unfold token_add
               | unfold token_move | unfold token_remove | unfold map_clear | unfold ping
               | unfold campaign_load | unfold campaign_get | unfold campaign_start
               | unfold campaign_update_meta | unfold campaign_scene_add
               | unfold campaign_scene_set | unfold campaign_choice_add
               | unfold campaign_handout_add | unfold campaign_quest_add
               | unfold campaign_quest_toggle | unfold campaign_note_add
               | unfold campaign_choice_pick
               | unfold campaign_choice_request | unfold campaign_choice_ack
               | unfold campaign_choice_force | unfold disconnect ];
         apply with_lobby_rel; [intros; apply ch_none|]; intros ln0 L0;
         repeat (first [progress cbv beta zeta | case_match]); simplify_eq; gm_hyp; cbn [fst];
         first [ apply ch_none | apply handleCommand_change | apply start_campaign_change
               | apply ch_leave
               | by apply ch_roll
               | apply ch_chat; [done | done | done | apply safe_length]
               | by apply ch_note
               | match goal with H : campaignRegistry env ?k = Some ?p |- _ =>
                   by apply (ch_load env c L0 k p) end
               | by eapply ch_request
               | by eapply ch_pick
               | by eapply ch_ack
               | by eapply ch_force
               | by eapply ch_ack_commit
               | by apply ch_sheet_delete
               | apply (ch_sheet env c L0 (mkSheet _ _ _ _ _ _ _ _ _ _ _ _ _ _));
                 [done | apply sheet_ok_upsert]
               | apply ch_campaign; [done|];
                 first [ apply ce_meta | by apply ce_scene | by eapply ce_pointer | apply ce_choice
                       | apply ce_handout | by apply ce_quest | by eapply ce_toggle ]
               | apply ch_map;
                 first [ by apply me_clear | by eapply me_token_remove | by eapply me_token_move
                       | apply me_init; [done | apply clamp_range; lia | apply clamp_range; lia]
                       | apply me_set; [done | auto | done]
                       | match goal with H : first_free _ = (?x, ?y) |- _ =>
                           change x with (fst (x, y)); change y with (snd (x, y)) at 2;
                           rewrite <- H; apply me_token_add; [done | apply safe_length]
                         end ]
               | idtac ]).
  - intros ln L' H. exists L'. split; [auto | apply ch_none].
  - apply join_change.
Qed.

End Changes.

(** ** Insertion-ordered maps *)

Section OMapFacts.
Context {V : Type}.
Implicit Types (k : string) (v : V) (m : list (string * V)).

Lemma oget_oset_eq k v m : oget k (oset k v m) = Some v.
Proof.
  induction m as [|[k' v'] m IH]; simpl.
  - by rewrite String.eqb_refl.
  - destruct (String.eqb k k') eqn:E; simpl; [by rewrite String.eqb_refl|].
    by rewrite E.
Qed.

Lemma oget_oset_ne k k' v m : k' <> k -> oget k' (oset k v m) = oget k' m.
Proof.
  intros Hne. induction m as [|[k2 v2] m IH]; simpl.
  - by apply String.eqb_neq in Hne as ->.
  - destruct (String.eqb k k2) eqn:E; simpl.
    + apply String.eqb_eq in E. subst k2. by apply String.eqb_neq in Hne as ->.
    + by rewrite IH.
Qed.

Lemma oget_odelete_eq k m : oget k (odelete k m) = None.
Proof.
  unfold odelete. induction m as [|[k' v'] m IH]; simpl; [done|].
  destruct (String.eqb k k') eqn:E; simpl; [done|]. by rewrite E.
Qed.

Lemma oget_odelete_ne k k' m : k' <> k -> oget k' (odelete k m) = oget k' m.
Proof.
  intros Hne. unfold odelete. induction m as [|[k2 v2] m IH]; simpl; [done|].
  destruct (String.eqb k k2) eqn:E; simpl.
  - apply String.eqb_eq in E. subst k2. by apply String.eqb_neq in Hne as ->.
  - by rewrite IH.
Qed.

Lemma oget_In k v m : oget k m = Some v -> In (k, v) m.
Proof.
  induction m as [|[k' v'] m IH]; simpl; [done|].
  destruct (String.eqb k k') eqn:E.
  - apply String.eqb_eq in E. intros [= ->]. left. by subst.
  - auto.
Qed.

Lemma oset_Forall (P : string * V -> Prop) k v m :
  Forall P m -> P (k, v) -> Forall P (oset k v m).
Proof.
  intros Hm Hp. induction Hm as [|[k' v'] m Hx Hm IH]; simpl.
  - by repeat constructor.
  - destruct (String.eqb k k'); by constructor.
Qed.

Lemma odelete_Forall (P : string * V -> Prop) k m :
  Forall P m -> Forall P (odelete k m).
Proof.
  intros Hm. unfold odelete. induction Hm as [|[k' v'] m Hx Hm IH]; simpl; [done|].
  destruct (negb (String.eqb k k')); [by constructor | done].
Qed.

Lemma oset_keys_In k v m (x : string) :
  In x (map fst (oset k v m)) -> x = k \/ In x (map fst m).
Proof.
  induction m as [|[k' v'] m IH]; simpl.
  - intros [->|[]]. by left.
  - destruct (String.eqb k k') eqn:E; simpl.
    + apply String.eqb_eq in E. subst. intros [->|Hx]; auto.
    + intros [->|Hx]; [auto|]. destruct (IH Hx); auto.
Qed.

Lemma oset_keys_NoDup k v m : NoDup (map fst m) -> NoDup (map fst (oset k v m)).
Proof.
  induction m as [|[k' v'] m IH]; simpl; intros Hnd.
  - apply NoDup_singleton.
  - apply NoDup_cons in Hnd as [Hk Hnd].
    destruct (String.eqb k k') eqn:E; simpl.
    + apply String.eqb_eq in E. subst. by apply NoDup_cons.
    + apply NoDup_cons. split; [|by apply IH].
      rewrite list_elem_of_In. intros Hx.
      destruct (oset_keys_In _ _ _ _ Hx) as [->|Hx'].
      * by rewrite String.eqb_refl in E.
      * by apply list_elem_of_In in Hx'.
Qed.

Lemma odelete_keys_NoDup k m : NoDup (map fst m) -> NoDup (map fst (odelete k m)).
Proof.
  unfold odelete. induction m as [|[k' v'] m IH]; simpl; [done|].
  intros [Hk Hnd]%NoDup_cons. destruct (negb (String.eqb k k')); simpl; [|auto].
  apply NoDup_cons. split; [|auto].
  rewrite list_elem_of_In, in_map_iff. intros ([k2 v2] & <- & Hin).
  apply filter_In in Hin as [Hin _]. apply Hk, list_elem_of_In, in_map_iff.
  by exists (k2, v2).
Qed.

End OMapFacts.


(** ** Consequences of the effect relation *)

Section Consequences.

Lemma join_gate_fields (env : Env) (c : Conn) (L L2 : Lobby) (password : option string) :
  join_gate env c L password = Some L2 ->
  createdAt L2 = createdAt L /\ bans L2 = bans L /\ users L2 = users L
  /\ macros L2 = macros L /\ messages L2 = messages L /\ rolls L2 = rolls L
  /\ characters L2 = characters L /\ encounter L2 = encounter L /\ lmap L2 = lmap L
  /\ campaign L2 = campaign L /\ settings L2 = settings L
  /\ (truthy_opt (passwordHash L) = true -> passwordHash L2 = passwordHash L).
Proof.
  unfold join_gate. intros H.
  repeat (first [progress cbv beta zeta in H | case_match]); simplify_eq; simpl;
    repeat split; try done; intros; congruence.
Qed.

Lemma handle_step (env : Env) (c : Conn) (mem : gmap string Lobby) (ev : Event)
    (ln : string) (L0 L' : Lobby) :
  mem !! ln = Some L0 -> snd (fst (handle env c mem ev)) !! ln = Some L' ->
  change env c L0 L'.
Proof.
  intros Hm H. destruct (handle_change env c mem ev ln L' H) as (L1 & [H1|[H1 _]] & Hc).
  - rewrite Hm in H1. by inversion H1; subst.
  - by rewrite Hm in H1.
Qed.

Lemma reachable_change (P : Lobby -> Prop) :
  (forall env, P (newLobby env)) ->
  (forall env c L0 L', change env c L0 L' -> P L0 -> P L') ->
  forall mem, reachable mem -> forall ln L, mem !! ln = Some L -> P L.
Proof.
  intros Hnew Hstep mem Hr. induction Hr as [|env c mem ev Hr IH]; intros ln L H.
  - by rewrite lookup_empty in H.
  - destruct (handle_change env c mem ev ln L H) as (L0 & [H0|[_ ->]] & Hf).
    + apply (Hstep env c L0 L Hf). by apply (IH ln).
    + by apply (Hstep env c (newLobby env) L Hf).
Qed.

Lemma commit_choice_eq (ln : string) (L : Lobby) (p : Pending) (note : string) :
  fst (commit_choice ln L p note)
  = set_settings (set_pending None (settings L))
      (match find_scene (pend_to p) (campaign L) with
       | Some target => set_campaign (set_currentSceneId (Some (scene_id target)) (campaign L)) L
       | None => L
       end).
Proof. unfold commit_choice. by destruct (find_scene _ _). Qed.

Ltac change_cases H :=
  destruct H as
    [ | password L2 Hok Hgate | | m Hplay Hu Ht Hlen | r Hplay Hu | sh Hself Hsh | target Hself
    | m' Hmap | cp' Hgm Hedit | n Hby Ht | choiceId scene choice target Hcur Hch Hto
    | key picked Hgm Hreg | Hgm Hst | choiceId scene choice ts Hgm Hst Hcur Hch
    | p Hp | ln p note Hp p' L1 Hq | ln p note Hgm Hp | mp | h Hpw Hg | h Hpw Hg
    | target targetId nm Hgm Hfind | x Hgm | x Hgm | e Hgm ].

(** The fields that no handler writes. *)
Lemma change_constants (env : Env) (c : Conn) (L0 L' : Lobby) :
  change env c L0 L' ->
  createdAt L' = createdAt L0
  /\ lockedUntilStart (settings L') = lockedUntilStart (settings L0)
  /\ requireCharacter (settings L') = requireCharacter (settings L0).
Proof.
  intros H. change_cases H; try rewrite commit_choice_eq; try done.
  - destruct (join_gate_fields _ _ _ _ _ Hgate) as (E1 & _ & _ & _ & _ & _ & _ & _ & _ & _ & E2 & _).
    simpl. by rewrite E1, E2.
  - subst L1 p'. by destruct (find_scene _ _).
  - by destruct (find_scene _ _).
Qed.


(** *** The map *)

Lemma open_grid_ok (w h : Z) :
  length (open_grid w h) = Z.to_nat h
  /\ Forall (fun row => length row = Z.to_nat w /\ Forall (fun v => v = 0 \/ v = 1) row)
            (open_grid w h).
Proof.
  unfold open_grid. split; [apply repeat_length|].
  apply List.Forall_forall. intros row Hrow. apply repeat_spec in Hrow. subst row.
  split; [apply repeat_length|]. apply List.Forall_forall. intros v Hv.
  apply repeat_spec in Hv. by left.
Qed.

Lemma cells_In (w h x y : Z) :
  In (x, y) (cells w h) -> 0 <= x < w /\ 0 <= y < h.
Proof.
  unfold cells. rewrite in_flat_map. intros (yy & Hy & Hx).
  apply in_map_iff in Hx as (xx & [= <- <-] & Hx).
  apply in_seq in Hy, Hx. lia.
Qed.

Lemma first_free_range (m : MapState) :
  1 <= map_w m -> 1 <= map_h m ->
  0 <= fst (first_free m) < map_w m /\ 0 <= snd (first_free m) < map_h m.
Proof.
  intros Hw Hh. unfold first_free.
  destruct (find _ (cells (map_w m) (map_h m))) as [[x y]|] eqn:E; simpl; [|lia].
  apply find_some in E as [Hin _]. by apply cells_In.
Qed.

Lemma map_edit_ok (c : Conn) (L : Lobby) (m m' : MapState) :
  map_edit c L m m' -> map_ok m -> map_ok m'.
Proof.
  intros H (Hw & Hh & Hlen & Hrows & Htoks & Hnd).
  destruct H as [w h Hgm Hw' Hh' | px py v row Hgm Hv Hrow | Hgm | tid nm col Hplay Hlen'
                 | id tok px py Hplay Hget Hown Hwall | id tok Hplay Hget Hown];
    unfold map_ok; cbn [map_w map_h tiles tokens].
  - destruct (open_grid_ok w h) as [E1 E2]. repeat split; try done; try lia; constructor.
  - repeat split; try done; try lia.
    + by rewrite length_insert.
    + apply Forall_insert; [done|].
      pose proof (proj1 (List.Forall_forall _ _) Hrows row) as Hr.
      destruct Hr as [Hl Hc]; [by apply list_elem_of_In, (list_elem_of_lookup_2 _ _ _ Hrow)|].
      pose proof (clamp_range px 0 (map_w m - 1)) as Hx.
      unfold array_set.
      destruct (Z.to_nat (clamp px 0 (map_w m - 1)) <? length row)%nat eqn:E.
      * split; [by rewrite length_insert|]. apply Forall_insert; [done|].
        destruct Hv; auto.
      * apply Nat.ltb_ge in E. lia.
  - destruct (open_grid_ok (map_w m) (map_h m)) as [E1 E2]. repeat split; try done; lia.
  - destruct (first_free_range m) as [Hx Hy]; [lia | lia |].
    repeat split; try done; try lia.
    + by apply oset_Forall.
    + by apply oset_keys_NoDup.
  - pose proof (clamp_range px 0 (map_w m - 1)) as Hx.
    pose proof (clamp_range py 0 (map_h m - 1)) as Hy.
    repeat split; try done; try lia.
    + apply oset_Forall; [done|]. cbn [fst snd tok_id tok_x tok_y].
      apply oget_In in Hget.
      pose proof (proj1 (List.Forall_forall _ _) Htoks _ Hget) as (Hid & _). simpl in Hid.
      split; [done|]. lia.
    + by apply oset_keys_NoDup.
  - repeat split; try done; try lia.
    + by apply odelete_Forall.
    + by apply odelete_keys_NoDup.
Qed.

Lemma change_map_ok (env : Env) (c : Conn) (L0 L' : Lobby) :
  change env c L0 L' -> map_ok (lmap L0) -> map_ok (lmap L').
Proof.
  intros H Hinv. change_cases H; try rewrite commit_choice_eq; try done.
  - destruct (join_gate_fields _ _ _ _ _ Hgate) as (_ & _ & _ & _ & _ & _ & _ & _ & E & _).
    simpl. by rewrite E.
  - by apply (map_edit_ok c L0 (lmap L0)).
  - subst L1 p'. by destruct (find_scene _ _).
  - by destruct (find_scene _ _).
Qed.

Lemma defaultMap_ok : map_ok defaultMap.
Proof.
  unfold map_ok, defaultMap. cbn [map_w map_h tiles tokens].
  destruct (open_grid_ok 20 20) as [E1 E2].
  repeat split; try done; try lia; constructor.
Qed.

(** *** What a caller who is not the GM cannot change *)

Lemma change_player (env : Env) (c : Conn) (L0 L' : Lobby) :
  change env c L0 L' -> isGM c L0 = false ->
  bans L' = bans L0 /\ encounter L' = encounter L0
  /\ map_w (lmap L') = map_w (lmap L0) /\ map_h (lmap L') = map_h (lmap L0)
  /\ tiles (lmap L') = tiles (lmap L0)
  /\ camp_title (campaign L') = camp_title (campaign L0)
  /\ camp_summary (campaign L') = camp_summary (campaign L0)
  /\ scenes (campaign L') = scenes (campaign L0)
  /\ handouts (campaign L') = handouts (campaign L0)
  /\ quests (campaign L') = quests (campaign L0)
  /\ campaignStarted (settings L') = campaignStarted (settings L0)
  /\ (truthy_opt (passwordHash L0) = true -> passwordHash L' = passwordHash L0)
  /\ (pending (settings L0) = None -> pending (settings L') = None)
  /\ (forall k, k <> sid c -> oget k (users L') = oget k (users L0)).
Proof.
  intros H Hpl. change_cases H; try rewrite commit_choice_eq; try congruence;
    try (repeat split; done).
  - destruct (join_gate_fields _ _ _ _ _ Hgate)
      as (_ & E1 & E2 & _ & _ & _ & _ & E3 & E4 & E5 & E6 & E7).
    cbn [bans encounter lmap campaign settings passwordHash users set_users].
    rewrite E1, E2, E3, E4, E5, E6. repeat split; try done.
    intros k Hk. by apply oget_oset_ne.
  - cbn [bans encounter lmap campaign settings passwordHash users set_users].
    repeat split; try done. intros k Hk. by apply oget_odelete_ne.
  - destruct Hmap; try congruence; repeat split; done.
  - repeat split; try done. cbn [settings set_settings pending set_pending]. congruence.
  - subst L1 p'. destruct (find_scene _ _); repeat split; done.
  - repeat split; try done. cbn [passwordHash set_passwordHash].
    apply andb_false_iff in Hpw as [Hpw|Hpw]; [congruence|].
    apply negb_false_iff in Hpw. congruence.
  - repeat split; try done. cbn [passwordHash set_passwordHash set_gm].
    apply andb_false_iff in Hpw as [Hpw|Hpw]; [congruence|].
    apply negb_false_iff in Hpw. congruence.
Qed.

(** *** The chat and roll histories *)

Lemma change_logs (env : Env) (c : Conn) (L0 L' : Lobby) :
  change env c L0 L' ->
  (messages L' = messages L0 /\ rolls L' = rolls L0)
  \/ (exists m, messages L' = messages L0 ++ [m] /\ rolls L' = rolls L0
        /\ chat_user m = username c /\ chat_text m <> EmptyString
        /\ (String.length (chat_text m) <= 500)%nat
        /\ (isLockedForPlayers L0 = false \/ isGM c L0 = true))
  \/ (exists r, rolls L' = rolls L0 ++ [r] /\ messages L' = messages L0
        /\ roll_user r = username c
        /\ (isLockedForPlayers L0 = false \/ isGM c L0 = true)).
Proof.
  assert (Hmp : forall L, may_play c L -> isLockedForPlayers L = false \/ isGM c L = true).
  { intros L Hp. apply andb_false_iff in Hp as [Hp|Hp]; [by left|].
    right. by apply negb_false_iff in Hp. }
  intros H. change_cases H; try rewrite commit_choice_eq; try (by left).
  - destruct (join_gate_fields _ _ _ _ _ Hgate) as (_ & _ & _ & _ & E1 & E2 & _).
    left. simpl. by rewrite E1, E2.
  - right. left. exists m. repeat split; try done; [|by apply Hmp].
    intros E. by rewrite E in Ht.
  - right. right. exists r. repeat split; try done. by apply Hmp.
  - left. subst L1 p'. by destruct (find_scene _ _).
  - left. by destruct (find_scene _ _).
Qed.

(** *** Macros and character sheets *)

Lemma change_macros (env : Env) (c : Conn) (L0 L' : Lobby) (who : string) :
  change env c L0 L' -> who <> username c -> oget who (macros L') = oget who (macros L0).
Proof.
  intros H Hn. change_cases H; try rewrite commit_choice_eq; try done.
  - destruct (join_gate_fields _ _ _ _ _ Hgate) as (_ & _ & _ & E & _).
    simpl. by rewrite E.
  - subst L1 p'. by destruct (find_scene _ _).
  - by destruct (find_scene _ _).
  - simpl. by apply oget_oset_ne.
Qed.

Lemma gm_or_self_player (c : Conn) (L : Lobby) (target : string) :
  gm_or_self c L target -> isGM c L = false -> target = username c.
Proof.
  intros H Hgm. unfold gm_or_self in H. rewrite Hgm in H. simpl in H.
  apply negb_false_iff in H. by apply String.eqb_eq.
Qed.

Lemma change_sheets (env : Env) (c : Conn) (L0 L' : Lobby) (who : string) :
  change env c L0 L' -> isGM c L0 = false -> who <> username c ->
  oget who (characters L') = oget who (characters L0).
Proof.
  intros H Hpl Hn. change_cases H; try rewrite commit_choice_eq; try done.
  - destruct (join_gate_fields _ _ _ _ _ Hgate) as (_ & _ & _ & _ & _ & _ & E & _).
    simpl. by rewrite E.
  - simpl. apply oget_oset_ne. by rewrite (gm_or_self_player c L0 _ Hself Hpl).
  - simpl. apply oget_odelete_ne. by rewrite (gm_or_self_player c L0 _ Hself Hpl).
  - subst L1 p'. by destruct (find_scene _ _).
  - by destruct (find_scene _ _).
Qed.


Lemma change_sheets_ok (env : Env) (c : Conn) (L0 L' : Lobby) :
  change env c L0 L' -> sheets_ok L0 -> sheets_ok L'.
Proof.
  intros H [Hall Hnd]. unfold sheets_ok.
  change_cases H; try rewrite commit_choice_eq; try done.
  - destruct (join_gate_fields _ _ _ _ _ Hgate) as (_ & _ & _ & _ & _ & _ & E & _).
    simpl. by rewrite E.
  - simpl. split; [by apply oset_Forall | by apply oset_keys_NoDup].
  - simpl. split; [by apply odelete_Forall | by apply odelete_keys_NoDup].
  - subst L1 p'. by destruct (find_scene _ _).
  - by destruct (find_scene _ _).
Qed.

(** *** Tokens of other owners *)

Lemma change_tokens (env : Env) (c : Conn) (L0 L' : Lobby) (id : string) (t : Token) :
  change env c L0 L' -> isGM c L0 = false ->
  oget id (tokens (lmap L0)) = Some t -> tok_owner t <> username c ->
  oget id (tokens (lmap L')) = Some t
  \/ (exists t', oget id (tokens (lmap L')) = Some t' /\ tok_owner t' = username c
        /\ tok_id t' = id
        /\ (tok_x t', tok_y t') = first_free (lmap L0)).
Proof.
  intros H Hpl Hget Hown. change_cases H; try rewrite commit_choice_eq; try (by left).
  - destruct (join_gate_fields _ _ _ _ _ Hgate) as (_ & _ & _ & _ & _ & _ & _ & _ & E & _).
    left. simpl. by rewrite E.
  - cbn [lmap set_lmap].
    destruct Hmap as [w h Hgm' Hw' Hh' | px py v row Hgm' Hv Hrow | Hgm' | tid nm col Hplay Hlen'
                     | id2 tok px py Hplay Hget2 Hown2 Hwall | id2 tok Hplay Hget2 Hown2];
      cbn [tokens]; try congruence; try (by left).
    + destruct (decide (id = tid)) as [->|Hne].
      * right. eexists. rewrite oget_oset_eq. split; [done|]. simpl.
        split; [done|]. split; [done|]. by destruct (first_free (lmap L0)).
      * left. by rewrite oget_oset_ne.
    + left. rewrite Hpl in Hown2. simpl in Hown2. apply negb_false_iff, String.eqb_eq in Hown2.
      rewrite oget_oset_ne; [done|]. intros ->. congruence.
    + left. rewrite Hpl in Hown2. simpl in Hown2. apply negb_false_iff, String.eqb_eq in Hown2.
      rewrite oget_odelete_ne; [done|]. intros ->. congruence.
  - left. subst L1 p'. by destruct (find_scene _ _).
  - left. by destruct (find_scene _ _).
Qed.

(** *** The scene pointer *)


Lemma find_scene_app (id : string) (cp : Campaign) (l : list Scene) :
  is_Some (find_scene id cp) -> is_Some (find_scene id (set_scenes (scenes cp ++ l) cp)).
Proof.
  unfold find_scene. cbn [scenes set_scenes]. induction (scenes cp) as [|s ss IH]; simpl.
  - by intros [? ?].
  - by destruct (String.eqb (scene_id s) id).
Qed.

Lemma find_scene_last (cp : Campaign) (sc : Scene) :
  is_Some (find_scene (scene_id sc) (set_scenes (scenes cp ++ [sc]) cp)).
Proof.
  unfold find_scene. cbn [scenes set_scenes]. induction (scenes cp) as [|s ss IH]; simpl.
  - by rewrite String.eqb_refl.
  - by destruct (String.eqb (scene_id s) (scene_id sc)).
Qed.

Lemma find_scene_push_choice (id sceneId : string) (ch : Choice) (cp : Campaign) :
  is_Some (find_scene id cp) ->
  is_Some (find_scene id (set_scenes (push_choice sceneId ch (scenes cp)) cp)).
Proof.
  unfold find_scene. cbn [scenes set_scenes]. induction (scenes cp) as [|s ss IH]; simpl; [done|].
  destruct (String.eqb (scene_id s) sceneId) eqn:E1; simpl;
    destruct (String.eqb (scene_id s) id) eqn:E2; auto.
Qed.

Lemma camp_edit_ptr (cp cp' : Campaign) : camp_edit cp cp' -> ptr_ok cp -> ptr_ok cp'.
Proof.
  intros H Hok. destruct H as [t sm | sc Hsc | id sc Hfind | sceneId ch | hd | q Hq | id qs Hqs];
    try exact Hok.
  - unfold push_scene.
    destruct (negb (truthy_opt (currentSceneId (set_scenes (scenes cp ++ [sc]) cp)))).
    + intros id. cbn [currentSceneId set_currentSceneId]. intros [= <-].
      apply (find_scene_last cp sc).
    + intros id Hid. by apply find_scene_app, Hok.
  - intros id' [= <-]. by exists sc.
  - intros id Hid. by apply find_scene_push_choice, Hok.
Qed.

Lemma move_ptr (L : Lobby) (to : string) (target : Scene) :
  find_scene to (campaign L) = Some target ->
  ptr_ok (set_currentSceneId (Some (scene_id target)) (campaign L)).
Proof.
  intros Hf id [= <-]. rewrite (find_scene_id _ _ _ Hf). by exists target.
Qed.

Lemma change_ptr (env : Env) (c : Conn) (L0 L' : Lobby) :
  change env c L0 L' ->
  (forall key cp, campaignRegistry env key = Some cp -> ptr_ok cp) ->
  ptr_ok (campaign L0) -> ptr_ok (campaign L').
Proof.
  intros H Hregs Hinv. change_cases H; try rewrite commit_choice_eq; try done.
  - destruct (join_gate_fields _ _ _ _ _ Hgate) as (_ & _ & _ & _ & _ & _ & _ & _ & _ & E & _).
    simpl. by rewrite E.
  - by apply (camp_edit_ptr (campaign L0)).
  - by apply (move_ptr L0 (choice_to choice)).
  - by apply (Hregs key).
  - subst L1 p'. cbn [campaign set_settings].
    destruct (find_scene _ _) eqn:E; [|done]. by apply (move_ptr L0 _ _ E).
  - destruct (find_scene _ _) eqn:E; [|done]. by apply (move_ptr L0 _ _ E).
Qed.

End Consequences.

(** ** One call, one lobby *)

Section Locality.
Context (env : Env).

Lemma with_lobby_local (c : Conn) (mem : gmap string Lobby)
    (k : string -> Lobby -> Lobby * list Emit) (ln : string) :
  (is_Some (mem !! ln) -> is_Some (snd (fst (with_lobby env c mem k)) !! ln))
  /\ (lobby c <> Some ln -> snd (fst (with_lobby env c mem k)) !! ln = mem !! ln)
  /\ fst (fst (with_lobby env c mem k)) = c.
Proof.
  unfold with_lobby. destruct (lobby c) as [ln0|]; [|done].
  unfold ensureLobby. destruct (mem !! ln0) as [L|] eqn:E.
  - destruct (k ln0 L) as [L1 out]. simpl. split; [|split; [|done]].
    + intros Hs. destruct (decide (ln = ln0)) as [->|Hne].
      * by rewrite lookup_insert_eq.
      * by rewrite lookup_insert_ne.
    + intros Hne. rewrite lookup_insert_ne; [done|]. congruence.
  - destruct (k ln0 (newLobby env)) as [L1 out]. simpl. split; [|split; [|done]].
    + intros Hs. destruct (decide (ln = ln0)) as [->|Hne].
      * by rewrite lookup_insert_eq.
      * by rewrite !lookup_insert_ne.
    + intros Hne. rewrite !lookup_insert_ne; [done | congruence | congruence].
Qed.

Lemma join_local (c : Conn) (mem : gmap string Lobby) (lobbyName password : option string)
    (ln : string) :
  (is_Some (mem !! ln) -> is_Some (snd (fst (join_lobby env c mem lobbyName password)) !! ln))
  /\ (Some (join_target lobbyName) <> Some ln ->
      snd (fst (join_lobby env c mem lobbyName password)) !! ln = mem !! ln).
Proof.
  rewrite join_lobby_registry. cbv zeta. set (ln0 := join_target lobbyName).
  assert (H1 : forall mem1 : gmap string Lobby, is_Some (mem !! ln) ->
            (is_Some (mem !! ln) -> is_Some (mem1 !! ln)) ->
            forall L, is_Some ((if negb (joinOk L (username c)) then mem1
               else match join_gate env c L password with
                    | None => mem1
                    | Some L2 => <[ln0 := set_users (oset (sid c) (uniqueName L2 (username c)) (users L2)) L2]> mem1
                    end) !! ln)).
  { intros mem1 Hs Hm L. destruct (negb _); [auto|]. destruct (join_gate _ _ _ _); [|auto].
    destruct (decide (ln = ln0)) as [->|Hne].
    - by rewrite lookup_insert_eq.
    - rewrite lookup_insert_ne by done. auto. }
  assert (H2 : forall mem1 : gmap string Lobby, ln0 <> ln -> mem1 !! ln = mem !! ln ->
            forall L, (if negb (joinOk L (username c)) then mem1
               else match join_gate env c L password with
                    | None => mem1
                    | Some L2 => <[ln0 := set_users (oset (sid c) (uniqueName L2 (username c)) (users L2)) L2]> mem1
                    end) !! ln = mem !! ln).
  { intros mem1 Hne Hm L. destruct (negb _); [auto|]. destruct (join_gate _ _ _ _); [|auto].
    by rewrite lookup_insert_ne. }
  unfold ensureLobby. destruct (mem !! ln0) as [L|] eqn:E; split.
  - intros Hs. by apply H1.
  - intros Hne. apply H2; [congruence | done].
  - intros Hs. apply H1; [done|]. intros _.
    destruct (decide (ln = ln0)) as [->|Hne]; [by rewrite lookup_insert_eq|].
    by rewrite lookup_insert_ne.
  - intros Hne. apply H2; [congruence|]. rewrite lookup_insert_ne; [done | congruence].
Qed.

Lemma handle_local (c : Conn) (mem : gmap string Lobby) (ev : Event) (ln : string) :
  (is_Some (mem !! ln) -> is_Some (snd (fst (handle env c mem ev)) !! ln))
  /\ (addressed c ev <> Some ln -> snd (fst (handle env c mem ev)) !! ln = mem !! ln).
Proof.
  destruct ev; simpl;
    try (unfold_handler;
         match goal with |- context [with_lobby env c mem ?k] =>
           destruct (with_lobby_local c mem k ln) as (Ha & Hb & _);
           split; [exact Ha | exact Hb] end).
  - done.
  - apply join_local.
Qed.

End Locality.

(** X6. A handler call reads and writes one lobby: every lobby of the
    registry is still there after the call, and every lobby other than the
    one the message addresses is unchanged.  In particular a [join_lobby]
    into another lobby leaves the lobby the connection was in as it is, with
    the entry of the connection still in its [users]. *)
Theorem one_call_one_lobby (env : Env) (c : Conn) (mem : gmap string Lobby) (ev : Event)
    (ln : string) :
  (is_Some (mem !! ln) -> is_Some (snd (fst (handle env c mem ev)) !! ln))
  /\ (addressed c ev <> Some ln -> snd (fst (handle env c mem ev)) !! ln = mem !! ln)
  /\ (forall lobbyName password L,
        ev = EvJoin lobbyName password -> join_target lobbyName <> ln ->
        mem !! ln = Some L ->
        users <$> (snd (fst (handle env c mem ev)) !! ln) = Some (users L)).
Proof.
  destruct (handle_local env c mem ev ln) as [Ha Hb]. split; [exact Ha|]. split; [exact Hb|].
  intros lobbyName password L -> Hne Hm. rewrite Hb, Hm; [done|]. simpl. congruence.
Qed.

Lemma one_call_one_lobby_witness :
  oget "R" <$> (users <$> (snd (fst (handle env0 rin mem_locked (EvJoin (Some "cellar") None)))
                             !! "tavern"))
  = Some (Some "Rin").
Proof.
  destruct (one_call_one_lobby env0 rin mem_locked (EvJoin (Some "cellar") None) "tavern")
    as (_ & _ & H).
  rewrite (H (Some "cellar") None lobby_locked eq_refl); [reflexivity | discriminate |].
  vm_compute. reflexivity.
Defined.

(** X7. No handler writes [lockedUntilStart] or [requireCharacter]: in
    every lobby of every reachable registry both flags have their default
    [true], so a lobby is locked for players exactly as long as the campaign
    has not been started. *)
Theorem lock_flags_constant (mem : gmap string Lobby) (ln : string) (L : Lobby) :
  reachable mem -> mem !! ln = Some L ->
  lockedUntilStart (settings L) = true /\ requireCharacter (settings L) = true
  /\ isLockedForPlayers L = negb (campaignStarted (settings L)).
Proof.
  intros Hr Hm.
  assert (H : lockedUntilStart (settings L) = true /\ requireCharacter (settings L) = true).
  { revert ln L Hm.
    apply (reachable_change
             (fun L => lockedUntilStart (settings L) = true /\ requireCharacter (settings L) = true));
      [done | | done].
    intros env c L0 L' Hc [H1 H2].
    destruct (change_constants env c L0 L' Hc) as (_ & E1 & E2). by rewrite E1, E2. }
  destruct H as [H1 H2]. split; [done|]. split; [done|].
  unfold isLockedForPlayers. by rewrite H1.
Qed.

Lemma lock_flags_constant_witness :
  isLockedForPlayers lobby_started = negb (campaignStarted (settings lobby_started)).
Proof.
  apply (lock_flags_constant mem_started "tavern" lobby_started).
  - apply run_reachable, reach_init.
  - vm_compute. reflexivity.
Defined.

(** X8. The map of every lobby of every reachable registry is well
    shaped: width and height lie in [5, 60], [tiles] has [h] rows of [w]
    cells that are 0 or 1, every token is stored under its own id, no id
    occurs twice, and every token stands on a cell of the grid.  Hence the
    cell that [map_set] writes always exists: the write replaces a cell and
    never extends a row. *)
Theorem map_shape_invariant (mem : gmap string Lobby) (ln : string) (L : Lobby) :
  reachable mem -> mem !! ln = Some L ->
  map_ok (lmap L)
  /\ (forall px py v, exists row,
        tiles (lmap L) !! Z.to_nat (clamp py 0 (map_h (lmap L) - 1)) = Some row
        /\ array_set (Z.to_nat (clamp px 0 (map_w (lmap L) - 1))) v row
           = <[Z.to_nat (clamp px 0 (map_w (lmap L) - 1)) := v]> row
        /\ (Z.to_nat (clamp px 0 (map_w (lmap L) - 1)) < length row)%nat).
Proof.
  intros Hr Hm.
  assert (H : map_ok (lmap L)).
  { revert ln L Hm. apply (reachable_change (fun L => map_ok (lmap L))); [|exact change_map_ok|done].
    intros env. apply defaultMap_ok. }
  split; [exact H|]. destruct H as (Hw & Hh & Hlen & Hrows & _).
  intros px py v.
  pose proof (clamp_range px 0 (map_w (lmap L) - 1)) as Hx.
  pose proof (clamp_range py 0 (map_h (lmap L) - 1)) as Hy.
  destruct (lookup_lt_is_Some_2 (tiles (lmap L)) (Z.to_nat (clamp py 0 (map_h (lmap L) - 1))))
    as [row Hrow]; [lia|].
  exists row. split; [done|].
  pose proof (proj1 (List.Forall_forall _ _) Hrows row) as Hlr.
  destruct Hlr as [Hl _]; [by apply list_elem_of_In, (list_elem_of_lookup_2 _ _ _ Hrow)|].
  assert (Hlt : (Z.to_nat (clamp px 0 (map_w (lmap L) - 1)) < length row)%nat) by lia.
  split; [|done]. unfold array_set. by apply Nat.ltb_lt in Hlt as ->.
Qed.

Lemma map_shape_invariant_witness :
  map_ok (lmap lobby_fight).
Proof.
  apply (map_shape_invariant mem_fight "tavern" lobby_fight).
  - apply run_reachable, reach_init.
  - vm_compute. reflexivity.
Defined.

(** X9. What a member who is not the GM cannot do, whatever message is
    sent: the call changes neither the ban list, the encounter tracker, the
    dimensions and tiles of the map, the title, summary, scenes, handouts and
    quests of the campaign, nor the started flag; it does not change a
    password that is set; it does not open a consent request; and it
    neither adds, removes nor renames the entry of another socket in
    [users]. *)
Theorem player_cannot_change_gm_state (env : Env) (c : Conn) (mem : gmap string Lobby)
    (ev : Event) (ln : string) (L0 L' : Lobby) :
  mem !! ln = Some L0 -> isGM c L0 = false ->
  snd (fst (handle env c mem ev)) !! ln = Some L' ->
  bans L' = bans L0 /\ encounter L' = encounter L0
  /\ map_w (lmap L') = map_w (lmap L0) /\ map_h (lmap L') = map_h (lmap L0)
  /\ tiles (lmap L') = tiles (lmap L0)
  /\ camp_title (campaign L') = camp_title (campaign L0)
  /\ camp_summary (campaign L') = camp_summary (campaign L0)
  /\ scenes (campaign L') = scenes (campaign L0)
  /\ handouts (campaign L') = handouts (campaign L0)
  /\ quests (campaign L') = quests (campaign L0)
  /\ campaignStarted (settings L') = campaignStarted (settings L0)
  /\ (truthy_opt (passwordHash L0) = true -> passwordHash L' = passwordHash L0)
  /\ (pending (settings L0) = None -> pending (settings L') = None)
  /\ (forall k, k <> sid c -> oget k (users L') = oget k (users L0)).
Proof.
  intros Hm Hpl H. apply (change_player env c L0 L'); [|done].
  by apply (handle_step env c mem ev ln).
Qed.

Lemma player_cannot_change_gm_state_witness :
  exists L', snd (fst (handle env0 rin mem_fight (EvChat "/endencounter"))) !! "tavern" = Some L'
    /\ encounter L' = encounter lobby_fight /\ bans L' = bans lobby_fight.
Proof.
  exists lobby_fight.
  assert (H : snd (fst (handle env0 rin mem_fight (EvChat "/endencounter"))) !! "tavern"
              = Some lobby_fight) by (vm_compute; reflexivity).
  split; [exact H|].
  destruct (player_cannot_change_gm_state env0 rin mem_fight (EvChat "/endencounter")
              "tavern" lobby_fight lobby_fight) as (E1 & E2 & _).
  - vm_compute. reflexivity.
  - reflexivity.
  - exact H.
  - split; [exact E2 | exact E1].
Defined.

(** X10. One call adds at most one entry to the histories of a lobby, and
    never removes or rewrites one: either both histories are as before, or
    [messages] has one more entry at its end, signed with the caller's name,
    with a text that is not empty and at most 500 characters long, or
    [rolls] has one more entry at its end, signed with the caller's name;
    and an entry is added only when the lobby is not locked or the caller
    is the GM. *)
Theorem one_entry_per_call (env : Env) (c : Conn) (mem : gmap string Lobby)
    (ev : Event) (ln : string) (L0 L' : Lobby) :
  mem !! ln = Some L0 -> snd (fst (handle env c mem ev)) !! ln = Some L' ->
  (messages L' = messages L0 /\ rolls L' = rolls L0)
  \/ (exists m, messages L' = messages L0 ++ [m] /\ rolls L' = rolls L0
        /\ chat_user m = username c /\ chat_text m <> EmptyString
        /\ (String.length (chat_text m) <= 500)%nat
        /\ (isLockedForPlayers L0 = false \/ isGM c L0 = true))
  \/ (exists r, rolls L' = rolls L0 ++ [r] /\ messages L' = messages L0
        /\ roll_user r = username c
        /\ (isLockedForPlayers L0 = false \/ isGM c L0 = true)).
Proof.
  intros Hm H. apply (change_logs env c L0 L'). by apply (handle_step env c mem ev ln).
Qed.

Lemma one_entry_per_call_witness :
  exists L', snd (fst (handle env0 rin mem_started (EvChat "  hello  "))) !! "tavern" = Some L'
    /\ messages L' = messages lobby_started ++ [mkChat "Rin" "hello" (nowISO env0)].
Proof.
  eexists. split; [vm_compute; reflexivity|].
  destruct (one_entry_per_call env0 rin mem_started (EvChat "  hello  ") "tavern" lobby_started
              _ ltac:(vm_compute; reflexivity) ltac:(vm_compute; reflexivity))
    as [[E _]|[(m & E & _)|(r & _ & E & _)]]; vm_compute; reflexivity.
Defined.

Lemma run_keeps (evs : list (Env * string * Event)) :
  forall (cs : list Conn) (mem : gmap string Lobby) (P : Lobby -> Lobby -> Prop),
  (forall L, P L L) -> (forall L1 L2 L3, P L1 L2 -> P L2 L3 -> P L1 L3) ->
  (forall env c mem ev ln L0 L', mem !! ln = Some L0 ->
     snd (fst (handle env c mem ev)) !! ln = Some L' -> P L0 L') ->
  forall ln L0, mem !! ln = Some L0 ->
  exists L', snd (fst (run cs evs mem)) !! ln = Some L' /\ P L0 L'.
Proof.
  induction evs as [|[[env id] ev] evs IH]; intros cs mem P Hrefl Htrans Hstep ln L0 Hm; simpl.
  - exists L0. auto.
  - destruct (find _ cs) as [c|]; [|by apply IH].
    destruct (proj1 (handle_local env c mem ev ln)) as [L1 H1]; [by rewrite Hm|].
    pose proof (Hstep env c mem ev ln L0 L1 Hm H1) as Hp.
    destruct (handle env c mem ev) as [[c' mem1] out1]. simpl in H1.
    destruct (IH (map (fun d => if String.eqb (sid d) id then c' else d) cs) mem1 P
                 Hrefl Htrans Hstep ln L1 H1) as (L' & H' & Hp').
    destruct (run _ evs mem1) as [[cs2 mem2] out2]. simpl in *.
    exists L'. split; [done|]. by apply (Htrans L0 L1 L').
Qed.

(** X11. The histories of a lobby only grow: after every sequence of
    inbound messages the lobby is still in the registry, the chat history
    and the roll history it had before are prefixes of the ones it has now,
    and its creation time is the same.  No handler truncates a history (the
    server keeps every message; [join_lobby] sends the last 40). *)
Theorem histories_only_grow (cs : list Conn) (evs : list (Env * string * Event))
    (mem : gmap string Lobby) (ln : string) (L0 : Lobby) :
  mem !! ln = Some L0 ->
  exists L', snd (fst (run cs evs mem)) !! ln = Some L'
    /\ messages L0 `prefix_of` messages L' /\ rolls L0 `prefix_of` rolls L'
    /\ createdAt L' = createdAt L0.
Proof.
  intros Hm.
  apply (run_keeps evs cs mem
           (fun L0 L' => messages L0 `prefix_of` messages L' /\ rolls L0 `prefix_of` rolls L'
                         /\ createdAt L' = createdAt L0)); [| | |done].
  - done.
  - intros L1 L2 L3 (A1 & A2 & A3) (B1 & B2 & B3).
    split; [by etrans|]. split; [by etrans|]. congruence.
  - intros env c mem1 ev ln1 L1 L2 H1 H2.
    pose proof (handle_step env c mem1 ev ln1 L1 L2 H1 H2) as Hc.
    destruct (change_constants env c L1 L2 Hc) as (E & _). split; [|split; [|done]].
    + destruct (change_logs env c L1 L2 Hc) as [[-> _]|[(m & -> & _)|(r & _ & -> & _)]];
        [done | by apply prefix_app_r | done].
    + destruct (change_logs env c L1 L2 Hc) as [[_ ->]|[(m & _ & -> & _)|(r & -> & _)]];
        [done | done | by apply prefix_app_r].
Qed.

Lemma histories_only_grow_witness :
  exists L', snd (fst (run [gia; rin] [(env0, "R", EvChat "hi"); (env0, "G", EvRoll None)]
                           mem_started)) !! "tavern" = Some L'
    /\ messages lobby_started `prefix_of` messages L'
    /\ rolls lobby_started `prefix_of` rolls L'.
Proof.
  destruct (histories_only_grow [gia; rin] [(env0, "R", EvChat "hi"); (env0, "G", EvRoll None)]
              mem_started "tavern" lobby_started) as (L' & H & H1 & H2 & _).
  - vm_compute. reflexivity.
  - exists L'. split; [exact H|]. split; [exact H1 | exact H2].
Defined.

(** X12. Macros and character sheets are scoped by name.  A call by the
    connection [c] leaves the macro table of every other name as it is, for
    every caller, the GM included; and when the caller is not the GM it
    leaves the character sheet of every other name as it is. *)
Theorem edits_are_scoped (env : Env) (c : Conn) (mem : gmap string Lobby)
    (ev : Event) (ln : string) (L0 L' : Lobby) (who : string) :
  mem !! ln = Some L0 -> snd (fst (handle env c mem ev)) !! ln = Some L' ->
  who <> username c ->
  oget who (macros L') = oget who (macros L0)
  /\ (isGM c L0 = false -> oget who (characters L') = oget who (characters L0)).
Proof.
  intros Hm H Hw. pose proof (handle_step env c mem ev ln L0 L' Hm H) as Hc.
  split; [by apply (change_macros env c)|]. intros Hpl. by apply (change_sheets env c).
Qed.

Lemma edits_are_scoped_witness :
  exists L', snd (fst (handle env0 rin mem_started (EvCharacterDelete (Some "Wes"))))
               !! "tavern" = Some L'
    /\ oget "Wes" (characters L') = oget "Wes" (characters lobby_started).
Proof.
  eexists. split; [vm_compute; reflexivity|].
  apply (edits_are_scoped env0 rin mem_started (EvCharacterDelete (Some "Wes")) "tavern"
           lobby_started _ "Wes").
  - vm_compute. reflexivity.
  - vm_compute. reflexivity.
  - discriminate.
  - reflexivity.
Defined.

(** X13. Every character sheet of every lobby of every reachable registry
    is stored under the name it carries, no name has two sheets, and each
    sheet is within the bounds of [character_upsert]: six abilities in
    [1, 30], speed in [0, 120], level in [1, 20], armour class in [1, 30],
    hit points in [0, 1000], maximum hit points in [1, 1000], and the text
    fields no longer than 24, 20, 20, 200, 800, 24 and 2000 characters. *)
Theorem sheets_invariant (mem : gmap string Lobby) (ln : string) (L : Lobby) :
  reachable mem -> mem !! ln = Some L ->
  NoDup (map fst (characters L))
  /\ (forall who sh, oget who (characters L) = Some sh ->
        sheet_name sh = who /\ sheet_ok sh).
Proof.
  intros Hr Hm.
  assert (H : sheets_ok L).
  { revert ln L Hm. apply (reachable_change sheets_ok); [|exact change_sheets_ok|done].
    intros env. split; simpl; constructor. }
  destruct H as [Hall Hnd]. split; [done|]. intros who sh Hget.
  apply oget_In in Hget. exact (proj1 (List.Forall_forall _ _) Hall _ Hget).
Qed.

Lemma sheets_invariant_witness :
  exists (mem : gmap string Lobby) (L : Lobby) (sh : Sheet),
    mem !! "tavern" = Some L /\ oget "Rin" (characters L) = Some sh
    /\ sheet_hp sh = 1000 /\ sheet_ok sh.
Proof.
  pose (sheet := mkSheetIn None "" "" VUndefined "" "" "" (VNum 99) VUndefined (VNum 5000)
                           VUndefined "" []).
  pose (mem := snd (fst (handle env0 rin mem_started (EvCharacterUpsert sheet)))).
  assert (Hr : reachable mem) by (apply reach_step, run_reachable, reach_init).
  destruct (mem !! "tavern") as [L|] eqn:E; [|vm_compute in E; discriminate].
  destruct (oget "Rin" (characters L)) as [sh|] eqn:E2.
  - exists mem, L, sh. split; [exact E|]. split; [exact E2|].
    split; [|exact (proj2 (proj2 (sheets_invariant mem "tavern" L Hr E) "Rin" sh E2))].
    vm_compute in E. injection E as <-. vm_compute in E2. injection E2 as <-. reflexivity.
  - vm_compute in E. injection E as <-. vm_compute in E2. discriminate.
Defined.

(** X14. A member who is not the GM cannot move or remove a token that
    another member owns: after the call the token is stored under its id
    unchanged, or it has been replaced through [token_add] by a token that
    the caller owns and that stands on the first free cell ([token_add]
    does not test whether the id is in use). *)
Theorem foreign_tokens (env : Env) (c : Conn) (mem : gmap string Lobby)
    (ev : Event) (ln : string) (L0 L' : Lobby) (id : string) (t : Token) :
  mem !! ln = Some L0 -> isGM c L0 = false ->
  snd (fst (handle env c mem ev)) !! ln = Some L' ->
  oget id (tokens (lmap L0)) = Some t -> tok_owner t <> username c ->
  oget id (tokens (lmap L')) = Some t
  \/ (exists t', oget id (tokens (lmap L')) = Some t' /\ tok_owner t' = username c
        /\ tok_id t' = id /\ (tok_x t', tok_y t') = first_free (lmap L0)).
Proof.
  intros Hm Hpl H Hget Hown. apply (change_tokens env c L0 L'); try done.
  by apply (handle_step env c mem ev ln).
Qed.

Lemma foreign_tokens_witness :
  let mem := snd (fst (handle env0 wes mem_started (EvTokenAdd (Some "t1") None None))) in
  exists L', snd (fst (handle env0 rin mem (EvTokenRemove "t1"))) !! "tavern" = Some L'
    /\ oget "t1" (tokens (lmap L')) = Some (mkToken "t1" "Wes" 0 0 "#222" "Wes").
Proof.
  intros mem.
  pose (L0 := default (newLobby env0) (mem !! "tavern")).
  pose (L' := default (newLobby env0)
                (snd (fst (handle env0 rin mem (EvTokenRemove "t1"))) !! "tavern")).
  exists L'. split; [vm_compute; reflexivity|].
  destruct (foreign_tokens env0 rin mem (EvTokenRemove "t1") "tavern" L0 L' "t1"
              (mkToken "t1" "Wes" 0 0 "#222" "Wes")) as [H|(t' & H & _)].
  - vm_compute. reflexivity.
  - vm_compute. reflexivity.
  - vm_compute. reflexivity.
  - vm_compute. reflexivity.
  - simpl. discriminate.
  - exact H.
  - vm_compute. reflexivity.
Defined.

(** X15. The scene pointer stays on a scene of the campaign.  When every
    campaign of the registries that [campaign_load] reads has its current
    scene among its scenes, the same holds for the campaign of every lobby
    after every sequence of inbound messages that starts from the empty
    registry: adding a scene or a choice, setting the scene, picking a
    choice and committing a consent request never leave the pointer on a
    scene id that does not exist. *)
Theorem scene_pointer_valid (cs : list Conn) (evs : list (Env * string * Event))
    (ln : string) (L : Lobby) :
  Forall (fun e => forall key cp, campaignRegistry (fst (fst e)) key = Some cp -> ptr_ok cp) evs ->
  snd (fst (run cs evs ∅)) !! ln = Some L ->
  ptr_ok (campaign L)
  /\ (forall id, currentSceneId (campaign L) = Some id ->
      exists sc, current_scene (campaign L) = Some sc /\ scene_id sc = id).
Proof.
  intros Hevs Hm.
  assert (Hdef : ptr_ok defaultCampaign).
  { intros id [= <-]. vm_compute. eauto. }
  assert (H : forall (mem : gmap string Lobby),
            (forall l L0, mem !! l = Some L0 -> ptr_ok (campaign L0)) ->
            forall cs, forall l L1, snd (fst (run cs evs mem)) !! l = Some L1 ->
            ptr_ok (campaign L1)).
  { clear Hm. induction Hevs as [|[[env id] ev] evs Hreg _ IH]; intros mem Hinv cs0 l L1; simpl.
    - apply Hinv.
    - destruct (find _ cs0) as [c|]; [|by apply IH].
      assert (Hinv' : forall l L0, snd (fst (handle env c mem ev)) !! l = Some L0 ->
                ptr_ok (campaign L0)).
      { intros l0 L0 H0.
        destruct (handle_change env c mem ev l0 L0 H0) as (L2 & [H2|[_ ->]] & Hc).
        - apply (change_ptr env c L2 L0 Hc Hreg). by apply (Hinv l0).
        - by apply (change_ptr env c (newLobby env) L0 Hc Hreg). }
      destruct (handle env c mem ev) as [[c' mem1] out1]. simpl in Hinv'.
      specialize (IH mem1 Hinv' (map (fun d => if String.eqb (sid d) id then c' else d) cs0) l L1).
      by destruct (run _ evs mem1) as [[cs2 mem2] out2]. }
  assert (Hp : ptr_ok (campaign L)).
  { apply (H ∅ ltac:(intros l L0 H0; by rewrite lookup_empty in H0) cs ln L Hm). }
  split; [exact Hp|]. intros id Hid. destruct (Hp id Hid) as [sc Hsc].
  exists sc. unfold current_scene. rewrite Hid. split; [done|].
  by apply (find_scene_id id (campaign L)).
Qed.

Lemma scene_pointer_valid_witness :
  ptr_ok (campaign lobby_fight).
Proof.
  apply (scene_pointer_valid [conn0 "G"; conn0 "R"; conn0 "W"] fight "tavern" lobby_fight).
  - repeat constructor; intros key cp H; discriminate H.
  - vm_compute. reflexivity.
Defined.

(** ** Outbound messages *)

Section OutputFacts.
Context (env : Env).

Lemma with_lobby_outs (c : Conn) (mem : gmap string Lobby)
    (k : string -> Lobby -> Lobby * list Emit) :
  (forall ln L, Forall (emit_ok ln (fst (k ln L))) (snd (k ln L))) ->
  snd (with_lobby env c mem k) = []
  \/ (exists ln L', lobby (fst (fst (with_lobby env c mem k))) = Some ln
         /\ snd (fst (with_lobby env c mem k)) !! ln = Some L'
         /\ Forall (emit_ok ln L') (snd (with_lobby env c mem k))).
Proof.
  intros Hk. unfold with_lobby. destruct (lobby c) as [ln|] eqn:El; [|by left].
  right. destruct (ensureLobby env ln mem) as [mem1 L].
  specialize (Hk ln L). destruct (k ln L) as [L' out]. simpl in *.
  exists ln, L'. by rewrite lookup_insert_eq.
Qed.

Lemma join_outs (c : Conn) (mem : gmap string Lobby) (lobbyName password : option string) :
  (exists s msg, snd (join_lobby env c mem lobbyName password) = [(ToSocket s, error_message msg)])
  \/ (exists ln L', lobby (fst (fst (join_lobby env c mem lobbyName password))) = Some ln
         /\ snd (fst (join_lobby env c mem lobbyName password)) !! ln = Some L'
         /\ Forall (emit_ok ln L') (snd (join_lobby env c mem lobbyName password))).
Proof.
  unfold join_lobby. cbv zeta. destruct (ensureLobby env _ mem) as [mem1 L].
  destruct (negb (joinOk L (username c))); [left; by do 2 eexists|].
  destruct (join_gate env c L password) as [L2|]; [|left; by do 2 eexists].
  right. do 2 eexists. cbn [fst snd lobby]. split; [done|].
  rewrite lookup_insert_eq. split; [done|].
  destruct (requireCharacter _ && _)%bool; out_ok.
Qed.

Lemma handle_outs (c : Conn) (mem : gmap string Lobby) (ev : Event) :
  snd (handle env c mem ev) = []
  \/ (exists s msg, snd (handle env c mem ev) = [(ToSocket s, msg)]
        /\ ((exists t, msg = error_message t) \/ (exists u, msg = identified u)))
  \/ (exists ln L', lobby (fst (fst (handle env c mem ev))) = Some ln
         /\ snd (fst (handle env c mem ev)) !! ln = Some L'
         /\ Forall (emit_ok ln L') (snd (handle env c mem ev))).
Proof.
  destruct ev; simpl;
    try (unfold_handler;
         match goal with |- context [with_lobby env c mem ?k] =>
           destruct (with_lobby_outs c mem k) as [Ha|Ha];
             [ | by left | by right; right ] end;
         intros ln0 L0;
         repeat (first [progress cbv beta zeta | case_match]); simplify_eq;
         try apply handleCommand_out; try apply start_campaign_out;
         try apply commit_choice_out; out_ok).
  - right. left. do 2 eexists. split; [done|]. right. by eexists.
  - destruct (join_outs c mem lobbyName password) as [(s & msg & E)|H].
    + right. left. exists s, (error_message msg). split; [done|]. left. by eexists.
    + by right; right.
Qed.

End OutputFacts.

(** X16. Where the outbound messages of a call go and what they carry.
    An [error_message] is sent to one socket and never to a room.  With
    [ln] the lobby of the connection after the call and [L'] its state
    after the call: every [state], [map_state] and [characters] message is
    sent to the room [ln] and carries the state, the map and the sheets of
    [L']; every [campaign_state] carries the campaign of [L']; every
    broadcast roll is the last entry of the roll history of [L']; the
    history in [joined] is the last 40 messages and rolls of [L'];
    [identified], [joined], [character_required] and [consent_force] go to
    one socket. *)
Theorem outputs_addressed_and_fresh (env : Env) (c : Conn) (mem : gmap string Lobby)
    (ev : Event) (e : Emit) :
  In e (snd (handle env c mem ev)) ->
  (forall t, snd e = error_message t -> to_socket (fst e))
  /\ (forall ln L', lobby (fst (fst (handle env c mem ev))) = Some ln ->
        snd (fst (handle env c mem ev)) !! ln = Some L' -> emit_ok ln L' e).
Proof.
  intros Hin.
  destruct (handle_outs env c mem ev) as [E|[(s & msg & E & Hk)|(ln & L' & Hl & Hm & Hall)]].
  - by rewrite E in Hin.
  - rewrite E in Hin. destruct Hin as [<-|[]]. split.
    + intros t _. by exists s.
    + intros ln L' _ _. unfold emit_ok. simpl.
      destruct Hk as [[t ->]|[u ->]]; by exists s.
  - pose proof (proj1 (List.Forall_forall _ _) Hall e Hin) as He. split.
    + intros t Ht. unfold emit_ok in He. by rewrite Ht in He.
    + intros ln1 L1 Hl1 Hm1. rewrite Hl in Hl1. injection Hl1 as <-.
      rewrite Hm in Hm1. by injection Hm1 as <-.
Qed.

Lemma outputs_addressed_and_fresh_witness :
  emit_ok "tavern" lobby_started (ToRoom "tavern", state (state_view lobby_started)).
Proof.
  apply (outputs_addressed_and_fresh env0 gia mem_locked EvCampaignStart
           (ToRoom "tavern", state (state_view lobby_started))).
  - vm_compute. do 5 right. left. reflexivity.
  - reflexivity.
  - vm_compute. reflexivity.
Defined.

(** ** Slash commands *)

Section Commands.
Context (env : Env).

Lemma handleCommand_gm_only (c : Conn) (ln : string) (L : Lobby) (line : string) :
  isGM c L = false ->
  In (toLowerCase (fst (split_space (slice1 line))))
     ["start"; "kick"; "ban"; "unban"; "startencounter"; "setinit"; "next"; "endencounter";
      "scene"; "consent"] ->
  handleCommand env c ln L line = (L, [(ToSocket (sid c), error_message msg_gm_only)]).
Proof.
  intros Hgm Hin. unfold handleCommand, start_campaign.
  destruct (split_space (slice1 line)) as [cmd0 rest]. cbn [fst] in Hin.
  cbv zeta. rewrite Hgm. cbn [negb].
  repeat (destruct Hin as [<-|Hin]; [by eval_cmd|]). destruct Hin.
Qed.

Lemma chat_command (c : Conn) (mem : gmap string Lobby) (ln : string) (L : Lobby)
    (text : string) :
  lobby c = Some ln -> mem !! ln = Some L -> startsWith "/" (safe text 500) = true ->
  chat env c mem text
  = (c, <[ln := fst (handleCommand env c ln L (safe text 500))]> mem,
     snd (handleCommand env c ln L (safe text 500))).
Proof.
  intros Hl Hm Hs. unfold chat. rewrite (with_lobby_in env c mem ln L _ Hl Hm).
  cbv zeta. rewrite Hs.
  destruct (safe text 500) eqn:E; [discriminate|]. done.
Qed.

End Commands.

(** X17. The operations reserved to the GM are refused uniformly.  For a
    member who is not the GM, each of the fourteen GM-only socket events and
    each chat line whose command word is start, kick, ban, unban,
    startencounter, setinit, next, endencounter, scene or consent gets the
    reply [GM only.] on the caller's socket and nothing else: the registry
    and the connection are unchanged and nothing is broadcast. *)
Theorem gm_only_rejected (env : Env) (c : Conn) (mem : gmap string Lobby) (ln : string)
    (L : Lobby) (ev : Event) :
  lobby c = Some ln -> mem !! ln = Some L -> isGM c L = false ->
  (gm_only_event ev = true \/ exists text, ev = EvChat text /\ gm_only_command text = true) ->
  handle env c mem ev = (c, mem, [(ToSocket (sid c), error_message "GM only.")]).
Proof.
  intros Hl Hm Hgm [Hev|(text & -> & Hcmd)].
  - destruct ev; try discriminate Hev; simpl; unfold_handler;
      apply (with_lobby_const env c mem ln L); try done; unfold start_campaign; by rewrite Hgm.
  - simpl. apply andb_true_iff in Hcmd as [Hs Hw]. apply has_In in Hw.
    rewrite (chat_command env c mem ln L text Hl Hm Hs).
    rewrite (handleCommand_gm_only env c ln L _ Hgm Hw). simpl. by rewrite insert_id.
Qed.

Lemma gm_only_rejected_witness :
  handle env0 rin mem_fight (EvChat " /Kick Wes ")
  = (rin, mem_fight, [(ToSocket "R", error_message "GM only.")])
  /\ handle env0 rin mem_fight EvMapClear
     = (rin, mem_fight, [(ToSocket "R", error_message "GM only.")]).
Proof.
  split.
  - apply (gm_only_rejected env0 rin mem_fight "tavern" lobby_fight (EvChat " /Kick Wes "));
      [reflexivity | vm_compute; reflexivity | reflexivity |].
    right. eexists. split; reflexivity.
  - apply (gm_only_rejected env0 rin mem_fight "tavern" lobby_fight EvMapClear);
      [reflexivity | vm_compute; reflexivity | reflexivity |].
    left. reflexivity.
Defined.


Section Commands2.
Context (env : Env).

Lemma handleCommand_ban (c : Conn) (ln : string) (L : Lobby) (line : string) :
  toLowerCase (fst (split_space (slice1 line))) = "ban" -> isGM c L = true ->
  let argStr := trim (default EmptyString (snd (split_space (slice1 line)))) in
  let L' := set_bans (set_add (toLowerCase (safe argStr 24)) (bans L)) L in
  handleCommand env c ln L line
  = (L', (ToRoom ln, system (argStr +:+ " is banned.")) :: emitState ln L').
Proof.
  intros Hcmd Hgm. unfold handleCommand.
  destruct (split_space (slice1 line)) as [cmd0 rest]. cbn [fst snd] in *.
  cbv zeta. rewrite Hgm, Hcmd. cbn [negb]. by eval_cmd.
Qed.

Lemma handleCommand_unban (c : Conn) (ln : string) (L : Lobby) (line : string) :
  toLowerCase (fst (split_space (slice1 line))) = "unban" -> isGM c L = true ->
  let argStr := trim (default EmptyString (snd (split_space (slice1 line)))) in
  let L' := set_bans (set_delete (toLowerCase (safe argStr 24)) (bans L)) L in
  handleCommand env c ln L line
  = (L', (ToRoom ln, system (argStr +:+ " is unbanned.")) :: emitState ln L').
Proof.
  intros Hcmd Hgm. unfold handleCommand.
  destruct (split_space (slice1 line)) as [cmd0 rest]. cbn [fst snd] in *.
  cbv zeta. rewrite Hgm, Hcmd. cbn [negb]. by eval_cmd.
Qed.

Lemma handleCommand_kick (c : Conn) (ln : string) (L : Lobby) (line : string) :
  toLowerCase (fst (split_space (slice1 line))) = "kick" -> isGM c L = true ->
  let target := safe (trim (default EmptyString (snd (split_space (slice1 line))))) 24 in
  handleCommand env c ln L line
  = match find_user target (users L) with
    | None => (L, [(ToSocket (sid c), error_message "User not found")])
    | Some (targetId, _) =>
        let L' := set_users (odelete targetId (users L)) L in
        (L', [(ToSocket targetId, error_message "You were kicked by the GM.");
              (ToRoom ln, system (target +:+ " was kicked by the GM."))] ++ emitState ln L')
    end.
Proof.
  intros Hcmd Hgm. unfold handleCommand.
  destruct (split_space (slice1 line)) as [cmd0 rest]. cbn [fst snd] in *.
  cbv zeta. rewrite Hgm, Hcmd. cbn [negb]. eval_cmd.
  by destruct (find_user _ _) as [[? ?]|].
Qed.

Lemma handleCommand_whisper (c : Conn) (ln : string) (L : Lobby) (line : string) :
  toLowerCase (fst (split_space (slice1 line))) = "w" ->
  let argStr := trim (default EmptyString (snd (split_space (slice1 line)))) in
  handleCommand env c ln L line
  = (L, match match_whisper argStr with
        | None => [(ToSocket (sid c), error_message "Usage: /w @name message")]
        | Some (target, message) =>
            match find_user target (users L) with
            | None => [(ToSocket (sid c), error_message "User not found")]
            | Some (targetId, _) =>
                [(ToSocket targetId,
                  chat_msg (mkChat ("(whisper) " +:+ username c) message (nowISO env)));
                 (ToSocket (sid c),
                  chat_msg (mkChat ("(to @" +:+ target +:+ ")") message (nowISO env)))]
            end
        end).
Proof.
  intros Hcmd. unfold handleCommand.
  destruct (split_space (slice1 line)) as [cmd0 rest]. cbn [fst snd] in *.
  cbv zeta. rewrite Hcmd. eval_cmd.
  destruct (match_whisper _) as [[target message]|]; [|done].
  by destruct (find_user _ _) as [[? ?]|].
Qed.

Lemma handleCommand_me (c : Conn) (ln : string) (L : Lobby) (line : string) :
  toLowerCase (fst (split_space (slice1 line))) = "me" ->
  let argStr := trim (default EmptyString (snd (split_space (slice1 line)))) in
  handleCommand env c ln L line
  = (L, [(ToRoom ln, chat_msg (mkChat (username c)
                                ("*" +:+ or_str argStr "does something dramatic" +:+ "*")
                                (nowISO env)))]).
Proof.
  intros Hcmd. unfold handleCommand.
  destruct (split_space (slice1 line)) as [cmd0 rest]. cbn [fst snd] in *.
  cbv zeta. rewrite Hcmd. by eval_cmd.
Qed.

Lemma find_user_Some (target : string) (m : list (string * string)) (k nm : string) :
  find_user target m = Some (k, nm) -> nm = target /\ In (k, target) m.
Proof.
  induction m as [|[k' nm'] m IH]; simpl; [done|].
  destruct (String.eqb nm' target) eqn:E.
  - apply String.eqb_eq in E. intros [= <- <-]. subst. auto.
  - intros H. destruct (IH H). auto.
Qed.

Lemma find_user_None (target : string) (m : list (string * string)) :
  find_user target m = None -> ~ In target (ovalues m).
Proof.
  unfold ovalues. induction m as [|[k' nm'] m IH]; simpl; [tauto|].
  destruct (String.eqb nm' target) eqn:E; [done|].
  apply String.eqb_neq in E. intros H [?|?]; [done|]. by apply IH.
Qed.

Lemma odelete_name_gone (k target : string) (m : list (string * string)) :
  NoDup (ovalues m) -> In (k, target) m -> ~ In target (ovalues (odelete k m)).
Proof.
  unfold ovalues, odelete.
  assert (Hsub : forall x (l : list (string * string)),
            In x (map snd (List.filter (fun kv => negb (String.eqb k (fst kv))) l)) ->
            In x (map snd l)).
  { intros x l Hx. apply in_map_iff in Hx as (kv & E & Hx). apply filter_In in Hx as [Hx _].
    apply in_map_iff. by exists kv. }
  induction m as [|[k' nm'] m IH]; simpl; [tauto|].
  intros [Hn Hnd]%NoDup_cons [[= -> ->]|Hin].
  - rewrite String.eqb_refl. simpl. intros Hx. by apply Hn, list_elem_of_In, Hsub.
  - destruct (negb (String.eqb k k')); simpl; [|by apply IH].
    intros [->|Hx]; [|by apply (IH Hnd Hin)].
    apply Hn, list_elem_of_In, in_map_iff. by exists (k, target).
Qed.

End Commands2.

(** X18. A ban blocks joins and nothing else.  When the GM sends a chat
    line whose command word is ban, the lower-cased argument, trimmed and
    cut to 24 characters, is in the ban list afterwards, and the members of
    the lobby are as before (a banned member who is connected stays).
    From then on [join_lobby] into this lobby by a connection whose name
    equals the banned name up to letter case is refused with the ban error,
    before the password is looked at, and changes neither the registry nor
    the connection. *)
Theorem ban_blocks_join (env env' : Env) (g c : Conn) (mem : gmap string Lobby) (ln : string)
    (L : Lobby) (text : string) (lobbyName password : option string) :
  lobby g = Some ln -> mem !! ln = Some L -> isGM g L = true ->
  startsWith "/" (safe text 500) = true -> command_word text = "ban" ->
  join_target lobbyName = ln ->
  toLowerCase (username c) = toLowerCase (safe (command_arg text) 24) ->
  let mem1 := snd (fst (handle env g mem (EvChat text))) in
  (exists L1, mem1 !! ln = Some L1 /\ users L1 = users L /\ gm L1 = gm L
      /\ has (toLowerCase (username c)) (bans L1) = true)
  /\ join_lobby env' c mem1 lobbyName password
     = (c, mem1, [(ToSocket (sid c), error_message "You are banned from this lobby.")]).
Proof.
  intros Hl Hm Hgm Hs Hw Hj Hname mem1.
  assert (E1 : mem1 = <[ln := set_bans (set_add (toLowerCase (safe (command_arg text) 24))
                                           (bans L)) L]> mem).
  { unfold mem1. simpl. rewrite (chat_command env g mem ln L text Hl Hm Hs).
    by rewrite (handleCommand_ban env g ln L _ Hw Hgm). }
  assert (Hhas : has (toLowerCase (username c))
                     (set_add (toLowerCase (safe (command_arg text) 24)) (bans L)) = true).
  { rewrite Hname. apply has_In, set_add_In. by left. }
  split.
  - eexists. rewrite E1, lookup_insert_eq. by repeat split.
  - unfold join_lobby. cbv zeta. rewrite Hj. unfold ensureLobby.
    rewrite E1 at 1. rewrite lookup_insert_eq.
    unfold joinOk. cbn [bans set_bans]. by rewrite Hhas.
Qed.

Lemma ban_blocks_join_witness :
  let mem1 := snd (fst (handle env0 gia mem_started (EvChat "/BAN  Zed "))) in
  join_lobby env0 (mkConn "Z" "ZED" None) mem1 (Some "tavern") None
  = (mkConn "Z" "ZED" None, mem1,
     [(ToSocket "Z", error_message "You are banned from this lobby.")]).
Proof.
  apply (ban_blocks_join env0 env0 gia (mkConn "Z" "ZED" None) mem_started "tavern"
           lobby_started "/BAN  Zed " (Some "tavern") None).
  - reflexivity.
  - vm_compute. reflexivity.
  - reflexivity.
  - reflexivity.
  - reflexivity.
  - reflexivity.
  - reflexivity.
Defined.

(** X19. A kick removes exactly the named member.  When the GM sends a
    chat line whose command word is kick and the members have distinct
    names: if no member has the name given, trimmed and cut to 24
    characters, the reply is [User not found] and nothing changes; otherwise
    the entry of that member's socket is removed from [users], no member has
    that name afterwards, every other socket keeps its entry, the kicked
    socket is told so, and neither the GM nor the ban list changes (the
    member may join again at once). *)
Theorem kick_removes_member (env : Env) (g : Conn) (mem : gmap string Lobby) (ln : string)
    (L : Lobby) (text : string) :
  lobby g = Some ln -> mem !! ln = Some L -> isGM g L = true ->
  startsWith "/" (safe text 500) = true -> command_word text = "kick" ->
  NoDup (user_names L) ->
  let target := safe (command_arg text) 24 in
  let mem1 := snd (fst (handle env g mem (EvChat text))) in
  let out := snd (handle env g mem (EvChat text)) in
  (~ In target (user_names L) ->
     mem1 = mem /\ out = [(ToSocket (sid g), error_message "User not found")])
  /\ (In target (user_names L) ->
      exists tid L1, mem1 = <[ln := L1]> mem /\ In (tid, target) (users L)
        /\ users L1 = odelete tid (users L)
        /\ ~ In target (user_names L1)
        /\ (forall k, k <> tid -> oget k (users L1) = oget k (users L))
        /\ In (ToSocket tid, error_message "You were kicked by the GM.") out
        /\ gm L1 = gm L /\ bans L1 = bans L).
Proof.
  intros Hl Hm Hgm Hs Hw Hnd target mem1 out. unfold mem1, out. simpl.
  rewrite (chat_command env g mem ln L text Hl Hm Hs).
  rewrite (handleCommand_kick env g ln L _ Hw Hgm). cbv zeta.
  fold (command_arg text). fold target.
  destruct (find_user target (users L)) as [[tid nm]|] eqn:E.
  - apply find_user_Some in E as [-> Hin]. split.
    + intros Hn. exfalso. apply Hn. unfold user_names, ovalues. apply in_map_iff.
      by exists (tid, target).
    + intros _. exists tid, (set_users (odelete tid (users L)) L). cbn [fst snd users set_users].
      repeat split; try done.
      * unfold user_names. cbn [users set_users]. by apply odelete_name_gone.
      * intros k Hk. by apply oget_odelete_ne.
      * by left.
  - apply find_user_None in E. split; [|done].
    intros _. cbn [fst snd]. by rewrite insert_id.
Qed.

Lemma kick_removes_member_witness :
  user_names <$> (snd (fst (handle env0 gia mem_started (EvChat "/kick Wes"))) !! "tavern")
  = Some ["Gia"; "Rin"].
Proof.
  destruct (kick_removes_member env0 gia mem_started "tavern" lobby_started "/kick Wes")
    as [_ H].
  - reflexivity.
  - vm_compute. reflexivity.
  - reflexivity.
  - reflexivity.
  - reflexivity.
  - apply (bool_decide_unpack _). vm_compute. reflexivity.
  - destruct H as (tid & L1 & E & _); [vm_compute; auto|].
    vm_compute. reflexivity.
Defined.

(** X20. Whispers and emotes leave no trace and skip the start lock.  A
    chat line whose command word is w or me changes neither the registry
    nor the connection, whether or not the lobby is locked and whoever sends
    it.  Every message that a whisper sends goes to one socket: the usage or
    not-found error to the caller, or else the text to the socket of the
    first member with the target name and a copy to the caller; nothing is
    sent to the room.  An emote is sent to the room and is not added to the
    chat history. *)
Theorem whisper_and_emote (env : Env) (c : Conn) (mem : gmap string Lobby) (ln : string)
    (L : Lobby) (text : string) :
  lobby c = Some ln -> mem !! ln = Some L ->
  startsWith "/" (safe text 500) = true ->
  (command_word text = "w" ->
     fst (handle env c mem (EvChat text)) = (c, mem)
     /\ Forall (fun e => to_socket (fst e)) (snd (handle env c mem (EvChat text)))
     /\ (forall d m, In (d, chat_msg m) (snd (handle env c mem (EvChat text))) ->
         d = ToSocket (sid c)
         \/ exists tid target, d = ToSocket tid /\ In (tid, target) (users L)
              /\ match_whisper (command_arg text) = Some (target, chat_text m)))
  /\ (command_word text = "me" ->
      exists m, handle env c mem (EvChat text) = (c, mem, [(ToRoom ln, chat_msg m)])
        /\ chat_user m = username c).
Proof.
  intros Hl Hm Hs. split; intros Hw; simpl; rewrite (chat_command env c mem ln L text Hl Hm Hs).
  - rewrite (handleCommand_whisper env c ln L _ Hw). cbv zeta. fold (command_arg text).
    cbn [fst snd]. rewrite insert_id by done. split; [done|].
    destruct (match_whisper (command_arg text)) as [[target message]|].
    + destruct (find_user target (users L)) as [[tid nm]|] eqn:E.
      * apply find_user_Some in E as [-> Hin]. split.
        -- repeat constructor; by eexists.
        -- intros d m [[= <- <-]|[[= <- <-]|[]]]; [right | by left].
           exists tid, target. by repeat split.
      * split; [repeat constructor; by eexists|]. intros d m [[=]|[]].
    + split; [repeat constructor; by eexists|]. intros d m [[=]|[]].
  - rewrite (handleCommand_me env c ln L _ Hw). cbv zeta. cbn [fst snd].
    rewrite insert_id by done. by eexists.
Qed.

Lemma whisper_and_emote_witness :
  fst (handle env0 rin mem_locked (EvChat "/w @Wes meet me at the gate")) = (rin, mem_locked)
  /\ snd (handle env0 rin mem_locked (EvChat "/w @Wes meet me at the gate"))
     = [(ToSocket "W", chat_msg (mkChat "(whisper) Rin" "meet me at the gate" (nowISO env0)));
        (ToSocket "R", chat_msg (mkChat "(to @Wes)" "meet me at the gate" (nowISO env0)))].
Proof.
  destruct (whisper_and_emote env0 rin mem_locked "tavern" lobby_locked
              "/w @Wes meet me at the gate") as [H _].
  - reflexivity.
  - vm_compute. reflexivity.
  - reflexivity.
  - destruct H as [E _]; [reflexivity|]. split; [exact E|]. vm_compute. reflexivity.
Defined.

(** ** Trimming and cutting *)

Section Safe.














End Safe.



(** ** The roll handler *)

Section RollHandler.

Lemma rollAdvanced_Throw (rnd : nat -> Q) (e msg : string) :
  Dice.rollAdvanced rnd e = Throw msg ->
  msg = Dice.msg_invalid \/ msg = Dice.msg_too_big \/ msg = Dice.msg_keep.
Proof.
  unfold Dice.rollAdvanced, Dice.rollAdvanced_main.
  destruct (Dice.DICE_ADV _) as [m|]; [|intros [= <-]; auto].
  cbv zeta. destruct (_ || _)%bool; [intros [= <-]; auto|].
  destruct (_ && _)%bool; [intros [= <-]; auto|]. discriminate.
Qed.

Lemma rollAdvanced_d20 (rnd : nat -> Q) :
  Dice.rollAdvanced rnd "d20"
  = Ok (Dice.mkRoll "d20" [Dice.die 20 (rnd 0%nat)] [Dice.die 20 (rnd 0%nat)] 0
                    (Dice.die 20 (rnd 0%nat) + 0)).
Proof.
  unfold Dice.rollAdvanced.
  change (Dice.resolve_alias "d20") with "d20".
  unfold Dice.rollAdvanced_main.
  change (Dice.DICE_ADV (Dice.normalize "d20"))
    with (Some (Dice.mkMatch "" "20" None None None)).
  cbv beta iota zeta.
  change (Dice.fields (Dice.mkMatch "" "20" None None None))
    with (Dice.mkFields 1 20 None None 0).
  reflexivity.
Qed.

End RollHandler.

(** X5. The roll handler, past the start lock.  The call either fails or
    records: when the evaluator throws, the thrown text, one of its three
    messages (the fallback text of the handler is never used), is sent to
    the caller and the registry is unchanged; otherwise the result, signed
    with the caller's name, is appended to the roll history of the lobby and
    broadcast to the room, and nothing else changes.  A missing or empty
    expression rolls one d20 and cannot fail. *)
Theorem roll_handler_outcome (env : Env) (c : Conn) (mem : gmap string Lobby) (ln : string)
    (L : Lobby) (expression : option string) :
  lobby c = Some ln -> mem !! ln = Some L ->
  isLockedForPlayers L = false \/ isGM c L = true ->
  ((exists msg,
      roll env c mem expression = (c, mem, [(ToSocket (sid c), error_message msg)])
      /\ (msg = Dice.msg_invalid \/ msg = Dice.msg_too_big \/ msg = Dice.msg_keep))
   \/ (exists res,
         Dice.rollAdvanced (rnd env) (or_default expression "d20") = Ok res
         /\ roll env c mem expression
            = (c, <[ln := set_rolls (rolls L ++ [mkRollMsg (username c) res (nowISO env) ln]) L]> mem,
               [(ToRoom ln, roll_msg (mkRollMsg (username c) res (nowISO env) ln))])))
  /\ (expression = None \/ expression = Some EmptyString ->
      roll env c mem expression
      = (let res := Dice.mkRoll "d20" [Dice.die 20 (rnd env 0%nat)] [Dice.die 20 (rnd env 0%nat)]
                                0 (Dice.die 20 (rnd env 0%nat) + 0) in
         (c, <[ln := set_rolls (rolls L ++ [mkRollMsg (username c) res (nowISO env) ln]) L]> mem,
          [(ToRoom ln, roll_msg (mkRollMsg (username c) res (nowISO env) ln))]))).
Proof.
  intros Hl Hm Hplay.
  assert (Hp : (isLockedForPlayers L && negb (isGM c L))%bool = false).
  { destruct Hplay as [->| ->]; [done | by rewrite andb_false_r]. }
  unfold roll. rewrite (with_lobby_in env c mem ln L _ Hl Hm). rewrite Hp. split.
  - destruct (Dice.rollAdvanced (rnd env) (or_default expression "d20")) as [res|msg] eqn:E.
    + right. by exists res.
    + left. exists msg. cbn [fst snd]. rewrite insert_id by done.
      destruct (rollAdvanced_Throw _ _ _ E) as [->|[->| ->]]; auto.
  - intros He.
    assert (Ed : or_default expression "d20" = "d20") by (by destruct He as [->| ->]).
    by rewrite Ed, rollAdvanced_d20.
Qed.

Lemma roll_handler_outcome_witness :
  roll env0 rin mem_started None
  = (rin, <[ "tavern" := set_rolls (rolls lobby_started
                           ++ [mkRollMsg "Rin" (Dice.mkRoll "d20" [11] [11] 0 11)
                                         (nowISO env0) "tavern"]) lobby_started ]> mem_started,
     [(ToRoom "tavern", roll_msg (mkRollMsg "Rin" (Dice.mkRoll "d20" [11] [11] 0 11)
                                            (nowISO env0) "tavern"))]).
Proof.
  destruct (roll_handler_outcome env0 rin mem_started "tavern" lobby_started None) as [_ H].
  - reflexivity.
  - vm_compute. reflexivity.
  - left. reflexivity.
  - rewrite H; [reflexivity | by left].
Defined.

(** ** Joining *)

(** X21. Which joins are refused and what a refusal changes.  A join into
    a lobby that is not in the registry is never refused: it creates the
    lobby, makes the caller, under the name held before the join, its GM,
    stores the hash of a non-empty password, and records the caller as the
    only member.  A join into an existing lobby is refused with the ban
    error when the lower-cased name is banned, whatever the password; else
    with the password error when a password is set and the one given is
    missing, empty or does not verify; a refused join changes neither the
    registry nor the connection.  Every other join succeeds and records the
    caller under its socket id. *)
Theorem join_outcomes (env : Env) (c : Conn) (mem : gmap string Lobby)
    (lobbyName password : option string) :
  let ln := join_target lobbyName in
  let pw := or_default password EmptyString in
  let r := join_lobby env c mem lobbyName password in
  match mem !! ln with
  | None =>
      exists L', snd (fst r) = <[ln := L']> mem
        /\ fst (fst r) = mkConn (sid c) (or_str (username c) "Anon") (Some ln)
        /\ gm L' = Some (username c)
        /\ users L' = [(sid c, or_str (username c) "Anon")]
        /\ passwordHash L' = (if truthy pw then Some (hashPass env pw) else None)
        /\ bans L' = [] /\ settings L' = defaultSettings /\ lmap L' = defaultMap
        /\ campaign L' = defaultCampaign /\ messages L' = [] /\ rolls L' = []
  | Some L =>
      if has (toLowerCase (username c)) (bans L)
      then r = (c, mem, [(ToSocket (sid c), error_message "You are banned from this lobby.")])
      else if (truthy_opt (passwordHash L)
               && (negb (truthy pw)
                   || negb (verifyPass env pw (default EmptyString (passwordHash L)))))%bool
      then r = (c, mem, [(ToSocket (sid c), error_message "Lobby is locked (wrong password).")])
      else exists L', snd (fst r) = <[ln := L']> mem
             /\ fst (fst r) = mkConn (sid c) (uniqueName L (username c)) (Some ln)
             /\ users L' = oset (sid c) (uniqueName L (username c)) (users L)
             /\ (truthy_opt (gm L) = true -> gm L' = gm L)
             /\ (truthy_opt (passwordHash L) = true -> passwordHash L' = passwordHash L)
  end.
Proof.
  intros ln pw r. unfold r, join_lobby. cbv zeta. fold ln. unfold ensureLobby.
  destruct (mem !! ln) as [L|] eqn:E.
  - unfold joinOk. rewrite negb_involutive.
    destruct (has (toLowerCase (username c)) (bans L)); [done|].
    unfold join_gate. fold pw.
    destruct (truthy_opt (passwordHash L)) eqn:Ep; cbn [andb].
    + destruct (negb (truthy pw) || negb (verifyPass env pw (default "" (passwordHash L))))%bool;
        [done|].
      eexists. cbn [fst snd]. repeat split; done.
    + destruct (truthy pw) eqn:Et.
      * cbv zeta. cbn [gm set_passwordHash].
        destruct (negb (truthy_opt (gm L))) eqn:Eg; eexists; cbn [fst snd]; repeat split;
          try done; cbn [gm set_gm set_users set_passwordHash]; intros; try congruence.
        all: apply negb_true_iff in Eg; congruence.
      * destruct (negb (truthy_opt (gm L))) eqn:Eg; eexists; cbn [fst snd]; repeat split;
          try done; cbn [gm set_gm set_users set_passwordHash]; intros; try congruence.
        all: apply negb_true_iff in Eg; congruence.
  - unfold joinOk, join_gate. fold pw. cbn [newLobby bans has existsb negb passwordHash truthy_opt].
    destruct (truthy pw) eqn:Et; cbv zeta; cbn [gm set_passwordHash newLobby truthy_opt negb];
      eexists; cbn [fst snd]; rewrite insert_insert_eq; repeat split.
Qed.

(** ** The GM test *)

(** X22. The GM test compares names, and [identify] sets the name
    without any test.  [identify] changes the name of the connection to the
    trimmed payload, cut to 24 characters, and nothing else: not the lobby
    of the connection, not the registry, not the entry of the socket in
    [users].  So a connection that identifies with the GM's name passes
    [isGM] from then on, in the lobby it is in, and the GM-only operations
    accept it; for one, its [map_clear] is carried out. *)
Theorem identify_as_gm (env : Env) (c : Conn) (mem : gmap string Lobby) (ln : string)
    (L : Lobby) (g : string) :
  lobby c = Some ln -> mem !! ln = Some L -> gm L = Some g ->
  g <> EmptyString -> safe g 24 = g ->
  let r := handle env c mem (EvIdentify (Some g)) in
  let c' := fst (fst r) in
  r = (mkConn (sid c) g (lobby c), mem, [(ToSocket (sid c), identified g)])
  /\ isGM c' L = true
  /\ (forall ev, gm_only_event ev = true ->
        handle env c' mem ev <> (c', mem, [(ToSocket (sid c'), error_message "GM only.")]))
  /\ exists L', snd (fst (handle env c' mem EvMapClear)) = <[ln := L']> mem
       /\ tiles (lmap L') = open_grid (map_w (lmap L)) (map_h (lmap L)).
Proof.
  intros Hl Hm Hg Hne Hs r c'. unfold r, c'. simpl.
  assert (Eo : or_str g "Anon" = g) by (by destruct g).
  rewrite Eo, Hs. split; [done|]. cbn [fst].
  assert (Hgm : isGM (mkConn (sid c) g (lobby c)) L = true).
  { unfold isGM. rewrite Hg. simpl. apply String.eqb_refl. }
  split; [done|]. split.
  - intros ev Hev.
    assert (Hl' : lobby (mkConn (sid c) g (lobby c)) = Some ln) by done.
    destruct ev; try discriminate Hev; simpl; unfold_handler;
      rewrite (with_lobby_in env _ mem ln L _ Hl' Hm); unfold start_campaign;
      rewrite Hgm; cbn [negb];
      repeat (first [progress cbv beta zeta | case_match]); cbn [fst snd];
      intros [= ]; try discriminate.
    match goal with H : snd (commit_choice _ _ _ _) = _ |- _ =>
      unfold commit_choice in H; destruct (find_scene _ _); discriminate H end.
  - assert (Hl' : lobby (mkConn (sid c) g (lobby c)) = Some ln) by done.
    unfold map_clear. rewrite (with_lobby_in env _ mem ln L _ Hl' Hm). rewrite Hgm.
    cbn [negb fst snd]. by eexists.
Qed.

Lemma identify_as_gm_witness :
  isGM (fst (fst (handle env0 rin mem_started (EvIdentify (Some "Gia"))))) lobby_started = true.
Proof.
  destruct (identify_as_gm env0 rin mem_started "tavern" lobby_started "Gia") as (_ & H & _).
  - reflexivity.
  - vm_compute. reflexivity.
  - reflexivity.
  - discriminate.
  - reflexivity.
  - exact H.
Defined.

(** ** The grid *)

Section Grid.

Lemma tile_at_insert (ts : list (list Z)) (row : list Z) (x y : nat) (v : Z) :
  ts !! y = Some row -> (x < length row)%nat ->
  tile_at (<[y := <[x := v]> row]> ts) (Z.of_nat x) (Z.of_nat y) = v
  /\ (forall x2 y2, 0 <= x2 -> 0 <= y2 -> (x2, y2) <> (Z.of_nat x, Z.of_nat y) ->
      tile_at (<[y := <[x := v]> row]> ts) x2 y2 = tile_at ts x2 y2).
Proof.
  intros Hrow Hx. pose proof (lookup_lt_Some _ _ _ Hrow) as Hy. unfold tile_at. split.
  - rewrite !Nat2Z.id, list_lookup_insert_eq by done. by rewrite list_lookup_insert_eq.
  - intros x2 y2 Hx2 Hy2 Hne. destruct (decide (Z.to_nat y2 = y)) as [E|E].
    + rewrite E, list_lookup_insert_eq, Hrow by done.
      rewrite list_lookup_insert_ne; [done|]. intros E2. apply Hne. f_equal; lia.
    + by rewrite list_lookup_insert_ne.
Qed.






End Grid.

(** X23. A tile written by [map_set] is the tile read back.  On a well
    shaped map the GM's [map_set] clamps the coordinates onto the grid,
    writes 1 for a truthy value and 0 otherwise at that cell and broadcasts
    the map; the cell then reads as written, every other cell reads as
    before, and the dimensions and the tokens are unchanged (a wall may be
    put under a token). *)
Theorem map_set_round_trip (env : Env) (c : Conn) (mem : gmap string Lobby) (ln : string)
    (L : Lobby) (x y : Val) (val : bool) :
  lobby c = Some ln -> mem !! ln = Some L -> isGM c L = true -> map_ok (lmap L) ->
  let x' := clamp (parseInt_or0 x) 0 (map_w (lmap L) - 1) in
  let y' := clamp (parseInt_or0 y) 0 (map_h (lmap L) - 1) in
  exists L', map_set env c mem x y val = (c, <[ln := L']> mem, [(ToRoom ln, map_state (lmap L'))])
    /\ 0 <= x' < map_w (lmap L) /\ 0 <= y' < map_h (lmap L)
    /\ tile_at (tiles (lmap L')) x' y' = (if val then 1 else 0)
    /\ (forall x2 y2, 0 <= x2 -> 0 <= y2 -> (x2, y2) <> (x', y') ->
        tile_at (tiles (lmap L')) x2 y2 = tile_at (tiles (lmap L)) x2 y2)
    /\ tokens (lmap L') = tokens (lmap L)
    /\ map_w (lmap L') = map_w (lmap L) /\ map_h (lmap L') = map_h (lmap L)
    /\ map_ok (lmap L').
Proof.
  intros Hl Hm Hgm Hok x' y'.
  pose proof Hok as (Hw & Hh & Hlen & Hrows & _).
  pose proof (clamp_range (parseInt_or0 x) 0 (map_w (lmap L) - 1)) as Hx. fold x' in Hx.
  pose proof (clamp_range (parseInt_or0 y) 0 (map_h (lmap L) - 1)) as Hy. fold y' in Hy.
  destruct (lookup_lt_is_Some_2 (tiles (lmap L)) (Z.to_nat y')) as [row Hrow]; [lia|].
  pose proof (proj1 (List.Forall_forall _ _) Hrows row) as Hlr.
  destruct Hlr as [Hlrow _]; [by apply list_elem_of_In, (list_elem_of_lookup_2 _ _ _ Hrow)|].
  assert (Hlt : (Z.to_nat x' < length row)%nat) by lia.
  unfold map_set. rewrite (with_lobby_in env c mem ln L _ Hl Hm). rewrite Hgm. cbn [negb].
  cbv zeta. fold x' y'. rewrite Hrow. cbn [fst snd].
  eexists. split; [reflexivity|]. cbn [lmap set_lmap tiles tokens map_w map_h].
  assert (Earr : array_set (Z.to_nat x') (if val then 1 else 0) row
                 = <[Z.to_nat x' := if val then 1 else 0]> row).
  { unfold array_set. by apply Nat.ltb_lt in Hlt as ->. }
  destruct (tile_at_insert (tiles (lmap L)) row (Z.to_nat x') (Z.to_nat y')
              (if val then 1 else 0) Hrow Hlt) as [Hrd Hoth].
  rewrite !Z2Nat.id in Hrd, Hoth by lia.
  split; [lia|]. split; [lia|]. split; [by rewrite Earr|]. split; [by rewrite Earr|].
  split; [done|]. split; [done|]. split; [done|].
  apply (map_edit_ok c L (lmap L)); [|done].
  apply (me_set c L (lmap L) (parseInt_or0 x) (parseInt_or0 y) (if val then 1 else 0) row);
    [done | destruct val; auto | done].
Qed.

Lemma map_set_round_trip_witness :
  exists L', snd (fst (map_set env0 gia mem_started (VStr "3") (VNum 99) true)) !! "tavern"
             = Some L'
    /\ tile_at (tiles (lmap L')) 3 19 = 1 /\ tile_at (tiles (lmap L')) 3 18 = 0.
Proof.
  assert (Hok : map_ok (lmap lobby_started)).
  { change (lmap lobby_started) with defaultMap. apply defaultMap_ok. }
  destruct (map_set_round_trip env0 gia mem_started "tavern" lobby_started (VStr "3") (VNum 99)
              true) as (L' & E & _ & _ & H1 & H2 & _).
  - reflexivity.
  - vm_compute. reflexivity.
  - reflexivity.
  - exact Hok.
  - exists L'. rewrite E. cbn [fst snd]. rewrite lookup_insert_eq. split; [reflexivity|].
    split; [exact H1|]. rewrite (H2 3 18); [reflexivity | lia | lia | discriminate].
Defined.






(** ** Starting and loading a campaign *)

Section Start.


End Start.



(** ** More slash commands, and the older choice handler *)

Section Commands3.
Context (env : Env).

Lemma handleCommand_setpass (c : Conn) (ln : string) (L : Lobby) (line : string) :
  toLowerCase (fst (split_space (slice1 line))) = "setpass" ->
  let argStr := trim (default EmptyString (snd (split_space (slice1 line)))) in
  handleCommand env c ln L line
  = if (truthy_opt (passwordHash L) && negb (isGM c L))%bool
    then (L, [(ToSocket (sid c), error_message "Only GM can change password.")])
    else if negb (truthy argStr)
    then (L, [(ToSocket (sid c), error_message "Usage: /setpass <password>")])
    else
      let L1 := set_passwordHash (Some (hashPass env argStr)) L in
      let L2 := if negb (truthy_opt (gm L1)) then set_gm (Some (username c)) L1 else L1 in
      (L2, (ToRoom ln, system "Lobby password set/updated.") :: emitState ln L2).
Proof.
  intros Hcmd. unfold handleCommand.
  destruct (split_space (slice1 line)) as [cmd0 rest]. cbn [fst snd] in *.
  cbv zeta. rewrite Hcmd. by eval_cmd.
Qed.

Lemma handleCommand_macro (c : Conn) (ln : string) (L : Lobby) (line : string) :
  toLowerCase (fst (split_space (slice1 line))) = "macro" ->
  let argStr := trim (default EmptyString (snd (split_space (slice1 line)))) in
  let sub := fst (split_space argStr) in
  let rest2 := snd (split_space argStr) in
  let mp := default [] (oget (username c) (macros L)) in
  handleCommand env c ln L line
  = if String.eqb sub "add" then
      match match_macro_add (trim (default EmptyString rest2)) with
      | None => (L, [(ToSocket (sid c), error_message "Use: /macro add name=expr")])
      | Some (k, e) =>
          (set_macros (oset (username c) (oset k e mp) (macros L)) L,
           [(ToSocket (sid c), system ("Macro added: " +:+ k +:+ " = " +:+ e))])
      end
    else if String.eqb sub "del" then
      let first := (fun r => fst (split_space r)) <$> rest2 in
      (set_macros (oset (username c)
                        (match first with Some k => odelete k mp | None => mp end)
                        (macros L)) L,
       [(ToSocket (sid c), system ("Macro deleted: " +:+ default "undefined" first))])
    else if String.eqb sub "list" then
      (L, [(ToSocket (sid c), system ("Your macros: " +:+ json_object mp))])
    else (L, [(ToSocket (sid c), error_message "Subcommands: add, del, list")]).
Proof.
  intros Hcmd. unfold handleCommand.
  destruct (split_space (slice1 line)) as [cmd0 rest]. cbn [fst snd] in *.
  cbv zeta. rewrite Hcmd. eval_cmd.
  destruct (split_space (trim (default "" rest))) as [sub rest2]. cbn [fst snd].
  destruct (String.eqb sub "add"); [by destruct (match_macro_add _) as [[k e]|]|].
  done.
Qed.

End Commands3.

(** X27. The first password is first come, first served.  A chat line
    whose command word is setpass is not subject to the start lock.  While
    the lobby has no password, any member may set one; the caller becomes
    the GM if the lobby has none.  Once a password is set, a caller who is
    not the GM is refused and nothing changes.  An empty argument is
    refused.  Otherwise the hash of the trimmed argument becomes the
    password of the lobby, and members, bans and settings stay. *)
Theorem setpass_first_come (env : Env) (c : Conn) (mem : gmap string Lobby) (ln : string)
    (L : Lobby) (text : string) :
  lobby c = Some ln -> mem !! ln = Some L ->
  startsWith "/" (safe text 500) = true -> command_word text = "setpass" ->
  let r := handle env c mem (EvChat text) in
  if (truthy_opt (passwordHash L) && negb (isGM c L))%bool
  then r = (c, mem, [(ToSocket (sid c), error_message "Only GM can change password.")])
  else if negb (truthy (command_arg text))
  then r = (c, mem, [(ToSocket (sid c), error_message "Usage: /setpass <password>")])
  else exists L', fst r = (c, <[ln := L']> mem)
         /\ passwordHash L' = Some (hashPass env (command_arg text))
         /\ gm L' = (if truthy_opt (gm L) then gm L else Some (username c))
         /\ users L' = users L /\ bans L' = bans L /\ settings L' = settings L.
Proof.
  intros Hl Hm Hs Hw r. unfold r. simpl.
  rewrite (chat_command env c mem ln L text Hl Hm Hs).
  rewrite (handleCommand_setpass env c ln L _ Hw). cbv zeta. fold (command_arg text).
  destruct (truthy_opt (passwordHash L) && negb (isGM c L))%bool;
    [cbn [fst snd]; by rewrite insert_id|].
  destruct (negb (truthy (command_arg text))); [cbn [fst snd]; by rewrite insert_id|].
  cbn [gm set_passwordHash]. destruct (truthy_opt (gm L)); cbn [negb fst snd]; by eexists.
Qed.

Lemma setpass_first_come_witness :
  exists L', fst (handle env0 rin mem_locked (EvChat "/setpass  open sesame "))
             = (rin, <["tavern" := L']> mem_locked)
    /\ passwordHash L' = Some "salt:open sesame" /\ gm L' = Some "Gia".
Proof.
  pose proof (setpass_first_come env0 rin mem_locked "tavern" lobby_locked
                "/setpass  open sesame " eq_refl ltac:(vm_compute; reflexivity)
                eq_refl eq_refl) as H.
  cbv zeta in H.
  change (truthy_opt (passwordHash lobby_locked) && negb (isGM rin lobby_locked))%bool
    with false in H.
  cbv beta iota in H.
  change (negb (truthy (command_arg "/setpass  open sesame "))) with false in H.
  cbv beta iota in H.
  destruct H as (L' & E & Hp & Hg & _). exists L'. split; [exact E|].
  split; [exact Hp | exact Hg].
Defined.

(** X28. Adding and deleting a macro.  A chat line whose command word is
    macro is not subject to the start lock.  With the subcommand add and a
    text of the form name = expression, the caller's macro table maps the
    name to the expression afterwards and every other entry of the table is
    as before; with the subcommand del the first word after it has no entry
    afterwards and every other entry is as before; in both cases the reply
    goes to the caller only and the tables of the other members are
    untouched.  The subcommand list and an unknown subcommand change
    nothing. *)
Theorem macro_add_del (env : Env) (c : Conn) (mem : gmap string Lobby) (ln : string)
    (L : Lobby) (text : string) :
  lobby c = Some ln -> mem !! ln = Some L ->
  startsWith "/" (safe text 500) = true -> command_word text = "macro" ->
  let r := handle env c mem (EvChat text) in
  let sub := fst (split_space (command_arg text)) in
  let rest2 := snd (split_space (command_arg text)) in
  let table := fun L0 => default [] (oget (username c) (macros L0)) in
  (forall k e, sub = "add" -> match_macro_add (trim (default EmptyString rest2)) = Some (k, e) ->
     exists L', r = (c, <[ln := L']> mem,
                     [(ToSocket (sid c), system ("Macro added: " +:+ k +:+ " = " +:+ e))])
       /\ oget k (table L') = Some e
       /\ (forall k', k' <> k -> oget k' (table L') = oget k' (table L)))
  /\ (forall k rest3, sub = "del" -> rest2 = Some rest3 -> k = fst (split_space rest3) ->
      exists L', r = (c, <[ln := L']> mem,
                      [(ToSocket (sid c), system ("Macro deleted: " +:+ k))])
        /\ oget k (table L') = None
        /\ (forall k', k' <> k -> oget k' (table L') = oget k' (table L)))
  /\ (sub <> "add" -> sub <> "del" -> fst r = (c, mem)).
Proof.
  intros Hl Hm Hs Hw r sub rest2 table. unfold r. simpl.
  rewrite (chat_command env c mem ln L text Hl Hm Hs).
  rewrite (handleCommand_macro env c ln L _ Hw). cbv zeta. fold (command_arg text).
  fold sub rest2. split; [|split].
  - intros k e -> He. rewrite He. cbn [String.eqb Ascii.eqb Bool.eqb fst snd].
    eexists. split; [reflexivity|]. unfold table. cbn [macros set_macros].
    rewrite oget_oset_eq. cbn [default]. split; [apply oget_oset_eq|].
    intros k' Hk. by apply oget_oset_ne.
  - intros k rest3 -> -> ->. cbn [String.eqb Ascii.eqb Bool.eqb fst snd fmap option_fmap option_map default].
    eexists. split; [reflexivity|]. unfold table. cbn [macros set_macros].
    rewrite oget_oset_eq. cbn [default]. split; [apply oget_odelete_eq|].
    intros k' Hk. by apply oget_odelete_ne.
  - intros Ha Hd. apply String.eqb_neq in Ha as ->. apply String.eqb_neq in Hd as ->.
    destruct (String.eqb sub "list"); cbn [fst snd]; by rewrite insert_id.
Qed.

Lemma macro_add_del_witness :
  exists L', handle env0 rin mem_locked (EvChat "/macro add atk = d20+5")
             = (rin, <["tavern" := L']> mem_locked,
                [(ToSocket "R", system "Macro added: atk = d20+5")])
    /\ oget "atk" (default [] (oget "Rin" (macros L'))) = Some "d20+5".
Proof.
  destruct (macro_add_del env0 rin mem_locked "tavern" lobby_locked "/macro add atk = d20+5")
    as (H & _).
  - reflexivity.
  - vm_compute. reflexivity.
  - reflexivity.
  - reflexivity.
  - destruct (H "atk" "d20+5") as (L' & E & Hget & _); [reflexivity | reflexivity |].
    exists L'. split; [exact E | exact Hget].
Defined.

(** X29. [campaign_choice_pick], the handler of the server version
    without the consent flow.  It tests neither the GM nor the start lock:
    for every member, the call moves the scene pointer to the target of the
    choice when the choice belongs to the current scene, its target is not
    empty and a scene with that id exists; it then announces the choice and
    broadcasts the campaign, and changes nothing but the pointer.  In every
    other case it does nothing and sends nothing. *)
Theorem choice_pick_outcome (env : Env) (c : Conn) (mem : gmap string Lobby) (ln : string)
    (L : Lobby) (choiceId : string) :
  lobby c = Some ln -> mem !! ln = Some L ->
  let r := campaign_choice_pick env c mem choiceId in
  (forall scene choice target,
     current_scene (campaign L) = Some scene -> find_choice choiceId scene = Some choice ->
     choice_to choice <> EmptyString ->
     find_scene (choice_to choice) (campaign L) = Some target ->
     exists L', r = (c, <[ln := L']> mem,
                     [(ToRoom ln, system (username c +:+ " chose: " +:+ choice_text choice));
                      (ToRoom ln, campaign_state (campaign L'))])
       /\ currentSceneId (campaign L') = Some (choice_to choice)
       /\ L' = set_campaign (set_currentSceneId (Some (choice_to choice)) (campaign L)) L)
  /\ ((forall scene choice, current_scene (campaign L) = Some scene ->
         find_choice choiceId scene = Some choice ->
         choice_to choice = EmptyString \/ find_scene (choice_to choice) (campaign L) = None) ->
      r = (c, mem, [])).
Proof.
  intros Hl Hm r. unfold r, campaign_choice_pick.
  rewrite (with_lobby_in env c mem ln L _ Hl Hm). split.
  - intros scene choice target Hcur Hch Hto Hfind. rewrite Hcur, Hch, Hfind.
    assert (Ht : truthy (choice_to choice) = true) by (by destruct (choice_to choice)).
    rewrite Ht, (find_scene_id _ _ _ Hfind). cbn [fst snd].
    exists (set_campaign (set_currentSceneId (Some (choice_to choice)) (campaign L)) L).
    split; [reflexivity|]. split; reflexivity.
  - intros Hno. destruct (current_scene (campaign L)) as [scene|] eqn:Hcur;
      [|cbn [fst snd]; by rewrite insert_id].
    destruct (find_choice choiceId scene) as [choice|] eqn:Hch;
      [|cbn [fst snd]; by rewrite insert_id].
    destruct (Hno scene choice eq_refl Hch) as [E|E]; rewrite E.
    + cbn [truthy fst snd]. by rewrite insert_id.
    + destruct (truthy (choice_to choice)); cbn [fst snd]; by rewrite insert_id.
Qed.

Lemma choice_pick_outcome_witness :
  exists L', campaign_choice_pick env0 rin mem_locked "c_intro_board"
             = (rin, <["tavern" := L']> mem_locked,
                [(ToRoom "tavern", system "Rin chose: Study the notice board");
                 (ToRoom "tavern", campaign_state (campaign L'))])
    /\ currentSceneId (campaign L') = Some "s_board".
Proof.
  destruct (choice_pick_outcome env0 rin mem_locked "tavern" lobby_locked "c_intro_board")
    as (H & _).
  - reflexivity.
  - vm_compute. reflexivity.
  - destruct (H (mkScene "s_intro" "Arrival in Graywick"
                   "Foggy mining town; escort job & missing caravans."
                   [ mkChoice "c_intro_tavern" "Head to the Burnt Anvil tavern" "s_tavern";
                     mkChoice "c_intro_board" "Study the notice board" "s_board" ])
                (mkChoice "c_intro_board" "Study the notice board" "s_board")
                (mkScene "s_board" "Notice Board"
                   "Late caravans; red-eyed goblins near the Old Road."
                   [ mkChoice "c_board_investigate" "Investigate the Old Road" "s_road";
                     mkChoice "c_board_ignore" "Ask around the market" "s_market" ]))
      as (L' & E & Hp & _); [reflexivity | reflexivity | discriminate | reflexivity |].
    exists L'. split; [exact E | exact Hp].
Defined.
